(** * enerkomp-be: authentication and role-based access control

    A shallow embedding of the authentication / RBAC core of the backend:

    - [RoleService.hasPermission]            (src/services/role.service.ts)
    - [RequirePermissionMiddleware.require]  (src/middleware/require-permission.middleware.ts)
    - [AuthMiddleware.authenticate]          (src/middleware/auth.middleware.ts)
    - [AuthService], [PasswordService], [TokenService], [EmailService]
    - [AuthController.forgotPassword] and the error branch of
      [AuthController.login]
    - [HttpHelperService.handleError], [HttpHelperService.getClientIp]

    Modelling conventions.

    - The relational store is a record of tables, each table a list of
      rows in insertion order.  [findFirst]/[findUnique] return the first
      row that satisfies the [where] clause; the primary key of a token
      row is its position in the table (rows are never deleted by the
      operations modelled here).
    - Instants ([Date]) and durations are integers in milliseconds.  One
      service call reads the clock once: the reading is the argument [now].
      [forgotPassword] takes two, because the throttle relates instants
      stored by different requests: [new Date()], read before the cooldown
      check and stored as lastForgotAt, and [Date.now()], read when the
      token is issued and from which its expiry is counted.
    - A [string] holds the UTF-8 encoding of a JavaScript string.
    - A JavaScript exception is the outcome [Throw msg], where [msg] is the
      [message] of the thrown [Error]; a service call is a function from
      the store to an outcome and the store it leaves behind, so that the
      writes done before a throw stay visible.
    - Libraries outside the repository (jsonwebtoken, bcrypt, nodemailer,
      luxon, dayjs, uuid) are the fields of the record [Env]. *)

From stdpp Require Import base option list gmap strings.
From Stdlib Require Import ZArith Lia Ascii.

Local Open Scope string_scope.
Local Open Scope list_scope.
Local Open Scope Z_scope.

(** ** JavaScript values and outcomes *)

(** The values a JSON body field or a JWT claim can hold, as far as the
    code distinguishes them ([!v] and [typeof v]). *)
Inductive JsValue : Type :=
  | JsUndefined
  | JsNull
  | JsBool (b : bool)
  | JsNumber (n : Z)
  | JsString (s : string).

#[global] Instance JsValue_eq_dec : EqDecision JsValue.
Proof. solve_decision. Defined.

(** [!s] on a string: only the empty string is falsy. *)
Definition str_truthy (s : string) : bool := negb (bool_decide (s = "")).

(** [s.length]: the number of UTF-16 code units of the string.  In UTF-8 a
    character starts with a byte outside 0x80..0xBF; it takes one code
    unit, or two (a surrogate pair) when it lies beyond the Basic
    Multilingual Plane, that is when its first byte is 0xF0 or more. *)
Fixpoint js_length (s : string) : nat :=
  match s with
  | EmptyString => 0%nat
  | String c rest =>
    let byte := nat_of_ascii c in
    ((if (byte <? 128)%nat then 1
      else if (byte <? 192)%nat then 0
      else if (byte <? 240)%nat then 1
      else 2) + js_length rest)%nat
  end.

(** The string made of the given bytes. *)
Definition utf8 (bytes : list Z) : string :=
  foldr (fun byte s => String (ascii_of_nat (Z.to_nat byte)) s) EmptyString bytes.

(** The characters [String.prototype.trim] strips, each in UTF-8: the
    WhiteSpace and LineTerminator productions of ECMAScript, that is TAB,
    LF, VT, FF, CR, SP, U+00A0, U+1680, U+2000 to U+200A, U+2028, U+2029,
    U+202F, U+205F, U+3000 and U+FEFF. *)
Definition js_white_space : list string :=
  utf8 <$> [ [9]; [10]; [11]; [12]; [13]; [32];
             [194; 160];
             [225; 154; 128];
             [226; 128; 128]; [226; 128; 129]; [226; 128; 130]; [226; 128; 131];
             [226; 128; 132]; [226; 128; 133]; [226; 128; 134]; [226; 128; 135];
             [226; 128; 136]; [226; 128; 137]; [226; 128; 138];
             [226; 128; 168]; [226; 128; 169];
             [226; 128; 175];
             [226; 129; 159];
             [227; 128; 128];
             [239; 187; 191] ].

(** The result of running a piece of code that may throw. *)
Inductive outcome (A : Type) : Type :=
  | Return (a : A)
  | Throw (msg : string).
Arguments Return {A} a.
Arguments Throw {A} msg.

#[global] Instance outcome_eq_dec {A} `{EqDecision A} : EqDecision (outcome A).
Proof. solve_decision. Defined.

(** ** Data model (the Prisma tables the core touches) *)

Inductive UserStatus : Type := ACTIVE | INACTIVE.

#[global] Instance UserStatus_eq_dec : EqDecision UserStatus.
Proof. solve_decision. Defined.

Inductive TokenType : Type := access_token | refresh_token | reset_password.

#[global] Instance TokenType_eq_dec : EqDecision TokenType.
Proof. solve_decision. Defined.

Record User : Type := mkUser {
  user_id : string;
  user_name : string;
  user_email : string;
  user_password : string;
  user_status : UserStatus;
  user_roleId : string;
  user_avatar : option string;
  user_deletedAt : option Z;
  user_lastLoginAt : option Z;
  user_lastForgotAt : option Z
}.

Record Role : Type := mkRole {
  role_id : string;
  role_name : string
}.

Record Permission : Type := mkPermission {
  perm_roleId : string;
  perm_resource : string;
  perm_action : string
}.

Record Token : Type := mkToken {
  tok_token : string;
  tok_type : TokenType;
  tok_userId : string;
  tok_expiresAt : Z;
  tok_isRevoked : bool;
  tok_usedAt : option Z;
  tok_ipAddress : option string;
  tok_userAgent : option string
}.

Record AuditLog : Type := mkAuditLog {
  log_userId : option string;
  log_action : string;
  log_tableName : string;
  log_recordId : option string;
  log_details : string;
  log_ipAddress : option string;
  log_userAgent : option string
}.

Record Db : Type := mkDb {
  users : list User;
  roles : list Role;
  permissions : list Permission;
  tokens : list Token;
  auditLogs : list AuditLog
}.

#[global] Instance User_eq_dec : EqDecision User.
Proof. solve_decision. Defined.
#[global] Instance Role_eq_dec : EqDecision Role.
Proof. solve_decision. Defined.
#[global] Instance Permission_eq_dec : EqDecision Permission.
Proof. solve_decision. Defined.
#[global] Instance Token_eq_dec : EqDecision Token.
Proof. solve_decision. Defined.
#[global] Instance AuditLog_eq_dec : EqDecision AuditLog.
Proof. solve_decision. Defined.
#[global] Instance Db_eq_dec : EqDecision Db.
Proof. solve_decision. Defined.

(** ** HTTP boundary *)

(** A JSON object sent with [res.json]: its fields in order. *)
Definition Json : Type := list (string * JsValue).

Record Response : Type := mkResponse {
  res_status : Z;
  res_body : Json
}.

#[global] Instance Response_eq_dec : EqDecision Response.
Proof. solve_decision. Defined.

(** [req.user], as declared for [Express.Request]. *)
Record AuthenticatedUser : Type := mkAuthenticatedUser {
  au_id : string;
  au_email : string;
  au_roleId : string;
  au_role : option string
}.

#[global] Instance AuthenticatedUser_eq_dec : EqDecision AuthenticatedUser.
Proof. solve_decision. Defined.

(** The parts of an Express request the gates and controllers read or
    write.  [_permissionCache] is [None] until the first permission check
    of the request creates the [Map]. *)
Record Request : Type := mkRequest {
  req_cookie_access_token : option string;
  req_header_authorization : option string;
  req_body_email : JsValue;
  req_ip : option string;
  req_remoteAddress : option string;
  req_x_forwarded_for : option string;
  req_userAgent : option string;
  req_user : option AuthenticatedUser;
  _permissionCache : option (gmap string bool)
}.

(** What a middleware did with the request: called [next()] or sent a
    response. *)
Inductive Handled : Type :=
  | Next
  | Send (r : Response).

#[global] Instance Handled_eq_dec : EqDecision Handled.
Proof. solve_decision. Defined.

(** [res.status(code).json({ error: message })]. *)
Definition error_response (code : Z) (message : string) : Response :=
  mkResponse code [("error", JsString message)].

(** ** Permission Resolver: RoleService.hasPermission *)

(** The [where] clause [{ roleId, resource, action }]. *)
Definition permission_where (roleId resource action : string) (p : Permission) : Prop :=
  perm_roleId p = roleId ∧ perm_resource p = resource ∧ perm_action p = action.

#[global] Instance permission_where_dec roleId resource action p :
  Decision (permission_where roleId resource action p).
Proof. unfold permission_where. apply _. Defined.

(** [prisma.permission.findFirst({ where }) !== null]. *)
Definition hasPermission (db : Db) (roleId resource action : string) : bool :=
  match list_find (permission_where roleId resource action) (permissions db) with
  | Some _ => true
  | None => false
  end.

(** ** Permission Gate: RequirePermissionMiddleware.require *)

(** One call of the resolver: [(roleId, resource, action)]. *)
Definition ResolverCall : Type := string * string * string.

(** The resolver as the gate sees it: an asynchronous call that answers
    or rejects. *)
Definition Resolver : Type := string → string → string → outcome bool.

(** The resolver of the running application. *)
Definition roleService (db : Db) : Resolver :=
  fun roleId resource action => Return (hasPermission db roleId resource action).

Record GateResult : Type := mkGateResult {
  gate_handled : Handled;
  gate_req : Request;
  gate_calls : list ResolverCall
}.

(** [`${resource}:${action}:${req.user.roleId}`]. *)
Definition cacheKey (resource action roleId : string) : string :=
  resource +:+ ":" +:+ action +:+ ":" +:+ roleId.

(** The request-scoped cache once the gate has initialised it: the [Map]
    of the request, or a new empty one. *)
Definition cache_of (req : Request) : gmap string bool :=
  default ∅ (_permissionCache req).

Definition set_cache (req : Request) (c : gmap string bool) : Request :=
  mkRequest (req_cookie_access_token req) (req_header_authorization req)
    (req_body_email req) (req_ip req) (req_remoteAddress req)
    (req_x_forwarded_for req) (req_userAgent req) (req_user req) (Some c).

(** The [catch] branch of the gate: the message of the error, status 500. *)
Definition permission_check_failed (msg : string) : Handled :=
  Send (error_response 500 msg).

Definition require (rs : Resolver) (resource action : string) (req : Request) : GateResult :=
  match req_user req with
  | None => mkGateResult (Send (error_response 401 "Authentication required")) req []
  | Some u =>
    let cache := cache_of req in
    let req0 := set_cache req cache in
    let key := cacheKey resource action (au_roleId u) in
    match cache !! key with
    | Some true => mkGateResult Next req0 []
    | Some false =>
      mkGateResult (Send (error_response 403 "Insufficient permissions")) req0 []
    | None =>
      let call1 := (au_roleId u, resource, "manage") in
      match rs (au_roleId u) resource "manage" with
      | Throw msg => mkGateResult (permission_check_failed msg) req0 [call1]
      | Return true =>
        mkGateResult Next (set_cache req (<[key := true]> cache)) [call1]
      | Return false =>
        let call2 := (au_roleId u, resource, action) in
        match rs (au_roleId u) resource action with
        | Throw msg => mkGateResult (permission_check_failed msg) req0 [call1; call2]
        | Return hasSpecificPermission =>
          mkGateResult
            (if hasSpecificPermission then Next
             else Send (error_response 403 "Insufficient permissions"))
            (set_cache req (<[key := hasSpecificPermission]> cache))
            [call1; call2]
        end
      end
    end
  end.

(** ** Libraries and configuration *)

(** The errors [jwt.verify] throws. *)
Inductive JwtError : Type := TokenExpiredError | JsonWebTokenError | NotBeforeError.

(** The claims of a token: what the code signs and what it reads back
    from the decoded payload (typed [any]).  A payload that is not an
    object has no such properties: all three are [JsUndefined]. *)
Record JwtClaims : Type := mkJwtClaims {
  claim_id : JsValue;
  claim_email : JsValue;
  claim_roleId : JsValue
}.

(** The libraries and the process environment. *)
Record Env : Type := mkEnv {
  (** [jwt.sign(payload, secret, { expiresIn })] at a given instant *)
  jwt_sign : JwtClaims → string → Z → Z → string;
  (** [jwt.verify(token, secret)] at a given instant *)
  jwt_verify : string → string → Z → JwtError + JwtClaims;
  (** [bcrypt.hash(password, saltRounds)] *)
  bcrypt_hash : string → Z → string;
  (** [bcrypt.compare(plain, hashed)]; [None] when it rejects *)
  bcrypt_compare : string → string → option bool;
  (** [transporter.sendMail] for (to, subject, html): delivered or not *)
  transporter_sendMail : string → string → string → bool;
  (** luxon: [DateTime.fromJSDate(d, {zone: "UTC"}).setZone(tz).toISO()] *)
  luxon_toISO : Z → string → string;
  (** dayjs: [dayjs(s).format()] *)
  dayjs_format : option string → string;
  (** the HTML of the reset mail for a reset link
      ([ForgotPasswordEmailTemplate.generate]) *)
  forgot_password_html : string → string;
  (** the message of the error Prisma throws when it rejects a query *)
  prisma_validation_message : string;
  NODE_ENV : string;
  FRONTEND_URL : string
}.

Record AuthServiceConfig : Type := mkAuthServiceConfig {
  accessTokenExpiresIn : Z;
  refreshTokenExpiresIn : Z;
  forgotPasswordCooldown : Z;
  resetTokenExpiresIn : Z
}.

Record TokenServiceConfig : Type := mkTokenServiceConfig {
  accessTokenSecret : string;
  refreshTokenSecret : string;
  jwt_accessTokenExpiresIn : Z;
  jwt_refreshTokenExpiresIn : Z
}.

Record PasswordServiceConfig : Type := mkPasswordServiceConfig {
  saltRounds : Z
}.

(** The services wired together at start-up. *)
Record App : Type := mkApp {
  env : Env;
  config : AuthServiceConfig;
  tokenConfig : TokenServiceConfig;
  passwordConfig : PasswordServiceConfig
}.

(** ** TokenService *)

Definition generateAccessToken (app : App) (payload : JwtClaims) (now : Z) : string :=
  jwt_sign (env app) payload (accessTokenSecret (tokenConfig app))
    (jwt_accessTokenExpiresIn (tokenConfig app)) now.

Definition generateRefreshToken (app : App) (payload : JwtClaims) (now : Z) : string :=
  jwt_sign (env app) payload (refreshTokenSecret (tokenConfig app))
    (jwt_refreshTokenExpiresIn (tokenConfig app)) now.

Definition verifyToken (app : App) (token : string) (isRefresh : bool) (now : Z)
    : JwtError + JwtClaims :=
  let secret := if isRefresh then refreshTokenSecret (tokenConfig app)
                else accessTokenSecret (tokenConfig app) in
  jwt_verify (env app) token secret now.

(** ** PasswordService *)

Definition password_hash (app : App) (password : string) : outcome string :=
  if negb (str_truthy password) then Throw "Password must be a non-empty string"
  else if Z.of_nat (js_length password) <? 6
  then Throw "Password too weak: minimum 6 characters required"
  else Return (bcrypt_hash (env app) password (saltRounds (passwordConfig app))).

Definition password_verify (app : App) (plain hashed : string) : bool :=
  if negb (str_truthy plain) || negb (str_truthy hashed) then false
  else match bcrypt_compare (env app) plain hashed with
       | Some b => b
       | None => false
       end.

(** ** EmailService and TimezoneService *)

Definition emailService_send (app : App) (to subject html : string) : outcome unit :=
  if transporter_sendMail (env app) to subject html then Return tt
  else Throw ("Failed to send email to " +:+ to).

Definition toLocalISOString (app : App) (date : option Z) (tz : string) : option string :=
  match date with
  | None => None
  | Some d => Some (luxon_toISO (env app) d tz)
  end.

(** ** The store: a state-and-exception monad over [Db] *)

Definition Prisma (A : Type) : Type := Db → outcome A * Db.

Definition ret {A} (a : A) : Prisma A := fun db => (Return a, db).

Definition throw {A} (msg : string) : Prisma A := fun db => (Throw msg, db).

Definition bind {A B} (m : Prisma A) (k : A → Prisma B) : Prisma B :=
  fun db =>
    match m db with
    | (Return a, db') => k a db'
    | (Throw msg, db') => (Throw msg, db')
    end.

(** [await] of a computation that does not touch the store. *)
Definition lift {A} (o : outcome A) : Prisma A := fun db => (o, db).

Notation "'let!' x ':=' m 'in' k" := (bind m (fun x => k))
  (at level 10, x pattern, m at level 100, k at level 200).
Notation "m ';;' k" := (bind m (fun _ => k))
  (at level 100, k at level 200, right associativity).

(** [await Promise.all([...])] over writes: every write is issued, in the
    order of the array; the first rejection, if any, is what is thrown. *)
Fixpoint promise_all (ms : list (Prisma unit)) : Prisma unit :=
  match ms with
  | [] => ret tt
  | m :: rest =>
    fun db =>
      match m db with
      | (Return _, db') => promise_all rest db'
      | (Throw msg, db') => (Throw msg, snd (promise_all rest db'))
      end
  end.

(** [await prisma.$transaction([...])]: the writes in the order of the
    array; if one is rejected none of them is kept. *)
Definition transaction (ms : list (Prisma unit)) : Prisma unit :=
  fun db =>
    match promise_all ms db with
    | (Return _, db') => (Return tt, db')
    | (Throw msg, _) => (Throw msg, db)
    end.

Definition set_users (db : Db) (us : list User) : Db :=
  mkDb us (roles db) (permissions db) (tokens db) (auditLogs db).

Definition set_tokens (db : Db) (ts : list Token) : Db :=
  mkDb (users db) (roles db) (permissions db) ts (auditLogs db).

Definition set_auditLogs (db : Db) (ls : list AuditLog) : Db :=
  mkDb (users db) (roles db) (permissions db) (tokens db) ls.

(** [prisma.user.findUnique({ where, include: { role: true } })]: the row
    and the role its [roleId] points to. *)
Definition role_of (db : Db) (u : User) : option Role :=
  snd <$> list_find (fun r => role_id r = user_roleId u) (roles db).

Definition user_findUnique (P : User → Prop) `{∀ u, Decision (P u)}
    : Prisma (option (User * option Role)) :=
  fun db =>
    (Return ((fun u => (u, role_of db u)) <$> (snd <$> list_find P (users db))), db).

(** [prisma.user.update({ where: { id }, data })].  The callers pass the
    id of a row they have just read, or the [userId] of a token row, a
    foreign key to [User]. *)
Definition user_update (id : string) (data : User → User) : Prisma unit :=
  fun db =>
    (Return tt,
     set_users db ((fun u => if decide (user_id u = id) then data u else u) <$> users db)).

(** [prisma.token.findFirst({ where })]: the row and its primary key. *)
Definition token_findFirst (P : Token → Prop) `{∀ t, Decision (P t)}
    : Prisma (option (nat * Token)) :=
  fun db => (Return (list_find P (tokens db)), db).

Definition token_create (t : Token) : Prisma unit :=
  fun db => (Return tt, set_tokens db (tokens db ++ [t])).

(** [prisma.token.update({ where: { id }, data })]. *)
Definition token_update (id : nat) (data : Token → Token) : Prisma unit :=
  fun db => (Return tt, set_tokens db (alter data id (tokens db))).

(** [prisma.token.updateMany({ where, data })]. *)
Definition token_updateMany (P : Token → Prop) `{∀ t, Decision (P t)}
    (data : Token → Token) : Prisma unit :=
  fun db =>
    (Return tt,
     set_tokens db ((fun t => if decide (P t) then data t else t) <$> tokens db)).

(** [AuditService.log]: one row appended to the audit table. *)
Definition auditService_log (entry : AuditLog) : Prisma unit :=
  fun db => (Return tt, set_auditLogs db (auditLogs db ++ [entry])).

(** Field updates ([data: { ... }]). *)
Definition revoke (t : Token) : Token :=
  mkToken (tok_token t) (tok_type t) (tok_userId t) (tok_expiresAt t) true
    (tok_usedAt t) (tok_ipAddress t) (tok_userAgent t).

Definition consume (now : Z) (t : Token) : Token :=
  mkToken (tok_token t) (tok_type t) (tok_userId t) (tok_expiresAt t) true
    (Some now) (tok_ipAddress t) (tok_userAgent t).

Definition set_lastLoginAt (now : Z) (u : User) : User :=
  mkUser (user_id u) (user_name u) (user_email u) (user_password u) (user_status u)
    (user_roleId u) (user_avatar u) (user_deletedAt u) (Some now) (user_lastForgotAt u).

Definition set_lastForgotAt (now : Z) (u : User) : User :=
  mkUser (user_id u) (user_name u) (user_email u) (user_password u) (user_status u)
    (user_roleId u) (user_avatar u) (user_deletedAt u) (user_lastLoginAt u) (Some now).

Definition set_password (hashed : string) (u : User) : User :=
  mkUser (user_id u) (user_name u) (user_email u) hashed (user_status u)
    (user_roleId u) (user_avatar u) (user_deletedAt u) (user_lastLoginAt u)
    (user_lastForgotAt u).

(** [s || null] on an optional string. *)
Definition or_null (s : option string) : option string :=
  match s with
  | Some x => if str_truthy x then Some x else None
  | None => None
  end.

(** ** AuthService *)

Record LoginUser : Type := mkLoginUser {
  lu_id : string;
  lu_name : string;
  lu_email : string;
  lu_avatar : string;
  lu_role_id : string;
  lu_role_name : string
}.

Record LoginResult : Type := mkLoginResult {
  lr_accessToken : string;
  lr_refreshToken : string;
  lr_user : LoginUser
}.

(** The [where] clause [{ email, status: "ACTIVE", deletedAt: null }]. *)
Definition active_user_with_email (email : string) (u : User) : Prop :=
  user_email u = email ∧ user_status u = ACTIVE ∧ user_deletedAt u = None.

#[global] Instance active_user_with_email_dec email u :
  Decision (active_user_with_email email u).
Proof. unfold active_user_with_email. apply _. Defined.

(** The [where] clause [{ id, status: "ACTIVE", deletedAt: null }]. *)
Definition active_user_with_id (id : string) (u : User) : Prop :=
  user_id u = id ∧ user_status u = ACTIVE ∧ user_deletedAt u = None.

#[global] Instance active_user_with_id_dec id u : Decision (active_user_with_id id u).
Proof. unfold active_user_with_id. apply _. Defined.

Definition default_avatar : string := "/uploads/avatars/default-avatar.png".

(** [user.avatar || default]. *)
Definition avatar_or_default (avatar : option string) : string :=
  match avatar with
  | Some a => if str_truthy a then a else default_avatar
  | None => default_avatar
  end.

Definition login (app : App) (email password : string)
    (ipAddress userAgent : option string) (now : Z) : Prisma LoginResult :=
  let! user := user_findUnique (active_user_with_email email) in
  match user with
  | None => throw "Invalid email or password"
  | Some (user, role) =>
    if negb (password_verify app password (user_password user))
    then throw "Invalid email or password"
    else
      user_update (user_id user) (set_lastLoginAt now) ;;
      let avatarUrl := avatar_or_default (user_avatar user) in
      let payload := mkJwtClaims (JsString (user_id user)) (JsString (user_email user))
                       (JsString (user_roleId user)) in
      let accessToken := generateAccessToken app payload now in
      let refreshToken := generateRefreshToken app payload now in
      promise_all
        [ token_create (mkToken accessToken access_token (user_id user)
                          (now + accessTokenExpiresIn (config app)) false None None None);
          token_create (mkToken refreshToken refresh_token (user_id user)
                          (now + refreshTokenExpiresIn (config app)) false None None None) ] ;;
      auditService_log (mkAuditLog (Some (user_id user)) "LOGIN" "User"
                          (Some (user_id user)) "User logged in successfully"
                          ipAddress userAgent) ;;
      match role with
      | None => throw "Cannot read properties of null (reading 'id')"
      | Some role =>
        ret (mkLoginResult accessToken refreshToken
               (mkLoginUser (user_id user) (user_name user) (user_email user) avatarUrl
                  (role_id role) (role_name role)))
      end
  end.

(** The [where] clause of the ledger lookup in [validateAccessToken]. *)
Definition active_access_row (token : string) (now : Z) (t : Token) : Prop :=
  tok_token t = token ∧ tok_type t = access_token ∧ tok_isRevoked t = false
  ∧ now < tok_expiresAt t.

#[global] Instance active_access_row_dec token now t :
  Decision (active_access_row token now t).
Proof. unfold active_access_row. apply _. Defined.

Definition validateAccessToken (app : App) (token : string) (now : Z)
    : Prisma AuthenticatedUser :=
  match verifyToken app token false now with
  | inl _ => throw "Invalid or expired access token"
  | inr payload =>
    match claim_id payload with
    | JsString id =>
      let! tokenRecord := token_findFirst (active_access_row token now) in
      match tokenRecord with
      | None => throw "Invalid or revoked access token"
      | Some _ =>
        let! user := user_findUnique (active_user_with_id id) in
        match user with
        | Some (user, Some role) =>
          ret (mkAuthenticatedUser (user_id user) (user_email user) (user_roleId user)
                 (Some (role_name role)))
        | _ => throw "User not found or inactive"
        end
      end
    | _ => throw "Invalid token payload"
    end
  end.

(** How Prisma reads a JavaScript value given for a required string
    column: in a [where] clause [undefined] leaves the column
    unconstrained and a string is compared; any other value is rejected by
    query validation, and so is [undefined] in the [data] of a [create]. *)
Inductive StringArg : Type :=
  | Unset
  | Given (s : string)
  | Rejected.

Definition string_arg (v : JsValue) : StringArg :=
  match v with
  | JsUndefined => Unset
  | JsString s => Given s
  | _ => Rejected
  end.

Definition matches_arg (a : StringArg) (s : string) : Prop :=
  match a with
  | Given x => s = x
  | _ => True
  end.

#[global] Instance matches_arg_dec a s : Decision (matches_arg a s).
Proof. destruct a; simpl; apply _. Defined.

(** The [where] clause of the ledger lookup in [refreshAccessToken]. *)
Definition active_refresh_row (token : string) (userId : StringArg) (now : Z)
    (t : Token) : Prop :=
  tok_token t = token ∧ matches_arg userId (tok_userId t) ∧ tok_type t = refresh_token
  ∧ tok_isRevoked t = false ∧ now < tok_expiresAt t.

#[global] Instance active_refresh_row_dec token userId now t :
  Decision (active_refresh_row token userId now t).
Proof. unfold active_refresh_row. apply _. Defined.

(** [{ userId, type: "access_token", isRevoked: false }]. *)
Definition live_access_row_of (userId : StringArg) (t : Token) : Prop :=
  matches_arg userId (tok_userId t) ∧ tok_type t = access_token ∧ tok_isRevoked t = false.

#[global] Instance live_access_row_of_dec userId t : Decision (live_access_row_of userId t).
Proof. unfold live_access_row_of. apply _. Defined.

Definition refreshAccessToken (app : App) (refreshToken : string)
    (ipAddress userAgent : option string) (now : Z) : Prisma string :=
  match verifyToken app refreshToken true now with
  | inl _ => throw "Invalid or expired refresh token"
  | inr payload =>
    let userId := string_arg (claim_id payload) in
    match userId with
    | Rejected => throw (prisma_validation_message (env app))
    | _ =>
      let! refreshTokenRecord := token_findFirst (active_refresh_row refreshToken userId now) in
      match refreshTokenRecord with
      | None => throw "Refresh token not found or already revoked"
      | Some _ =>
        token_updateMany (live_access_row_of userId) revoke ;;
        let newAccessToken :=
          generateAccessToken app
            (mkJwtClaims (claim_id payload) (claim_email payload) (claim_roleId payload))
            now in
        match userId with
        | Given uid =>
          token_create (mkToken newAccessToken access_token uid
                          (now + accessTokenExpiresIn (config app)) false None
                          (or_null ipAddress) (or_null userAgent)) ;;
          ret newAccessToken
        | _ => throw (prisma_validation_message (env app))
        end
      end
    end
  end.

(** [{ token: refreshToken, type: "refresh_token", isRevoked: false }]. *)
Definition unrevoked_refresh_row (token : string) (t : Token) : Prop :=
  tok_token t = token ∧ tok_type t = refresh_token ∧ tok_isRevoked t = false.

#[global] Instance unrevoked_refresh_row_dec token t :
  Decision (unrevoked_refresh_row token t).
Proof. unfold unrevoked_refresh_row. apply _. Defined.

(** [{ userId, isRevoked: false }]. *)
Definition unrevoked_row_of (userId : string) (t : Token) : Prop :=
  tok_userId t = userId ∧ tok_isRevoked t = false.

#[global] Instance unrevoked_row_of_dec userId t : Decision (unrevoked_row_of userId t).
Proof. unfold unrevoked_row_of. apply _. Defined.

Definition logout (app : App) (refreshToken : string)
    (ipAddress userAgent : option string) : Prisma unit :=
  let! tokenRecord := token_findFirst (unrevoked_refresh_row refreshToken) in
  match tokenRecord with
  | None => throw "Invalid refresh token"
  | Some (_, tokenRecord) =>
    token_updateMany (unrevoked_row_of (tok_userId tokenRecord)) revoke ;;
    auditService_log (mkAuditLog (Some (tok_userId tokenRecord)) "LOGOUT" "User"
                        (Some (tok_userId tokenRecord)) "User logged out"
                        ipAddress userAgent)
  end.

(** The value [forgotPassword] resolves to:
    [{ active: boolean; activeDate?: string }]. *)
Record CooldownStatus : Type := mkCooldownStatus {
  active : bool;
  activeDate : option string
}.

#[global] Instance CooldownStatus_eq_dec : EqDecision CooldownStatus.
Proof. solve_decision. Defined.

(** The tail of [forgotPassword], after the cooldown check: issue the
    reset token and dispatch the link.  [now] is the [new Date()] read
    before the cooldown check, [dateNow] the [Date.now()] read here. *)
Definition issue_reset_token (app : App) (user : User) (email : string)
    (ipAddress userAgent : option string) (now dateNow : Z) (uuid : string)
    : Prisma CooldownStatus :=
  let resetToken := uuid in
  let expiresAt := dateNow + resetTokenExpiresIn (config app) in
  transaction
    [ token_create (mkToken resetToken reset_password (user_id user) expiresAt false
                      None ipAddress userAgent);
      user_update (user_id user) (set_lastForgotAt now) ] ;;
  auditService_log (mkAuditLog (Some (user_id user)) "FORGOT_PASSWORD" "Token"
                      (Some resetToken) "Password reset token generated"
                      ipAddress userAgent) ;;
  let resetLink := FRONTEND_URL (env app) +:+ "/reset-password?token=" +:+ resetToken in
  if bool_decide (NODE_ENV (env app) = "development") then
    ret (mkCooldownStatus false None)
  else
    let html := forgot_password_html (env app) resetLink in
    lift (emailService_send app email "Reset Password Request" html) ;;
    ret (mkCooldownStatus false None).

Definition forgotPassword (app : App) (email : string)
    (ipAddress userAgent : option string) (now dateNow : Z) (uuid : string)
    : Prisma CooldownStatus :=
  let! user := user_findUnique (active_user_with_email email) in
  match user with
  | None =>
    auditService_log (mkAuditLog None "FORGOT_PASSWORD_ATTEMPT" "User" None
                        ("Attempt for non-existent email: " +:+ email)
                        ipAddress userAgent) ;;
    ret (mkCooldownStatus false None)
  | Some (user, _) =>
    let cooldownEnd :=
      match user_lastForgotAt user with
      | Some lastForgotAt => Some (lastForgotAt + forgotPasswordCooldown (config app))
      | None => None
      end in
    match cooldownEnd with
    | Some cooldownEnd' =>
      if bool_decide (now < cooldownEnd') then
        let localDate := toLocalISOString app cooldownEnd "Asia/Jakarta" in
        ret (mkCooldownStatus true (Some (dayjs_format (env app) localDate)))
      else issue_reset_token app user email ipAddress userAgent now dateNow uuid
    | None => issue_reset_token app user email ipAddress userAgent now dateNow uuid
    end
  end.

(** The [where] clause of the ledger lookup in [resetPassword]. *)
Definition usable_reset_row (token : string) (now : Z) (t : Token) : Prop :=
  tok_token t = token ∧ tok_type t = reset_password ∧ tok_isRevoked t = false
  ∧ tok_usedAt t = None ∧ now < tok_expiresAt t.

#[global] Instance usable_reset_row_dec token now t : Decision (usable_reset_row token now t).
Proof. unfold usable_reset_row. apply _. Defined.

(** [{ userId, type: { in: ["refresh_token", "access_token"] } }]. *)
Definition session_row_of (userId : string) (t : Token) : Prop :=
  tok_userId t = userId ∧ (tok_type t = refresh_token ∨ tok_type t = access_token).

#[global] Instance session_row_of_dec userId t : Decision (session_row_of userId t).
Proof. unfold session_row_of. apply _. Defined.

Definition resetPassword (app : App) (token newPassword : string)
    (ipAddress userAgent : option string) (now : Z) : Prisma unit :=
  let! tokenRecord := token_findFirst (usable_reset_row token now) in
  match tokenRecord with
  | None => throw "Invalid or expired reset token"
  | Some (id, tokenRecord) =>
    let! hashedPassword := lift (password_hash app newPassword) in
    promise_all
      [ user_update (tok_userId tokenRecord) (set_password hashedPassword);
        token_update id (consume now);
        token_updateMany (session_row_of (tok_userId tokenRecord)) revoke ] ;;
    auditService_log (mkAuditLog (Some (tok_userId tokenRecord)) "RESET_PASSWORD" "User"
                        (Some (tok_userId tokenRecord)) "Password successfully reset"
                        ipAddress userAgent)
  end.

(** ** Request Authentication Gate: AuthMiddleware *)

(** The character, given by its bytes, is one [trim] strips. *)
Definition is_js_space (character : string) : bool :=
  existsb (String.eqb character) js_white_space.

(** The string without the characters at its front that [space] accepts;
    a character of [js_white_space] takes one, two or three bytes. *)
Fixpoint strip_leading (space : string → bool) (s : string) : string :=
  match s with
  | EmptyString => EmptyString
  | String a r1 =>
    if space (String a "") then strip_leading space r1
    else
      match r1 with
      | EmptyString => s
      | String b r2 =>
        if space (String a (String b "")) then strip_leading space r2
        else
          match r2 with
          | EmptyString => s
          | String c r3 =>
            if space (String a (String b (String c ""))) then strip_leading space r3
            else s
          end
      end
  end.

Definition trimStart (s : string) : string := strip_leading is_js_space s.

(** From the end the bytes of a character come in reverse order. *)
Definition trimEnd (s : string) : string :=
  String.rev (strip_leading (fun w => is_js_space (String.rev w)) (String.rev s)).

Definition trim (s : string) : string := trimEnd (trimStart s).

(** [s.substring(n)]. *)
Fixpoint substring_from (n : nat) (s : string) : string :=
  match n, s with
  | O, _ => s
  | S n', String _ rest => substring_from n' rest
  | S _, EmptyString => EmptyString
  end.

Definition extractToken (req : Request) : option string :=
  match req_cookie_access_token req with
  | Some t =>
    if str_truthy t then Some t
    else match req_header_authorization req with
         | Some authHeader =>
           if String.prefix "Bearer " authHeader
           then Some (trim (substring_from 7 authHeader))
           else None
         | None => None
         end
  | None =>
    match req_header_authorization req with
    | Some authHeader =>
      if String.prefix "Bearer " authHeader
      then Some (trim (substring_from 7 authHeader))
      else None
    | None => None
    end
  end.

Definition set_user (req : Request) (u : AuthenticatedUser) : Request :=
  mkRequest (req_cookie_access_token req) (req_header_authorization req)
    (req_body_email req) (req_ip req) (req_remoteAddress req)
    (req_x_forwarded_for req) (req_userAgent req) (Some u) (_permissionCache req).

(** The middleware returned by [authenticate()]: what it did with the
    request, and the request it leaves. *)
Definition authenticate (app : App) (req : Request) (now : Z) (db : Db)
    : Handled * Request :=
  match extractToken req with
  | Some token =>
    if str_truthy token then
      match fst (validateAccessToken app token now db) with
      | Return user => (Next, set_user req user)
      | Throw message => (Send (error_response 401 message), req)
      end
    else (Send (error_response 401 "Access token required"), req)
  | None => (Send (error_response 401 "Access token required"), req)
  end.

(** ** Controllers *)

(** [HttpHelperService.handleError].  Whatever the model throws is an
    [Error], so the message sent is the error's own. *)
Definition handleError (error : string) (defaultMessage : string) (statusCode : Z)
    : Response :=
  error_response statusCode error.

(** [a || b] on optional strings. *)
Definition or_else (a : option string) (b : string) : string :=
  match a with
  | Some x => if str_truthy x then x else b
  | None => b
  end.

(** [HttpHelperService.getClientIp]. *)
Definition getClientIp (req : Request) : string :=
  or_else (req_ip req) (or_else (req_remoteAddress req) (or_else (req_x_forwarded_for req) "")).

(** The [catch] branch of [AuthController.login]. *)
Definition login_catch (error : string) : Response :=
  handleError error "Authentication failed" 401.

Definition forgot_password_message : string :=
  "If your email is registered, you will receive a password reset link.".

(** The object spread [...cooldownStatus]. *)
Definition cooldownStatus_json (c : CooldownStatus) : Json :=
  ("active", JsBool (active c)) ::
  match activeDate c with
  | Some d => [("activeDate", JsString d)]
  | None => []
  end.

(** The auth service as the controller sees it. *)
Definition ForgotPasswordService : Type :=
  string → option string → option string → Prisma CooldownStatus.

(** [AuthController.forgotPassword], over the service it was built with. *)
Definition AuthController_forgotPassword (authService_forgotPassword : ForgotPasswordService)
    (req : Request) : Db → Response * Db :=
  fun db =>
    match req_body_email req with
    | JsString email =>
      if negb (str_truthy email) then (error_response 400 "Email is required", db)
      else
        let ipAddress := getClientIp req in
        let userAgent := or_else (req_userAgent req) "" in
        match authService_forgotPassword email (Some ipAddress) (Some userAgent) db with
        | (Return cooldownStatus, db') =>
          (mkResponse 200
             (cooldownStatus_json cooldownStatus
                ++ [("message", JsString forgot_password_message)])%list,
           db')
        | (Throw _, db') =>
          (mkResponse 200
             [("active", JsBool false); ("message", JsString forgot_password_message)],
           db')
        end
    | _ => (error_response 400 "Email is required", db)
    end.

(** ** Specification predicates *)

(** A Permission row exists for (roleId, resource, action). *)
Definition has_row (db : Db) (roleId resource action : string) : Prop :=
  ∃ p, p ∈ permissions db ∧ permission_where roleId resource action p.

(** The gate reached an allow/deny decision. *)
Definition decided (h : Handled) : Prop :=
  h = Next ∨ h = Send (error_response 403 "Insufficient permissions").

(** The ledger holds an access-token row for [token] that is not revoked
    and expires after [now]. *)
Definition ledger_active (db : Db) (token : string) (now : Z) : Prop :=
  ∃ t, t ∈ tokens db ∧ active_access_row token now t.

(** No ACTIVE, non-deleted user has this id. *)
Definition no_active_user (db : Db) (id : string) : Prop :=
  ∀ u, u ∈ users db → ¬ active_user_with_id id u.

(** The user row [findUnique] returns for an id: the first ACTIVE,
    non-deleted row with it. *)
Definition active_user_by_id (db : Db) (id : string) : option User :=
  snd <$> list_find (active_user_with_id id) (users db).

(** The user row [findUnique] returns for an email: the first ACTIVE,
    non-deleted row with it. *)
Definition active_user_by_email (db : Db) (email : string) : option User :=
  snd <$> list_find (active_user_with_email email) (users db).

(** No ACTIVE, non-deleted user has this email. *)
Definition unknown_email (db : Db) (email : string) : Prop :=
  ∀ u, u ∈ users db → ¬ active_user_with_email email u.

(** What [AuthController.login] answers when the service call throws. *)
Definition login_error_response (o : outcome LoginResult) : option Response :=
  match o with
  | Throw error => Some (login_catch error)
  | Return _ => None
  end.

(** The ledger holds a reset_password row for [token] that is not
    revoked, not used and expires after [now]. *)
Definition has_usable_reset_row (db : Db) (token : string) (now : Z) : Prop :=
  ∃ t, t ∈ tokens db ∧ usable_reset_row token now t.

(** Reset tokens are keys of the ledger: no two reset_password rows hold
    the same token string (they are UUIDs drawn at issuance). *)
Definition reset_tokens_unique (db : Db) : Prop :=
  ∀ i j s1 s2,
    tokens db !! i = Some s1 → tokens db !! j = Some s2 →
    tok_type s1 = reset_password → tok_type s2 = reset_password →
    tok_token s1 = tok_token s2 → i = j.

(** The ledger's [isActive(token, type)] in the words of the
    specification: a matching row with isRevoked=false, usedAt=null and
    expiresAt in the future. *)
Definition isActive (db : Db) (token : string) (type : TokenType) (now : Z) : Prop :=
  ∃ t, t ∈ tokens db ∧ tok_token t = token ∧ tok_type t = type
       ∧ tok_isRevoked t = false ∧ tok_usedAt t = None ∧ now < tok_expiresAt t.

(** The ledger holds a refresh-token row for [token] that is not revoked. *)
Definition has_unrevoked_refresh_row (db : Db) (token : string) : Prop :=
  ∃ t, t ∈ tokens db ∧ unrevoked_refresh_row token t.

(** The reset mail is out: the process runs in development mode (the
    link is only logged) or the transport delivered it. *)
Definition reset_mail_dispatched (app : App) (email uuid : string) : bool :=
  bool_decide (NODE_ENV (env app) = "development")
  || transporter_sendMail (env app) email "Reset Password Request"
       (forgot_password_html (env app)
          (FRONTEND_URL (env app) +:+ "/reset-password?token=" +:+ uuid)).

(** The user is past the forgot-password cooldown at instant [now]: no
    earlier request, or the window [lastForgotAt + cooldown] is over. *)
Definition cooldown_over (app : App) (u : User) (now : Z) : Prop :=
  match user_lastForgotAt u with
  | Some lastForgotAt => lastForgotAt + forgotPasswordCooldown (config app) ≤ now
  | None => True
  end.

(** The auth service the controller is wired to, with the two readings of
    the clock and one draw of the UUID generator. *)
Definition authService_forgotPassword (app : App) (now dateNow : Z) (uuid : string)
    : ForgotPasswordService :=
  fun email ipAddress userAgent =>
    forgotPassword app email ipAddress userAgent now dateNow uuid.

(** The three messages C4 names. *)
Definition three_errors : list string :=
  [ "Invalid or expired access token";
    "Invalid or revoked access token";
    "User not found or inactive" ].

(** ** A small world for the examples *)

Module Demo.

Definition alice : User :=
  mkUser "u1" "Alice" "alice@example.com" "hash:correct-horse" ACTIVE "r1"
    None None None None.

Definition admin : Role := mkRole "r1" "Admin".

Definition alice_claims : JwtClaims :=
  mkJwtClaims (JsString "u1") (JsString "alice@example.com") (JsString "r1").

(** A toy codec: a token is its secret, a slash and the subject. *)
Definition sign (claims : JwtClaims) (secret : string) (expiresIn now : Z) : string :=
  secret +:+ "/" +:+
  match claim_id claims with
  | JsString s => s
  | _ => "?"
  end.

Definition verify (token secret : string) (now : Z) : JwtError + JwtClaims :=
  if bool_decide (token = secret +:+ "/u1") then inr alice_claims
  else if bool_decide (token = secret +:+ "/7")
  then inr (mkJwtClaims (JsNumber 7) JsUndefined JsUndefined)
  else if bool_decide (token = secret +:+ "/old") then inl TokenExpiredError
  else inl JsonWebTokenError.

Definition world (delivers : bool) : Env :=
  mkEnv sign verify
    (fun password _ => "hash:" +:+ password)
    (fun plain hashed => Some (bool_decide (hashed = "hash:" +:+ plain)))
    (fun _ _ _ => delivers)
    (fun _ _ => "2025-12-17T10:30:00.000+07:00")
    (fun s => default "Invalid Date" s)
    (fun link => "<a href=" +:+ link +:+ ">reset</a>")
    "Invalid invocation"
    "production"
    "https://enerkomp.example".

Definition app (delivers : bool) : App :=
  mkApp (world delivers)
    (mkAuthServiceConfig 900000 86400000 120000 120000)
    (mkTokenServiceConfig "A" "R" 900000 86400000)
    (mkPasswordServiceConfig 12).

Definition access_row (token : string) (expiresAt : Z) (isRevoked : bool) : Token :=
  mkToken token access_token "u1" expiresAt isRevoked None None None.

Definition refresh_row (expiresAt : Z) : Token :=
  mkToken "R/u1" refresh_token "u1" expiresAt false None None None.

Definition reset_row (expiresAt : Z) : Token :=
  mkToken "3f2c" reset_password "u1" expiresAt false None None None.

Definition store (ps : list Permission) (ts : list Token) : Db :=
  mkDb [alice] [admin] ps ts [].

(** A role that can only manage clients. *)
Definition manage_only : Db := store [mkPermission "r1" "client" "manage"] [].

(** Alice's access token, revoked in the ledger. *)
Definition revoked_ledger : Db := store [] [access_row "A/u1" 1000 true].

(** Alice's access token, live in the ledger. *)
Definition live_ledger : Db := store [] [access_row "A/u1" 1000 false].

(** A session of Alice: a refresh token and two access tokens, one of them
    already revoked; and an access token of somebody else. *)
Definition session : Db :=
  store []
    [ refresh_row 86400000;
      access_row "A/u1" 900000 false;
      access_row "A/u1-older" 800000 true;
      mkToken "A/u2" access_token "u2" 900000 false None None None ].

(** A session of Alice whose tokens have expired at instant 1000 without
    being revoked. *)
Definition stale_session : Db :=
  store [] [ refresh_row 1000; access_row "A/u1" 900 false ].

(** Alice asked for a password reset while logged in. *)
Definition reset_pending : Db :=
  store [] [ refresh_row 86400000; access_row "A/u1" 900000 false; reset_row 120000 ].

(** The store after the reset token was consumed at instant 1000. *)
Definition reset_done : Db :=
  snd (resetPassword (app true) "3f2c" "s3cret-pw" None None 1000 reset_pending).

(** The store after Alice refreshed her access token at instant 1000. *)
Definition rotated : Db :=
  snd (refreshAccessToken (app true) "R/u1" None None 1000 session).

Definition alice_identity : AuthenticatedUser :=
  mkAuthenticatedUser "u1" "alice@example.com" "r1" (Some "Admin").

Definition request (cookie : option string) (email : JsValue)
    (user : option AuthenticatedUser) : Request :=
  mkRequest cookie None email (Some "10.0.0.1") None None (Some "curl") user None.

(** Two checks of ("client", "delete") within one request of Alice; the
    permission is withdrawn between them. *)
Definition first_check : GateResult :=
  require (roleService manage_only) "client" "delete"
    (request None JsUndefined (Some alice_identity)).

Definition second_check : GateResult :=
  require (roleService (store [] [])) "client" "delete" (gate_req first_check).

End Demo.

(** ** RequireRoleMiddleware *)

(** The argument of [require]: one role name or an array of them. *)
Inductive RolesArg : Type :=
  | OneRole (role : string)
  | ManyRoles (roles : list string).

(** [Array.isArray(roles) ? roles : [roles]]. *)
Definition allowedRoles (roles : RolesArg) : list string :=
  match roles with
  | OneRole role => [role]
  | ManyRoles roles => roles
  end.

(** The middleware returned by [RequireRoleMiddleware.require(roles)]. *)
Definition requireRole (roles : RolesArg) (req : Request) : Handled :=
  match req_user req with
  | None => Send (error_response 401 "Authentication required")
  | Some u =>
    match au_role u with
    | Some userRole =>
      if str_truthy userRole then
        if bool_decide (userRole ∈ allowedRoles roles) then Next
        else Send (error_response 403 "Insufficient permissions")
      else Send (error_response 403 "Insufficient permissions")
    | None => Send (error_response 403 "Insufficient permissions")
    end
  end.

(** ** Routers *)

(** The two gates in front of a protected route of [makeUserRouter] or
    [makeCategoryRouter]: [router.use(authMiddleware.authenticate())],
    then [permissionMiddleware.require(resource, action)].  Express runs
    them in order; a middleware that sends a response ends the chain. *)
Definition permission_route (app : App) (resource action : string)
    (req : Request) (now : Z) (db : Db) : Handled * Request :=
  match authenticate app req now db with
  | (Next, req') =>
    let checked := require (roleService db) resource action req' in
    (gate_handled checked, gate_req checked)
  | (Send r, req') => (Send r, req')
  end.

(** The middlewares in front of every controller of [makeRoleRouter]:
    [authenticate()], then [roleMiddleware.require('Super Admin')]. *)
Definition role_route (app : App) (req : Request) (now : Z) (db : Db)
    : Handled * Request :=
  match authenticate app req now db with
  | (Next, req') => (requireRole (OneRole "Super Admin") req', req')
  | (Send r, req') => (Send r, req')
  end.

(** Several permission gates in front of one controller: each runs on the
    request the previous one left, and the first that sends a response
    ends the chain. *)
Fixpoint permission_chain (rs : Resolver) (checks : list (string * string))
    (req : Request) : GateResult :=
  match checks with
  | [] => mkGateResult Next req []
  | (resource, action) :: rest =>
    let checked := require rs resource action req in
    match gate_handled checked with
    | Next =>
      let after := permission_chain rs rest (gate_req checked) in
      mkGateResult (gate_handled after) (gate_req after)
        (gate_calls checked ++ gate_calls after)
    | Send _ => checked
    end
  end.

(** The string has no colon. *)
Fixpoint colon_free (s : string) : bool :=
  match s with
  | EmptyString => true
  | String c rest => negb (bool_decide (c = ":"%char)) && colon_free rest
  end.

(** The table grants (resource, action) to the role: a row for the action
    or for "manage". *)
Definition granted (db : Db) (roleId resource action : string) : Prop :=
  has_row db roleId resource action ∨ has_row db roleId resource "manage".

(** ** The token clean-up job *)

(** A ledger row with the column the job reads and no service does. *)
Record StoredToken : Type := mkStoredToken {
  st_token : Token;
  st_updatedAt : Z
}.

(** The first [where]: an access or refresh token with [expiresAt < now]. *)
Definition expired_session_token (now : Z) (r : StoredToken) : Prop :=
  (tok_type (st_token r) = access_token ∧ tok_expiresAt (st_token r) < now)
  ∨ (tok_type (st_token r) = refresh_token ∧ tok_expiresAt (st_token r) < now).

#[global] Instance expired_session_token_dec now r : Decision (expired_session_token now r).
Proof. unfold expired_session_token. apply _. Defined.

(** The second [where]: [updatedAt < thirtyDaysAgo] and [isRevoked]. *)
Definition stale_revoked_token (thirtyDaysAgo : Z) (r : StoredToken) : Prop :=
  st_updatedAt r < thirtyDaysAgo ∧ tok_isRevoked (st_token r) = true.

#[global] Instance stale_revoked_token_dec thirtyDaysAgo r :
  Decision (stale_revoked_token thirtyDaysAgo r).
Proof. unfold stale_revoked_token. apply _. Defined.

(** [prisma.token.deleteMany({ where })]: the rows left and the count of
    those deleted. *)
Definition token_deleteMany (P : StoredToken → Prop) `{∀ r, Decision (P r)}
    (rows : list StoredToken) : list StoredToken * nat :=
  (filter (fun r => ¬ P r) rows, length (filter P rows)).

Record CleanupResult : Type := mkCleanupResult {
  cleanup_rows : list StoredToken;
  cleanup_expired : nat;
  cleanup_unused : nat
}.

(** [cleanupExpiredTokens], run at instant [now]: the table it leaves and
    the two counts it logs. *)
Definition cleanupExpiredTokens (now : Z) (rows : list StoredToken) : CleanupResult :=
  let thirtyDaysAgo := now - 30 * 24 * 60 * 60 * 1000 in
  let '(rows1, expiredCount) := token_deleteMany (expired_session_token now) rows in
  let '(rows2, unusedCount) := token_deleteMany (stale_revoked_token thirtyDaysAgo) rows1 in
  mkCleanupResult rows2 expiredCount unusedCount.

(** The store whose ledger is the given table. *)
Definition with_ledger (db : Db) (rows : list StoredToken) : Db :=
  set_tokens db (st_token <$> rows).

(** ** Configuration and start-up *)

Record JwtConfigOptions : Type := mkJwtConfigOptions {
  jc_accessTokenSecret : string;
  jc_refreshTokenSecret : string;
  jc_accessTokenExpiresIn : Z;
  jc_refreshTokenExpiresIn : Z;
  jc_resetTokenExpiresIn : Z;
  jc_forgotPasswordCooldown : Z
}.

(** [process.env]: a variable is unset or holds a string. *)
Definition ProcessEnv : Type := string → option string.

(** [new JwtConfig()].  [parseTime] is passed in: it parses decimal
    durations with floating-point arithmetic. *)
Definition JwtConfig (parseTime : option string → Z → Z) (process_env : ProcessEnv)
    : JwtConfigOptions :=
  mkJwtConfigOptions
    (default "enerkomp_access_secret" (process_env "JWT_SECRET"))
    (default "enerkomp_refresh_secret" (process_env "JWT_REFRESH_SECRET"))
    (parseTime (process_env "ACCESS_TOKEN_EXPIRES_IN") (15 * 60 * 1000))
    (parseTime (process_env "REFRESH_TOKEN_EXPIRES_IN") (24 * 60 * 60 * 1000))
    (parseTime (process_env "FORGOT_PASSWORD_TOKEN_EXPIRES_IN") (2 * 60 * 1000))
    (parseTime (process_env "FORGOT_PASSWORD_TOKEN_EXPIRES_IN") (2 * 60 * 1000)).

(** [new TokenService(config)]. *)
Definition new_TokenService (config : TokenServiceConfig) : outcome TokenServiceConfig :=
  if negb (str_truthy (accessTokenSecret config))
     || negb (str_truthy (refreshTokenSecret config))
  then Throw "JWT secrets must be provided"
  else Return config.

(** The configuration [new AuthService(...)] keeps: the values of
    [jwtConfig], whatever [config] it is given. *)
Definition new_AuthService_config (jwtConfig : JwtConfigOptions)
    (config : option AuthServiceConfig) : AuthServiceConfig :=
  mkAuthServiceConfig (jc_accessTokenExpiresIn jwtConfig)
    (jc_refreshTokenExpiresIn jwtConfig) (jc_forgotPasswordCooldown jwtConfig)
    (jc_resetTokenExpiresIn jwtConfig).

(** The services as the server wires them at start-up:
    [new PasswordService()], [new TokenService({ ...jwtConfig })],
    [new AuthService(...)]. *)
Definition server_app (libraries : Env) (parseTime : option string → Z → Z)
    (process_env : ProcessEnv) : outcome App :=
  let jwtConfig := JwtConfig parseTime process_env in
  match new_TokenService
          (mkTokenServiceConfig (jc_accessTokenSecret jwtConfig)
             (jc_refreshTokenSecret jwtConfig) (jc_accessTokenExpiresIn jwtConfig)
             (jc_refreshTokenExpiresIn jwtConfig)) with
  | Throw msg => Throw msg
  | Return tokenConfig =>
    Return (mkApp libraries (new_AuthService_config jwtConfig None) tokenConfig
              (mkPasswordServiceConfig 12))
  end.

(** ** More specification predicates *)

(** Every access-token row the ledger holds for this token string belongs
    to the user. *)
Definition access_token_of (db : Db) (token userId : string) : Prop :=
  ∀ t, t ∈ tokens db → tok_token t = token → tok_type t = access_token →
       tok_userId t = userId.

(** Every refresh-token row the ledger holds for this token string belongs
    to the user. *)
Definition refresh_token_of (db : Db) (token userId : string) : Prop :=
  ∀ t, t ∈ tokens db → tok_token t = token → tok_type t = refresh_token →
       tok_userId t = userId.

(** User ids are a key of the user table. *)
Definition user_ids_unique (db : Db) : Prop := NoDup (user_id <$> users db).

(** The codec reads back, at instant [later], the claims of the access
    token it signed at instant [now]. *)
Definition access_round_trip (app : App) (claims : JwtClaims) (now later : Z) : Prop :=
  verifyToken app (generateAccessToken app claims now) false later = inr claims.

(** No row of the ledger holds this token string. *)
Definition fresh_token (db : Db) (token : string) : Prop :=
  ∀ t, t ∈ tokens db → tok_token t ≠ token.

(** The characters one after the other. *)
Definition characters (cs : list string) : string := foldr String.app "" cs.

(** The account with this email is inside its forgot-password cooldown. *)
Definition in_cooldown (app : App) (db : Db) (email : string) (now : Z) : Prop :=
  ∃ u lastForgotAt,
    active_user_by_email db email = Some u
    ∧ user_lastForgotAt u = Some lastForgotAt
    ∧ now < lastForgotAt + forgotPasswordCooldown (config app).

(** The permission table answers what it answered before: the cache of
    the request agrees with the table on every colon-free resource. *)
Definition cache_agrees (db : Db) (roleId : string) (req : Request) : Prop :=
  ∀ resource action (b : bool),
    colon_free resource = true →
    cache_of req !! cacheKey resource action roleId = Some b →
    (b = true ↔ granted db roleId resource action).

(** ** Calls of [resetPassword] that overlap *)

(** [resetPassword] up to its first [await]: the ledger lookup and the
    check of its answer. *)
Definition resetPassword_lookup (token : string) (now : Z) : Prisma (nat * Token) :=
  let! tokenRecord := token_findFirst (usable_reset_row token now) in
  match tokenRecord with
  | None => throw "Invalid or expired reset token"
  | Some found => ret found
  end.

(** [resetPassword] from there on, with the row the lookup answered: the
    hash, the three writes and the audit entry. *)
Definition resetPassword_resume (app : App) (found : nat * Token) (newPassword : string)
    (ipAddress userAgent : option string) (now : Z) : Prisma unit :=
  let '(id, tokenRecord) := found in
  let! hashedPassword := lift (password_hash app newPassword) in
  promise_all
    [ user_update (tok_userId tokenRecord) (set_password hashedPassword);
      token_update id (consume now);
      token_updateMany (session_row_of (tok_userId tokenRecord)) revoke ] ;;
  auditService_log (mkAuditLog (Some (tok_userId tokenRecord)) "RESET_PASSWORD" "User"
                      (Some (tok_userId tokenRecord)) "Password successfully reset"
                      ipAddress userAgent).

(** Two calls in flight at once.  Node runs a call until it awaits and
    resumes it when the awaited promise has settled: the lookup of the
    second call is answered while the first awaits the hash of its
    password; then the first call resumes, then the second.  The result is
    the outcome of each call and the store they leave. *)
Definition resetPassword_overlapping (app : App) (token password1 password2 : string)
    (ipAddress userAgent : option string) (now1 now2 : Z) (db : Db)
    : outcome unit * outcome unit * Db :=
  let '(found1, db1) := resetPassword_lookup token now1 db in
  let '(found2, db2) := resetPassword_lookup token now2 db1 in
  let '(outcome1, db3) :=
    match found1 with
    | Return found => resetPassword_resume app found password1 ipAddress userAgent now1 db2
    | Throw msg => (Throw msg, db2)
    end in
  let '(outcome2, db4) :=
    match found2 with
    | Return found => resetPassword_resume app found password2 ipAddress userAgent now2 db3
    | Throw msg => (Throw msg, db3)
    end in
  (outcome1, outcome2, db4).

(** ** More of the small world *)

Module Scenario.

(** The store after Alice logged out of her session. *)
Definition logged_out : Db := snd (logout (Demo.app true) "R/u1" None None Demo.session).

(** Two reset requests of Alice, the second one cooldown after the first;
    the first read the clock again 40 ms after its cooldown check. *)
Definition first_request : Db :=
  snd (forgotPassword (Demo.app true) "alice@example.com" None None 1000 1040 "3f2c"
         Demo.session).

Definition second_request : Db :=
  snd (forgotPassword (Demo.app true) "alice@example.com" None None 121000 121030 "77aa"
         first_request).

(** The application configured with ACCESS_TOKEN_EXPIRES_IN=0. *)
Definition zero_lifetime : App :=
  mkApp (Demo.world true)
    (mkAuthServiceConfig 0 86400000 120000 120000)
    (mkTokenServiceConfig "A" "R" 0 86400000)
    (mkPasswordServiceConfig 12).

(** A process environment with a refresh secret that is set but empty. *)
Definition empty_refresh_secret : ProcessEnv :=
  fun name => if bool_decide (name = "JWT_REFRESH_SECRET") then Some "" else None.

(** A duration parser that ignores the variable. *)
Definition fallback_only (value : option string) (fallback : Z) : Z := fallback.

(** A resolver whose database is down. *)
Definition unavailable : Resolver := fun _ _ _ => Throw "Can't reach database server".

(** A Super Admin, her token and her store. *)
Definition root : User :=
  mkUser "u0" "Root" "root@example.com" "hash:toor-toor" ACTIVE "r0" None None None None.

Definition super_admin : Role := mkRole "r0" "Super Admin".

Definition admin_store : Db :=
  mkDb [root; Demo.alice] [super_admin; Demo.admin]
    [mkPermission "r1" "user" "read"]
    [Demo.access_row "A/u1" 900000 false] [].

(** The ledger of Alice's session with the instants of the last update:
    a live refresh token, an expired access token, a long-revoked one, and
    an expired reset token that was never revoked. *)
Definition stored : list StoredToken :=
  [ mkStoredToken (Demo.refresh_row 86400000) 0;
    mkStoredToken (Demo.access_row "A/u1" 900000 false) 0;
    mkStoredToken (Demo.access_row "A/u1-older" 9000000000 true) 0;
    mkStoredToken (Demo.reset_row 120000) 0 ].

End Scenario.

(** * Properties *)

(** ** Permission Resolver and Permission Gate *)

Lemma hasPermission_true_iff db roleId resource action :
  hasPermission db roleId resource action = true ↔ has_row db roleId resource action.
Proof.
  unfold hasPermission, has_row. split.
  - destruct (list_find _ _) as [[i p]|] eqn:Hfind; [|discriminate].
    intros _. apply list_find_Some in Hfind as (Hi & HP & _).
    exists p. split; [by eapply list_elem_of_lookup_2|done].
  - intros (p & Hin & HP).
    destruct (list_find_elem_of _ _ _ Hin HP) as [x ->]. done.
Qed.

Lemma hasPermission_false_iff db roleId resource action :
  hasPermission db roleId resource action = false ↔ ¬ has_row db roleId resource action.
Proof.
  rewrite <- hasPermission_true_iff.
  destruct (hasPermission _ _ _ _); split; congruence.
Qed.

(** The truth table of [hasPermission] for ("product", "read"). *)
Example hasPermission_truth_table :
  hasPermission (Demo.store [] []) "r1" "product" "read" = false
  ∧ hasPermission (Demo.store [mkPermission "r1" "product" "read"] []) "r1" "product" "read"
    = true
  ∧ hasPermission (Demo.store [mkPermission "r1" "product" "manage"] []) "r1" "product" "read"
    = false
  ∧ hasPermission (Demo.store [mkPermission "r1" "product" "manage";
                               mkPermission "r1" "product" "read"] [])
      "r1" "product" "read" = true.
Proof. repeat split. Qed.

(** C1, as stated, fails: a role holding only ("client", "manage") is
    denied "delete" by [hasPermission], although a "manage" row exists. *)
Lemma hasPermission_ignores_manage :
  ¬ (hasPermission Demo.manage_only "r1" "client" "delete" = true
     ↔ has_row Demo.manage_only "r1" "client" "delete"
       ∨ has_row Demo.manage_only "r1" "client" "manage").
Proof.
  intros [_ H]. assert (hasPermission Demo.manage_only "r1" "client" "delete" = true) as E.
  { apply H. right. exists (mkPermission "r1" "client" "manage").
    split; [apply list_elem_of_here|done]. }
  vm_compute in E. discriminate.
Qed.

(** C1, amended: [hasPermission] is true exactly when a row exists for the
    very (roleId, resource, action) asked for; the "manage" wildcard is
    applied by the Permission Gate, which on a cache miss lets an
    authenticated request through exactly when a row exists for the action
    or for "manage". *)
Theorem hasPermission_exact_gate_applies_manage
    (db : Db) (roleId resource action : string) :
  (hasPermission db roleId resource action = true
   ↔ has_row db roleId resource action)
  ∧ (∀ req u,
       req_user req = Some u → au_roleId u = roleId →
       cache_of req !! cacheKey resource action roleId = None →
       (gate_handled (require (roleService db) resource action req) = Next
        ↔ has_row db roleId resource action ∨ has_row db roleId resource "manage")).
Proof.
  split; [apply hasPermission_true_iff|].
  intros req u Hu <- Hmiss. unfold require, roleService.
  rewrite Hu. cbv zeta. rewrite Hmiss.
  destruct (hasPermission db (au_roleId u) resource "manage") eqn:Hm; simpl.
  - apply hasPermission_true_iff in Hm. naive_solver.
  - apply hasPermission_false_iff in Hm.
    destruct (hasPermission db (au_roleId u) resource action) eqn:Ha; simpl.
    + apply hasPermission_true_iff in Ha. naive_solver.
    + apply hasPermission_false_iff in Ha. split; [done|by intros [?|?]].
Qed.

(** The gate lets the manage-only role delete clients. *)
Lemma hasPermission_exact_gate_applies_manage_witness :
  gate_handled
    (require (roleService Demo.manage_only) "client" "delete"
       (Demo.request None JsUndefined (Some Demo.alice_identity))) = Next.
Proof.
  destruct (hasPermission_exact_gate_applies_manage Demo.manage_only "r1" "client" "delete")
    as [_ H].
  apply (H (Demo.request None JsUndefined (Some Demo.alice_identity)) Demo.alice_identity);
    [reflexivity|reflexivity|reflexivity|].
  right. exists (mkPermission "r1" "client" "manage").
  split; [apply list_elem_of_here|done].
Defined.

(** *** The request-scoped cache *)

Lemma append_length (s t : string) :
  String.length (s +:+ t) = (String.length s + String.length t)%nat.
Proof. induction s as [|c s IH]; simpl; [done|by rewrite IH]. Qed.

Lemma append_inv_tail (s1 s2 t : string) : s1 +:+ t = s2 +:+ t → s1 = s2.
Proof.
  revert s2. induction s1 as [|c s1 IH]; intros [|d s2] H; simpl in H.
  - done.
  - apply (f_equal String.length) in H. simpl in H. rewrite !append_length in H.
    simpl in H. lia.
  - apply (f_equal String.length) in H. simpl in H. rewrite !append_length in H.
    simpl in H. lia.
  - injection H as -> H. f_equal. by apply IH.
Qed.

(** With the resource and the role fixed, the cache key determines the
    action. *)
Lemma cacheKey_action_inj resource roleId action action' :
  cacheKey resource action roleId = cacheKey resource action' roleId → action = action'.
Proof.
  unfold cacheKey. intros H.
  apply (inj (String.app resource)) in H.
  apply (inj (String.app ":")) in H.
  by apply append_inv_tail in H.
Qed.

Lemma cache_of_set_cache req c : cache_of (set_cache req c) = c.
Proof. reflexivity. Qed.

Lemma require_decided_cached rs resource action req u :
  req_user req = Some u →
  decided (gate_handled (require rs resource action req)) →
  ∃ b : bool, cache_of (gate_req (require rs resource action req))
         !! cacheKey resource action (au_roleId u) = Some b
       ∧ gate_handled (require rs resource action req)
         = (if b then Next else Send (error_response 403 "Insufficient permissions")).
Proof.
  intros Hu Hdec. unfold require in *. rewrite Hu in *. cbv zeta in *.
  destruct (cache_of req !! cacheKey resource action (au_roleId u))
    as [[|]|] eqn:Hc; simpl in *.
  - exists true. done.
  - exists false. done.
  - destruct (rs (au_roleId u) resource "manage") as [[|]|msg] eqn:Hm; simpl in *.
    + exists true. by rewrite cache_of_set_cache, lookup_insert_eq.
    + destruct (rs (au_roleId u) resource action) as [b|msg] eqn:Ha; simpl in *.
      * exists b. rewrite cache_of_set_cache, lookup_insert_eq. by destruct b.
      * destruct Hdec as [?|?]; discriminate.
    + destruct Hdec as [?|?]; discriminate.
Qed.

Lemma require_cache_other rs resource action req u key :
  req_user req = Some u →
  key ≠ cacheKey resource action (au_roleId u) →
  cache_of (gate_req (require rs resource action req)) !! key = cache_of req !! key.
Proof.
  intros Hu Hne. unfold require. rewrite Hu. cbv zeta.
  destruct (cache_of req !! cacheKey resource action (au_roleId u))
    as [[|]|]; simpl; try done.
  destruct (rs (au_roleId u) resource "manage") as [[|]|msg]; simpl; try done.
  - by rewrite cache_of_set_cache, lookup_insert_ne.
  - destruct (rs (au_roleId u) resource action) as [b|msg]; simpl; try done.
    by rewrite cache_of_set_cache, lookup_insert_ne.
Qed.

Lemma require_keeps_user rs resource action req :
  req_user (gate_req (require rs resource action req)) = req_user req.
Proof.
  unfold require. destruct (req_user req) as [u|] eqn:Hu; [|done]. cbv zeta.
  destruct (cache_of req !! _) as [[|]|]; simpl; try done.
  destruct (rs _ _ _) as [[|]|]; simpl; try done.
  destruct (rs _ _ _) as [|]; simpl; done.
Qed.

Lemma require_hit rs resource action req u (b : bool) :
  req_user req = Some u →
  cache_of req !! cacheKey resource action (au_roleId u) = Some b →
  gate_calls (require rs resource action req) = []
  ∧ gate_handled (require rs resource action req)
    = (if b then Next else Send (error_response 403 "Insufficient permissions"))
  ∧ cache_of (gate_req (require rs resource action req)) = cache_of req.
Proof.
  intros Hu Hc. unfold require. rewrite Hu. cbv zeta. rewrite Hc.
  destruct b; done.
Qed.

Lemma require_miss rs resource action req u :
  req_user req = Some u →
  cache_of req !! cacheKey resource action (au_roleId u) = None →
  ∃ rest, gate_calls (require rs resource action req)
          = (au_roleId u, resource, "manage") :: rest.
Proof.
  intros Hu Hc. unfold require. rewrite Hu. cbv zeta. rewrite Hc.
  destruct (rs (au_roleId u) resource "manage") as [[|]|]; simpl; eauto.
  destruct (rs (au_roleId u) resource action) as [|]; simpl; eauto.
Qed.

(** On a miss the gate asks the resolver, "manage" first and the action
    only if "manage" is denied, and decides as the resolver answers. *)
Lemma require_miss_asks rs resource action req u :
  req_user req = Some u →
  cache_of req !! cacheKey resource action (au_roleId u) = None →
  match rs (au_roleId u) resource "manage" with
  | Return true =>
    gate_calls (require rs resource action req) = [(au_roleId u, resource, "manage")]
    ∧ gate_handled (require rs resource action req) = Next
  | Return false =>
    gate_calls (require rs resource action req)
    = [(au_roleId u, resource, "manage"); (au_roleId u, resource, action)]
    ∧ gate_handled (require rs resource action req)
      = match rs (au_roleId u) resource action with
        | Return true => Next
        | Return false => Send (error_response 403 "Insufficient permissions")
        | Throw msg => Send (error_response 500 msg)
        end
  | Throw msg =>
    gate_calls (require rs resource action req) = [(au_roleId u, resource, "manage")]
    ∧ gate_handled (require rs resource action req) = Send (error_response 500 msg)
  end.
Proof.
  intros Hu Hc. unfold require. rewrite Hu. cbv zeta. rewrite Hc.
  destruct (rs (au_roleId u) resource "manage") as [[|]|]; simpl; [done| |done].
  destruct (rs (au_roleId u) resource action) as [[|]|]; simpl; done.
Qed.

(** C9: within one request, once a check for (resource, action) under the
    request's role has reached its allow/deny decision, a second check for
    the same pair calls the resolver not at all and decides the same,
    whatever the resolver would answer by then; a check for another action
    on that resource, not yet cached, asks the resolver again and decides
    as the resolver answers then: "manage" first, which allows, and the
    action itself when "manage" is denied; a rejected call gives a 500. *)
Theorem permission_cache_hit_then_miss
    (rs1 rs2 rs3 : Resolver) (resource action action' : string)
    (req : Request) (u : AuthenticatedUser) :
  req_user req = Some u →
  let first := require rs1 resource action req in
  decided (gate_handled first) →
  let second := require rs2 resource action (gate_req first) in
  gate_calls second = []
  ∧ gate_handled second = gate_handled first
  ∧ (action' ≠ action →
     cache_of req !! cacheKey resource action' (au_roleId u) = None →
     let third := require rs3 resource action' (gate_req second) in
     match rs3 (au_roleId u) resource "manage" with
     | Return true =>
       gate_calls third = [(au_roleId u, resource, "manage")]
       ∧ gate_handled third = Next
     | Return false =>
       gate_calls third
       = [(au_roleId u, resource, "manage"); (au_roleId u, resource, action')]
       ∧ gate_handled third
         = match rs3 (au_roleId u) resource action' with
           | Return true => Next
           | Return false => Send (error_response 403 "Insufficient permissions")
           | Throw msg => Send (error_response 500 msg)
           end
     | Throw msg =>
       gate_calls third = [(au_roleId u, resource, "manage")]
       ∧ gate_handled third = Send (error_response 500 msg)
     end).
Proof.
  intros Hu first Hdec second. subst first second.
  destruct (require_decided_cached rs1 resource action req u Hu Hdec) as (b & Hb & Hfirst).
  pose proof (require_keeps_user rs1 resource action req) as Hu1. rewrite Hu in Hu1.
  destruct (require_hit rs2 resource action _ u b Hu1 Hb) as (Hcalls & Hsecond & Hcache).
  split; [done|]. split; [by rewrite Hsecond, Hfirst|].
  intros Hne Hfresh third. subst third.
  pose proof (require_keeps_user rs2 resource action
                (gate_req (require rs1 resource action req))) as Hu2.
  rewrite Hu1 in Hu2.
  apply require_miss_asks; [done|].
  rewrite Hcache, (require_cache_other rs1 resource action req u); [done..|].
  intros Heq. by apply cacheKey_action_inj in Heq.
Qed.

(** Alice may manage clients when her request comes in and loses the
    permission at once: the repeated check for "delete" still passes, from
    the cache, and the check for "read" asks again and is denied. *)
Lemma permission_cache_hit_then_miss_witness :
  gate_calls Demo.second_check = []
  ∧ gate_handled Demo.second_check = gate_handled Demo.first_check
  ∧ gate_calls (require (roleService (Demo.store [] [])) "client" "read"
                  (gate_req Demo.second_check))
    = [("r1", "client", "manage"); ("r1", "client", "read")]
  ∧ gate_handled (require (roleService (Demo.store [] [])) "client" "read"
                    (gate_req Demo.second_check))
    = Send (error_response 403 "Insufficient permissions").
Proof.
  destruct (permission_cache_hit_then_miss
              (roleService Demo.manage_only) (roleService (Demo.store [] []))
              (roleService (Demo.store [] [])) "client" "delete" "read"
              (Demo.request None JsUndefined (Some Demo.alice_identity))
              Demo.alice_identity eq_refl (or_introl eq_refl)) as (H1 & H2 & H3).
  split; [exact H1|]. split; [exact H2|].
  apply H3; [discriminate|reflexivity].
Defined.

(** ** Access-token validation *)

Lemma token_findFirst_None (P : Token → Prop) `{∀ t, Decision (P t)} db :
  list_find P (tokens db) = None ↔ ¬ ∃ t, t ∈ tokens db ∧ P t.
Proof.
  rewrite list_find_None, Forall_forall. split.
  - intros Hall (t & Hin & HP). by apply (Hall t).
  - intros Hno t Hin HP. apply Hno. eauto.
Qed.

Lemma token_findFirst_Some (P : Token → Prop) `{∀ t, Decision (P t)} db :
  (∃ t, t ∈ tokens db ∧ P t) → ∃ i t, list_find P (tokens db) = Some (i, t) ∧ P t.
Proof.
  intros (t & Hin & HP). destruct (list_find_elem_of P _ _ Hin HP) as [[i t'] Hfind].
  exists i, t'. split; [done|]. by apply list_find_Some in Hfind as (_ & ? & _).
Qed.

Lemma user_find_None (P : User → Prop) `{∀ u, Decision (P u)} db :
  (∀ u, u ∈ users db → ¬ P u) → list_find P (users db) = None.
Proof. intros Hno. apply list_find_None, Forall_forall. done. Qed.

Lemma validateAccessToken_pure app token now db :
  snd (validateAccessToken app token now db) = db.
Proof.
  unfold validateAccessToken.
  destruct (verifyToken _ _ _ _) as [e|payload]; [done|].
  destruct (claim_id payload); try done.
  unfold bind, token_findFirst, user_findUnique.
  destruct (list_find (active_access_row _ _) _) as [[i t]|]; [|done].
  destruct (list_find (active_user_with_id _) _) as [[j u]|]; simpl; [|done].
  destruct (role_of db u); done.
Qed.

Lemma validateAccessToken_codec_failure app token now db e :
  verifyToken app token false now = inl e →
  fst (validateAccessToken app token now db) = Throw "Invalid or expired access token".
Proof. intros He. unfold validateAccessToken. by rewrite He. Qed.

Lemma validateAccessToken_revoked app token now db payload id :
  verifyToken app token false now = inr payload →
  claim_id payload = JsString id →
  ¬ ledger_active db token now →
  fst (validateAccessToken app token now db) = Throw "Invalid or revoked access token".
Proof.
  intros Hv Hid Hno. unfold validateAccessToken. rewrite Hv, Hid.
  apply (proj2 (token_findFirst_None _ db)) in Hno.
  unfold bind, token_findFirst. by rewrite Hno.
Qed.

Lemma validateAccessToken_no_user app token now db payload id :
  verifyToken app token false now = inr payload →
  claim_id payload = JsString id →
  ledger_active db token now →
  no_active_user db id →
  fst (validateAccessToken app token now db) = Throw "User not found or inactive".
Proof.
  intros Hv Hid Hyes Hno. unfold validateAccessToken. rewrite Hv, Hid.
  destruct (token_findFirst_Some (active_access_row token now) db Hyes) as (i & t & Hfind & _).
  unfold bind, token_findFirst, user_findUnique. rewrite Hfind.
  by rewrite (user_find_None (active_user_with_id id) db Hno).
Qed.

(** C4, as stated, fails: a token whose verified payload carries no string
    id is rejected with a fourth message, none of the three listed. *)
Lemma validateAccessToken_fourth_error :
  ∃ msg, fst (validateAccessToken (Demo.app true) "A/7" 0 Demo.live_ledger) = Throw msg
         ∧ msg ∉ three_errors.
Proof.
  exists "Invalid token payload". split; [reflexivity|].
  unfold three_errors. rewrite !elem_of_cons, elem_of_nil.
  intros [H|[H|[H|[]]]]; discriminate.
Qed.

(** C4, amended: [validateAccessToken] never writes to the store and runs
    four checks in this order, each with its own error: codec verification
    of the access-class token ("Invalid or expired access token"); the
    verified payload has a string [id] ("Invalid token payload"); the
    ledger holds a non-revoked, unexpired access-token row for the token
    ("Invalid or revoked access token"); an ACTIVE, non-deleted user with
    that id exists and has a role ("User not found or inactive").  When all
    four pass, the identity projection of that user is returned. *)
Theorem validateAccessToken_checks_in_order (app : App) (token : string) (now : Z) (db : Db) :
  snd (validateAccessToken app token now db) = db
  ∧ (∀ e, verifyToken app token false now = inl e →
       fst (validateAccessToken app token now db) = Throw "Invalid or expired access token")
  ∧ (∀ payload, verifyToken app token false now = inr payload →
       (∀ id, claim_id payload ≠ JsString id) →
       fst (validateAccessToken app token now db) = Throw "Invalid token payload")
  ∧ (∀ payload id, verifyToken app token false now = inr payload →
       claim_id payload = JsString id →
       (¬ ledger_active db token now →
        fst (validateAccessToken app token now db) = Throw "Invalid or revoked access token")
       ∧ (ledger_active db token now →
          match active_user_by_id db id with
          | None =>
            no_active_user db id
            ∧ fst (validateAccessToken app token now db) = Throw "User not found or inactive"
          | Some u =>
            match role_of db u with
            | None =>
              fst (validateAccessToken app token now db) = Throw "User not found or inactive"
            | Some r =>
              fst (validateAccessToken app token now db)
              = Return (mkAuthenticatedUser (user_id u) (user_email u) (user_roleId u)
                          (Some (role_name r)))
            end
          end)).
Proof.
  split; [apply validateAccessToken_pure|].
  split; [|unfold validateAccessToken; split].
  - intros e He. by eapply validateAccessToken_codec_failure.
  - intros payload -> Hid. destruct (claim_id payload); try done. by destruct (Hid s).
  - intros payload id -> ->. unfold bind, token_findFirst, user_findUnique, ledger_active.
    split.
    + intros Hno. apply (proj2 (token_findFirst_None _ db)) in Hno. by rewrite Hno.
    + intros Hyes.
      destruct (token_findFirst_Some (active_access_row token now) db Hyes)
        as (i & t & -> & _).
      unfold active_user_by_id, no_active_user.
      destruct (list_find (active_user_with_id id) (users db)) as [[j u]|] eqn:Hu; simpl.
      * destruct (role_of db u); done.
      * split; [|done]. apply list_find_None in Hu. rewrite Forall_forall in Hu. done.
Qed.

Lemma validateAccessToken_checks_in_order_witness :
  fst (validateAccessToken (Demo.app true) "A/u1" 0 Demo.live_ledger)
  = Return Demo.alice_identity.
Proof.
  destruct (validateAccessToken_checks_in_order (Demo.app true) "A/u1" 0 Demo.live_ledger)
    as (_ & _ & _ & H).
  destruct (H Demo.alice_claims "u1" eq_refl eq_refl) as [_ Hactive].
  apply Hactive. exists (Demo.access_row "A/u1" 1000 false).
  split; [apply list_elem_of_here|].
  unfold active_access_row. simpl. repeat split; lia.
Defined.

(** ** Request Authentication Gate *)

Example extractToken_prefers_cookie :
  extractToken (mkRequest (Some "A/u1") (Some "Bearer other") JsUndefined
                  None None None None None None) = Some "A/u1".
Proof. reflexivity. Qed.

Example extractToken_bearer_trimmed :
  extractToken (mkRequest None (Some "Bearer  A/u1 ") JsUndefined
                  None None None None None None) = Some "A/u1".
Proof. reflexivity. Qed.

Example authenticate_without_token :
  fst (authenticate (Demo.app true) (Demo.request None JsUndefined None) 0 Demo.live_ledger)
  = Send (error_response 401 "Access token required").
Proof. reflexivity. Qed.

Example authenticate_attaches_identity :
  authenticate (Demo.app true) (Demo.request (Some "A/u1") JsUndefined None) 0
    Demo.live_ledger
  = (Next, Demo.request (Some "A/u1") JsUndefined (Some Demo.alice_identity)).
Proof. reflexivity. Qed.

(** C2 fails on the code.  The gate forwards the message of the error
    [validateAccessToken] threw, so the request with an expired token and
    the request with a token revoked in the ledger get the same status and
    different bodies, although the header of the middleware promises
    generic error messages against enumeration. *)
Lemma authenticate_tells_revoked_from_expired :
  verifyToken (Demo.app true) "A/old" false 0 = inl TokenExpiredError
  ∧ verifyToken (Demo.app true) "A/u1" false 0 = inr Demo.alice_claims
  ∧ ¬ ledger_active Demo.revoked_ledger "A/u1" 0
  ∧ ∃ r1 r2,
      fst (authenticate (Demo.app true) (Demo.request (Some "A/old") JsUndefined None) 0
             Demo.revoked_ledger) = Send r1
      ∧ fst (authenticate (Demo.app true) (Demo.request (Some "A/u1") JsUndefined None) 0
               Demo.revoked_ledger) = Send r2
      ∧ res_status r1 = res_status r2
      ∧ res_body r1 ≠ res_body r2.
Proof.
  split; [reflexivity|]. split; [reflexivity|]. split.
  - intros (t & Hin & Hrow). unfold Demo.revoked_ledger, Demo.store in Hin. simpl in Hin.
    apply list_elem_of_singleton in Hin as ->.
    destruct Hrow as (_ & _ & Hrev & _). discriminate.
  - exists (error_response 401 "Invalid or expired access token"),
           (error_response 401 "Invalid or revoked access token").
    split; [reflexivity|]. split; [reflexivity|]. split; [reflexivity|discriminate].
Qed.

Lemma authenticate_with_token app req now db token :
  extractToken req = Some token → str_truthy token = true →
  authenticate app req now db
  = match fst (validateAccessToken app token now db) with
    | Return user => (Next, set_user req user)
    | Throw message => (Send (error_response 401 message), req)
    end.
Proof. intros Htoken Htruthy. unfold authenticate. by rewrite Htoken, Htruthy. Qed.

(** X22: what the gate answers when it does not call [next()]: always
    status 401, with the body [{ error: message }] where the message is
    "Access token required" or the message of the check of
    [validateAccessToken] that failed.  A malformed token and an expired
    token get the very same response; a revoked token and an inactive user
    each get the message of their check. *)
Theorem authenticate_failure_is_401_with_check_message
    (app : App) (req : Request) (now : Z) (db : Db) :
  (∀ r, fst (authenticate app req now db) = Send r →
     res_status r = 401
     ∧ (r = error_response 401 "Access token required"
        ∨ ∃ token message,
            extractToken req = Some token
            ∧ fst (validateAccessToken app token now db) = Throw message
            ∧ r = error_response 401 message))
  ∧ (∀ token e,
       extractToken req = Some token → str_truthy token = true →
       verifyToken app token false now = inl e →
       fst (authenticate app req now db)
       = Send (error_response 401 "Invalid or expired access token"))
  ∧ (∀ token payload id,
       extractToken req = Some token → str_truthy token = true →
       verifyToken app token false now = inr payload →
       claim_id payload = JsString id →
       (¬ ledger_active db token now →
        fst (authenticate app req now db)
        = Send (error_response 401 "Invalid or revoked access token"))
       ∧ (ledger_active db token now → no_active_user db id →
          fst (authenticate app req now db)
          = Send (error_response 401 "User not found or inactive"))).
Proof.
  split; [|split].
  - intros r. unfold authenticate.
    destruct (extractToken req) as [token|] eqn:Htoken.
    + destruct (str_truthy token).
      * destruct (fst (validateAccessToken app token now db)) as [user|message] eqn:Hv;
          simpl; [discriminate|].
        intros [= <-]. split; [done|]. right. by exists token, message.
      * simpl. intros [= <-]. auto.
    + simpl. intros [= <-]. auto.
  - intros token e Htoken Htruthy He.
    rewrite (authenticate_with_token _ _ _ _ token) by done.
    by rewrite (validateAccessToken_codec_failure app token now db e He).
  - intros token payload id Htoken Htruthy Hv Hid.
    rewrite (authenticate_with_token _ _ _ _ token) by done. split.
    + intros Hno.
      by rewrite (validateAccessToken_revoked app token now db payload id Hv Hid Hno).
    + intros Hyes Hno.
      by rewrite (validateAccessToken_no_user app token now db payload id Hv Hid Hyes Hno).
Qed.

Lemma authenticate_failure_is_401_with_check_message_witness :
  fst (authenticate (Demo.app true) (Demo.request (Some "A/old") JsUndefined None) 0
         Demo.live_ledger)
  = fst (authenticate (Demo.app true) (Demo.request (Some "garbage") JsUndefined None) 0
           Demo.live_ledger).
Proof.
  destruct (authenticate_failure_is_401_with_check_message (Demo.app true)
              (Demo.request (Some "A/old") JsUndefined None) 0 Demo.live_ledger)
    as (_ & Hexpired & _).
  destruct (authenticate_failure_is_401_with_check_message (Demo.app true)
              (Demo.request (Some "garbage") JsUndefined None) 0 Demo.live_ledger)
    as (_ & Hmalformed & _).
  rewrite (Hexpired "A/old" TokenExpiredError eq_refl eq_refl eq_refl).
  rewrite (Hmalformed "garbage" JsonWebTokenError eq_refl eq_refl eq_refl).
  reflexivity.
Defined.

(** ** Login *)

Lemma login_unknown_email app email password ip ua now db :
  unknown_email db email →
  login app email password ip ua now db = (Throw "Invalid email or password", db).
Proof.
  intros Hno. unfold login, bind, user_findUnique.
  by rewrite (user_find_None (active_user_with_email email) db Hno).
Qed.

Lemma login_wrong_password app email password ip ua now db u :
  active_user_by_email db email = Some u →
  password_verify app password (user_password u) = false →
  login app email password ip ua now db = (Throw "Invalid email or password", db).
Proof.
  unfold active_user_by_email, login, bind, user_findUnique. intros Hu Hpw.
  destruct (list_find _ (users db)) as [[i u']|]; simpl in *; [|discriminate].
  injection Hu as ->. by rewrite Hpw.
Qed.

(** C3: a login with an email that belongs to no ACTIVE, non-deleted user
    and a login of an existing ACTIVE, non-deleted user with a wrong
    password fail alike: the same error with the same message thrown by
    the service, the store untouched, and the same 401 response sent by
    the controller. *)
Theorem login_failures_indistinguishable
    (app : App) (db : Db) (now1 now2 : Z)
    (email1 password1 email2 password2 : string)
    (ip1 ua1 ip2 ua2 : option string) (u : User) :
  unknown_email db email1 →
  active_user_by_email db email2 = Some u →
  password_verify app password2 (user_password u) = false →
  let unknown := login app email1 password1 ip1 ua1 now1 db in
  let wrong := login app email2 password2 ip2 ua2 now2 db in
  fst unknown = Throw "Invalid email or password"
  ∧ fst wrong = fst unknown
  ∧ snd unknown = db ∧ snd wrong = db
  ∧ login_error_response (fst unknown)
    = Some (error_response 401 "Invalid email or password")
  ∧ login_error_response (fst wrong) = login_error_response (fst unknown).
Proof.
  intros Hunknown Hu Hpw unknown wrong. subst unknown wrong.
  rewrite (login_unknown_email app email1 password1 ip1 ua1 now1 db Hunknown).
  rewrite (login_wrong_password app email2 password2 ip2 ua2 now2 db u Hu Hpw).
  done.
Qed.

Lemma login_failures_indistinguishable_witness :
  fst (login (Demo.app true) "alice@example.com" "guess" None None 7 (Demo.store [] []))
  = fst (login (Demo.app true) "mallory@example.com" "guess" None None 5 (Demo.store [] [])).
Proof.
  refine (proj1 (proj2 (login_failures_indistinguishable (Demo.app true) (Demo.store [] [])
                          5 7 "mallory@example.com" "guess" "alice@example.com" "guess"
                          None None None None Demo.alice _ eq_refl eq_refl))).
  intros u Hin. apply list_elem_of_singleton in Hin as ->.
  intros (Hemail & _). discriminate.
Defined.

(** ** Refresh rotation *)

Lemma lookup_snoc_new {A} (l : list A) (x : A) : (l ++ [x]) !! length l = Some x.
Proof. by apply list_lookup_middle. Qed.

Lemma lookup_updateMany (P : Token → Prop) `{∀ t, Decision (P t)} data (l : list Token) j t :
  l !! j = Some t →
  ((fun t => if decide (P t) then data t else t) <$> l) !! j
  = Some (if decide (P t) then data t else t).
Proof. intros Hj. by rewrite list_lookup_fmap, Hj. Qed.

(** What a successful [refreshAccessToken] did. *)
Lemma refreshAccessToken_success app refreshToken ip ua now db newToken db' :
  refreshAccessToken app refreshToken ip ua now db = (Return newToken, db') →
  ∃ payload uid i rt,
    verifyToken app refreshToken true now = inr payload
    ∧ claim_id payload = JsString uid
    ∧ list_find (active_refresh_row refreshToken (Given uid) now) (tokens db) = Some (i, rt)
    ∧ newToken = generateAccessToken app payload now
    ∧ db' = set_tokens db
              (((fun t => if decide (live_access_row_of (Given uid) t) then revoke t else t)
                  <$> tokens db)
               ++ [mkToken newToken access_token uid
                     (now + accessTokenExpiresIn (config app)) false None
                     (or_null ip) (or_null ua)]).
Proof.
  unfold refreshAccessToken.
  destruct (verifyToken app refreshToken true now) as [e|payload] eqn:Hv; [discriminate|].
  destruct payload as [cid cemail crole]. simpl.
  destruct cid as [| |b|n|uid]; simpl; try discriminate.
  - unfold bind, token_findFirst.
    destruct (list_find _ (tokens db)) as [[i rt]|]; simpl; discriminate.
  - unfold bind, token_findFirst.
    destruct (list_find _ (tokens db)) as [[i rt]|] eqn:Hfind; simpl; [|discriminate].
    intros [= <- <-]. exists (mkJwtClaims (JsString uid) cemail crole), uid, i, rt.
    done.
Qed.

(** C5, as stated, fails: with ACCESS_TOKEN_EXPIRES_IN=0, a duration the
    configuration admits, a refresh succeeds and the row of the token it
    returns expires at the instant of the refresh, so that the ledger holds
    no active row for the returned token then or at any later instant. *)
Lemma refreshAccessToken_zero_lifetime :
  accessTokenExpiresIn (config Scenario.zero_lifetime) = 0
  ∧ ∃ newToken db',
      refreshAccessToken Scenario.zero_lifetime "R/u1" None None 1000 Demo.session
      = (Return newToken, db')
      ∧ ∀ later, 1000 ≤ later → ¬ ledger_active db' newToken later.
Proof.
  split; [reflexivity|]. eexists _, _. split; [vm_compute; reflexivity|].
  intros later Hlater (t & Hin & Htok & Hty & Hrev & Hexp).
  simpl in Hin. rewrite !elem_of_cons, elem_of_nil in Hin.
  destruct Hin as [->|[->|[->|[->|[->|[]]]]]]; simpl in *; try discriminate; lia.
Qed.

(** C5, amended: after a successful [refreshAccessToken], every access-token
    row of the refresh token's user that was not revoked (so every one that
    was active) has isRevoked = true and is otherwise as it was; one row
    has been appended, for the returned token and the same user, not
    revoked and expiring one access-token lifetime after the refresh, so
    that it is active at every instant before then (at none from the
    refresh on, when the lifetime is 0);
    and no row of another type is touched: the row of the refresh token is
    as it was and is still accepted at any later instant before its own
    expiry. *)
Theorem refreshAccessToken_rotates_access_tokens_only
    (app : App) (refreshToken : string) (ip ua : option string) (now : Z)
    (db db' : Db) (newToken : string) :
  refreshAccessToken app refreshToken ip ua now db = (Return newToken, db') →
  ∃ uid i rt,
    tokens db !! i = Some rt
    ∧ active_refresh_row refreshToken (Given uid) now rt
    ∧ (∀ j t, tokens db !! j = Some t →
         tok_userId t = uid → tok_type t = access_token → tok_isRevoked t = false →
         tokens db' !! j
         = Some (mkToken (tok_token t) access_token uid (tok_expiresAt t) true
                   (tok_usedAt t) (tok_ipAddress t) (tok_userAgent t)))
    ∧ length (tokens db') = S (length (tokens db))
    ∧ tokens db' !! length (tokens db)
      = Some (mkToken newToken access_token uid (now + accessTokenExpiresIn (config app))
                false None (or_null ip) (or_null ua))
    ∧ (∀ later, later < now + accessTokenExpiresIn (config app) →
         ledger_active db' newToken later)
    ∧ (∀ j t, tokens db !! j = Some t → tok_type t ≠ access_token →
         tokens db' !! j = Some t)
    ∧ tokens db' !! i = Some rt
    ∧ (∀ later, now ≤ later → later < tok_expiresAt rt →
         active_refresh_row refreshToken (Given uid) later rt).
Proof.
  intros Hrun.
  apply refreshAccessToken_success in Hrun
    as (payload & uid & i & rt & Hv & Hid & Hfind & Hnew & ->).
  apply list_find_Some in Hfind as (Hi & Hrt & _).
  exists uid, i, rt. simpl.
  set (row := mkToken newToken access_token uid (now + accessTokenExpiresIn (config app))
                false None (or_null ip) (or_null ua)).
  set (rotated := (fun t => if decide (live_access_row_of (Given uid) t) then revoke t else t)
                    <$> tokens db).
  assert (length rotated = length (tokens db)) as Hlen by (unfold rotated; by rewrite length_fmap).
  assert (∀ j t, tokens db !! j = Some t → tok_type t ≠ access_token →
            (rotated ++ [row]) !! j = Some t) as Hkeep.
  { intros j t Hj Hty. apply lookup_app_l_Some. unfold rotated.
    rewrite (lookup_updateMany _ _ _ j t Hj).
    destruct (decide _) as [(_ & Hacc & _)|]; [by destruct Hty|done]. }
  split; [done|]. split; [done|].
  split; [|split; [|split; [|split; [|split; [|split]]]]].
  - intros j t Hj Huid Hty Hrev. apply lookup_app_l_Some. unfold rotated.
    rewrite (lookup_updateMany _ _ _ j t Hj).
    destruct (decide _) as [|Hno]; [|destruct Hno; done].
    unfold revoke. by rewrite Huid, Hty.
  - rewrite length_app, Hlen. simpl. lia.
  - rewrite <- Hlen. apply lookup_snoc_new.
  - intros later Hexp.
    exists row. split; [apply elem_of_app; right; apply list_elem_of_here|].
    unfold active_access_row, row. simpl. done.
  - exact Hkeep.
  - apply Hkeep; [done|]. destruct Hrt as (_ & _ & -> & _). done.
  - intros later _ Hlater. destruct Hrt as (? & ? & ? & ? & _). done.
Qed.

(** Alice refreshes at instant 1000: her live access token is revoked in
    place, and the new row is active a second later. *)
Lemma refreshAccessToken_rotates_access_tokens_only_witness :
  tokens Demo.rotated !! 1%nat = Some (Demo.access_row "A/u1" 900000 true)
  ∧ tokens Demo.rotated !! 4%nat = Some (mkToken "A/u1" access_token "u1" 901000 false
                                          None None None)
  ∧ ledger_active Demo.rotated "A/u1" 2000.
Proof.
  destruct (refreshAccessToken_rotates_access_tokens_only (Demo.app true) "R/u1" None None
              1000 Demo.session Demo.rotated "A/u1")
    as (uid & i & rt & Hi & Hrt & Hrevoked & _ & Hnew & Hactive & _).
  { vm_compute. reflexivity. }
  assert (uid = "u1") as ->.
  { destruct Hrt as (Htok & Huid & Hty & _). apply list_elem_of_lookup_2 in Hi.
    unfold Demo.session, Demo.store in Hi. simpl in Hi.
    rewrite !elem_of_cons, elem_of_nil in Hi.
    destruct Hi as [->|[->|[->|[->|[]]]]]; simpl in *; done. }
  split; [|split].
  - apply (Hrevoked 1%nat (Demo.access_row "A/u1" 900000 false)); reflexivity.
  - exact Hnew.
  - apply (Hactive 2000). simpl. lia.
Defined.

Lemma refreshAccessToken_succeeds app refreshToken ip ua now db payload uid :
  verifyToken app refreshToken true now = inr payload →
  claim_id payload = JsString uid →
  (∃ t, t ∈ tokens db ∧ active_refresh_row refreshToken (Given uid) now t) →
  fst (refreshAccessToken app refreshToken ip ua now db)
  = Return (generateAccessToken app payload now).
Proof.
  intros Hv Hid Hrow. unfold refreshAccessToken. rewrite Hv, Hid. simpl.
  destruct (token_findFirst_Some _ db Hrow) as (i & t & Hfind & _).
  unfold bind, token_findFirst. rewrite Hfind. simpl.
  destruct payload as [cid cemail crole]. simpl in Hid. by subst cid.
Qed.

(** ** Password reset *)

Example password_hash_too_short :
  password_hash (Demo.app true) "12345"
  = Throw "Password too weak: minimum 6 characters required".
Proof. reflexivity. Qed.

(** The length that counts is the number of UTF-16 code units: five
    letters of two bytes each are too few, three characters beyond the
    Basic Multilingual Plane are enough. *)
Example password_hash_counts_code_units :
  js_length (utf8 [195; 169; 195; 169; 195; 169; 195; 169; 195; 169]) = 5%nat
  ∧ password_hash (Demo.app true) (utf8 [195; 169; 195; 169; 195; 169; 195; 169; 195; 169])
    = Throw "Password too weak: minimum 6 characters required"
  ∧ js_length (utf8 [240; 159; 148; 145; 240; 159; 148; 145; 240; 159; 148; 145]) = 6%nat
  ∧ ∃ hashed,
      password_hash (Demo.app true)
        (utf8 [240; 159; 148; 145; 240; 159; 148; 145; 240; 159; 148; 145])
      = Return hashed.
Proof. split; [reflexivity|]. split; [reflexivity|]. split; [reflexivity|]. by eexists. Qed.

Lemma password_hash_error app password msg :
  password_hash app password = Throw msg → msg ≠ "Invalid or expired reset token".
Proof.
  unfold password_hash. destruct (negb (str_truthy password)).
  - intros [= <-]. discriminate.
  - destruct (_ <? 6); [|discriminate]. intros [= <-]. discriminate.
Qed.

(** What [resetPassword] does once it found its row and hashed the new
    password. *)
Lemma resetPassword_run app token newPassword ip ua now db i t hashed :
  list_find (usable_reset_row token now) (tokens db) = Some (i, t) →
  password_hash app newPassword = Return hashed →
  resetPassword app token newPassword ip ua now db
  = (Return tt,
     mkDb ((fun u => if decide (user_id u = tok_userId t) then set_password hashed u else u)
             <$> users db)
          (roles db) (permissions db)
          ((fun s => if decide (session_row_of (tok_userId t) s) then revoke s else s)
             <$> alter (consume now) i (tokens db))
          (auditLogs db
           ++ [mkAuditLog (Some (tok_userId t)) "RESET_PASSWORD" "User"
                 (Some (tok_userId t)) "Password successfully reset" ip ua])).
Proof.
  intros Hfind Hhash. unfold resetPassword, bind, token_findFirst, lift.
  rewrite Hfind, Hhash. reflexivity.
Qed.

Lemma resetPassword_cases app token newPassword ip ua now db :
  (list_find (usable_reset_row token now) (tokens db) = None
   ∧ resetPassword app token newPassword ip ua now db
     = (Throw "Invalid or expired reset token", db))
  ∨ (∃ i t msg,
       list_find (usable_reset_row token now) (tokens db) = Some (i, t)
       ∧ password_hash app newPassword = Throw msg
       ∧ resetPassword app token newPassword ip ua now db = (Throw msg, db))
  ∨ (∃ i t hashed,
       list_find (usable_reset_row token now) (tokens db) = Some (i, t)
       ∧ password_hash app newPassword = Return hashed).
Proof.
  destruct (list_find (usable_reset_row token now) (tokens db)) as [[i t]|] eqn:Hfind.
  - right. destruct (password_hash app newPassword) as [hashed|msg] eqn:Hhash.
    + right. by exists i, t, hashed.
    + left. exists i, t, msg. split; [done|]. split; [done|].
      unfold resetPassword, bind, token_findFirst, lift. by rewrite Hfind, Hhash.
  - left. split; [done|]. unfold resetPassword, bind, token_findFirst. by rewrite Hfind.
Qed.

(** The token strings of the ledger are those it had before the reset,
    row by row. *)
Lemma reset_rows_keep_token now uid i (l : list Token) j s' :
  ((fun s => if decide (session_row_of uid s) then revoke s else s)
     <$> alter (consume now) i l) !! j = Some s' →
  ∃ s, l !! j = Some s ∧ tok_token s' = tok_token s ∧ tok_type s' = tok_type s
       ∧ (j = i → tok_isRevoked s' = true).
Proof.
  rewrite list_lookup_fmap, list_lookup_alter.
  destruct (decide (i = j)) as [->|Hne].
  - destruct (l !! j) as [s|]; simpl; [|discriminate].
    intros [= <-]. exists s. split; [done|].
    destruct (decide _); simpl; done.
  - destruct (l !! j) as [s|]; simpl; [|discriminate].
    intros [= <-]. exists s. split; [done|].
    destruct (decide _); simpl; (split; [done|]); (split; [done|]); intros ->; done.
Qed.

(** Reset tokens being unique, the consumed one has no usable row left. *)
Lemma reset_token_spent token now later uid i t db :
  reset_tokens_unique db →
  tokens db !! i = Some t → tok_token t = token → tok_type t = reset_password →
  list_find (usable_reset_row token later)
    ((fun s => if decide (session_row_of uid s) then revoke s else s)
       <$> alter (consume now) i (tokens db)) = None.
Proof.
  intros Hkey Hi Htok Hty. apply list_find_None, Forall_forall.
  intros s' Hin Husable. apply list_elem_of_lookup in Hin as [j Hj].
  apply reset_rows_keep_token in Hj as (s & Hs & Hsame & Hsamety & Hrev).
  destruct Husable as (Htoken & Hreset & Hlive & _).
  assert (j = i) as -> by (apply (Hkey j i s t); congruence).
  rewrite Hrev in Hlive; [discriminate|done].
Qed.

(** X23: a call of [resetPassword] that runs alone fails with "Invalid or
    expired reset token" exactly when the ledger has no reset_password row
    for the token that is not revoked, not used and not expired, and then
    writes nothing.  When it succeeds, the password of the row's user is
    the new hash, that row has a usedAt and isRevoked = true, and every
    access and refresh token of the user has isRevoked = true, all other
    fields being as they were; and, reset tokens being unique in the
    ledger, any [resetPassword] with the same token that starts afterwards
    fails. *)
Theorem resetPassword_consumes_token_once
    (app : App) (token newPassword : string) (ip ua : option string) (now : Z) (db : Db) :
  reset_tokens_unique db →
  (¬ has_usable_reset_row db token now →
   resetPassword app token newPassword ip ua now db
   = (Throw "Invalid or expired reset token", db))
  ∧ (has_usable_reset_row db token now →
     fst (resetPassword app token newPassword ip ua now db)
     ≠ Throw "Invalid or expired reset token"
     ∧ ∀ hashed, password_hash app newPassword = Return hashed →
         fst (resetPassword app token newPassword ip ua now db) = Return tt)
  ∧ (∀ db', resetPassword app token newPassword ip ua now db = (Return tt, db') →
       ∃ i t hashed usedAt,
         tokens db !! i = Some t
         ∧ usable_reset_row token now t
         ∧ password_hash app newPassword = Return hashed
         ∧ (∀ k u, users db !! k = Some u → user_id u = tok_userId t →
              users db' !! k
              = Some (mkUser (user_id u) (user_name u) (user_email u) hashed
                        (user_status u) (user_roleId u) (user_avatar u) (user_deletedAt u)
                        (user_lastLoginAt u) (user_lastForgotAt u)))
         ∧ tokens db' !! i
           = Some (mkToken (tok_token t) (tok_type t) (tok_userId t) (tok_expiresAt t)
                     true (Some usedAt) (tok_ipAddress t) (tok_userAgent t))
         ∧ (∀ j s, tokens db !! j = Some s → tok_userId s = tok_userId t →
              tok_type s = access_token ∨ tok_type s = refresh_token →
              tokens db' !! j
              = Some (mkToken (tok_token s) (tok_type s) (tok_userId s) (tok_expiresAt s)
                        true (tok_usedAt s) (tok_ipAddress s) (tok_userAgent s)))
         ∧ (∀ password' ip' ua' later,
              resetPassword app token password' ip' ua' later db'
              = (Throw "Invalid or expired reset token", db'))).
Proof.
  intros Hkey. split; [|split].
  - intros Hno. apply (proj2 (token_findFirst_None _ db)) in Hno.
    unfold resetPassword, bind, token_findFirst. by rewrite Hno.
  - intros Hrow.
    destruct (token_findFirst_Some _ db Hrow) as (i & t & Hfind & _). split.
    + destruct (resetPassword_cases app token newPassword ip ua now db)
        as [[Hnone _]|[(i' & t' & msg & _ & Hhash & ->)|(i' & t' & hashed & Hfind' & Hhash)]].
      * congruence.
      * simpl. intros [= ->]. by eapply password_hash_error.
      * by rewrite (resetPassword_run _ _ _ _ _ _ _ _ _ _ Hfind' Hhash).
    + intros hashed Hhash.
      by rewrite (resetPassword_run _ _ _ _ _ _ _ _ _ _ Hfind Hhash).
  - intros db' Hrun.
    destruct (resetPassword_cases app token newPassword ip ua now db)
      as [[_ Hthrow]|[(i & t & msg & _ & _ & Hthrow)|(i & t & hashed & Hfind & Hhash)]];
      [congruence..|].
    rewrite (resetPassword_run _ _ _ _ _ _ _ _ _ _ Hfind Hhash) in Hrun.
    injection Hrun as <-.
    apply list_find_Some in Hfind as (Hi & Husable & _).
    exists i, t, hashed, now. simpl.
    split; [done|]. split; [done|]. split; [done|]. split; [|split; [|split]].
    + intros k u Hk Hid. rewrite list_lookup_fmap, Hk. simpl.
      by rewrite decide_True.
    + rewrite list_lookup_fmap, list_lookup_alter_eq, Hi. simpl.
      rewrite decide_False; [done|].
      destruct Husable as (_ & Hty & _). intros (_ & [H|H]); simpl in H; congruence.
    + intros j s Hj Huid Hty.
      assert (i ≠ j) as Hne.
      { intros ->. destruct Husable as (_ & Hreset & _).
        assert (s = t) as -> by congruence. destruct Hty; congruence. }
      rewrite list_lookup_fmap, list_lookup_alter_ne, Hj by done. simpl.
      rewrite decide_True; [done|]. split; [done|]. destruct Hty; auto.
    + intros password' ip' ua' later.
      unfold resetPassword, bind, token_findFirst. simpl.
      rewrite (reset_token_spent token now later (tok_userId t) i t db);
        [done|done|done|..]; by destruct Husable as (? & ? & _).
Qed.

Lemma resetPassword_consumes_token_once_witness :
  resetPassword (Demo.app true) "3f2c" "s3cret-pw" None None 1000 Demo.reset_pending
  = (Return tt, Demo.reset_done)
  ∧ resetPassword (Demo.app true) "3f2c" "another-pw" None None 2000 Demo.reset_done
    = (Throw "Invalid or expired reset token", Demo.reset_done).
Proof.
  assert (reset_tokens_unique Demo.reset_pending) as Hkey.
  { intros [|[|[|i]]] [|[|[|j]]] s1 s2 H1 H2 Hty1 Hty2 _; simpl in *;
      try done; simplify_eq; discriminate. }
  assert (resetPassword (Demo.app true) "3f2c" "s3cret-pw" None None 1000 Demo.reset_pending
          = (Return tt, Demo.reset_done)) as Hrun.
  { vm_compute. reflexivity. }
  split; [exact Hrun|].
  destruct (resetPassword_consumes_token_once (Demo.app true) "3f2c" "s3cret-pw" None None
              1000 Demo.reset_pending Hkey) as (_ & _ & Hsuccess).
  destruct (Hsuccess Demo.reset_done Hrun)
    as (i & t & hashed & usedAt & _ & _ & _ & _ & _ & _ & Hagain).
  apply Hagain.
Defined.

(** C6 fails on the code: two calls with the same reset token that are in
    flight together both succeed.  [resetPassword] is its lookup followed
    by its writes, with the hashing of the password awaited in between;
    when the lookup of a second call is answered before the first call
    writes, both find the row unused, both resolve, and the account ends
    with the password of the call that resumed last.  (Started after the
    first call has finished, the second call fails.) *)
Theorem resetPassword_overlapping_calls_both_succeed :
  (∀ app token newPassword ip ua now db,
     resetPassword app token newPassword ip ua now db
     = (let! found := resetPassword_lookup token now in
        resetPassword_resume app found newPassword ip ua now) db)
  ∧ (∃ db',
       resetPassword_overlapping (Demo.app true) "3f2c" "first-pw" "second-pw" None None
         1000 1001 Demo.reset_pending
       = (Return tt, Return tt, db')
       ∧ user_password <$> active_user_by_email db' "alice@example.com"
         = Some "hash:second-pw")
  ∧ fst (resetPassword (Demo.app true) "3f2c" "second-pw" None None 1001
           (snd (resetPassword (Demo.app true) "3f2c" "first-pw" None None 1000
                   Demo.reset_pending)))
    = Throw "Invalid or expired reset token".
Proof.
  split; [|split].
  - intros app token newPassword ip ua now db.
    unfold resetPassword, resetPassword_lookup, resetPassword_resume, bind, token_findFirst.
    by destruct (list_find (usable_reset_row token now) (tokens db)) as [[i t]|].
  - eexists. split; [vm_compute; reflexivity|reflexivity].
  - reflexivity.
Qed.

Lemma resetPassword_lookup_found token now db found :
  list_find (usable_reset_row token now) (tokens db) = Some found →
  resetPassword_lookup token now db = (Return found, db).
Proof.
  intros Hfind. unfold resetPassword_lookup, bind, token_findFirst. by rewrite Hfind.
Qed.

Lemma resetPassword_resume_run app i t newPassword ip ua now db hashed :
  password_hash app newPassword = Return hashed →
  resetPassword_resume app (i, t) newPassword ip ua now db
  = (Return tt,
     mkDb ((fun u => if decide (user_id u = tok_userId t) then set_password hashed u else u)
             <$> users db)
          (roles db) (permissions db)
          ((fun s => if decide (session_row_of (tok_userId t) s) then revoke s else s)
             <$> alter (consume now) i (tokens db))
          (auditLogs db
           ++ [mkAuditLog (Some (tok_userId t)) "RESET_PASSWORD" "User"
                 (Some (tok_userId t)) "Password successfully reset" ip ua])).
Proof.
  intros Hhash. unfold resetPassword_resume, bind, lift. rewrite Hhash. reflexivity.
Qed.

(** X24: the double success needs nothing special of the store.  Whenever
    the ledger has a usable row for the token at the instants of both
    lookups and both passwords are acceptable, two overlapping calls both
    resolve, and the password of the user of the row the second call found
    is the hash of the second password. *)
Theorem resetPassword_overlapping_always_doubles
    (app : App) (token password1 password2 hashed1 hashed2 : string)
    (ip ua : option string) (now1 now2 : Z) (db : Db) :
  has_usable_reset_row db token now1 →
  has_usable_reset_row db token now2 →
  password_hash app password1 = Return hashed1 →
  password_hash app password2 = Return hashed2 →
  ∃ db' i t,
    resetPassword_overlapping app token password1 password2 ip ua now1 now2 db
    = (Return tt, Return tt, db')
    ∧ list_find (usable_reset_row token now2) (tokens db) = Some (i, t)
    ∧ length (users db') = length (users db)
    ∧ (∀ v, v ∈ users db' → user_id v = tok_userId t → user_password v = hashed2).
Proof.
  intros Hrow1 Hrow2 Hhash1 Hhash2.
  destruct (token_findFirst_Some _ db Hrow1) as (i1 & t1 & Hfind1 & _).
  destruct (token_findFirst_Some _ db Hrow2) as (i2 & t2 & Hfind2 & _).
  unfold resetPassword_overlapping.
  rewrite (resetPassword_lookup_found _ _ _ _ Hfind1).
  rewrite (resetPassword_lookup_found _ _ _ _ Hfind2).
  rewrite (resetPassword_resume_run _ _ _ _ _ _ _ _ _ Hhash1).
  rewrite (resetPassword_resume_run _ _ _ _ _ _ _ _ _ Hhash2).
  eexists _, i2, t2. split; [reflexivity|]. split; [done|]. simpl. split.
  - by rewrite !length_fmap.
  - intros v Hin Hid.
    apply list_elem_of_fmap in Hin as (v1 & -> & Hin).
    destruct (decide (user_id v1 = tok_userId t2)) as [|Hne]; [done|].
    by destruct Hne.
Qed.

(** Alice's pending reset token, used by two requests at once. *)
Lemma resetPassword_overlapping_always_doubles_witness :
  ∃ db', resetPassword_overlapping (Demo.app true) "3f2c" "first-pw" "second-pw" None None
           1000 1001 Demo.reset_pending
         = (Return tt, Return tt, db').
Proof.
  destruct (resetPassword_overlapping_always_doubles (Demo.app true) "3f2c"
              "first-pw" "second-pw" "hash:first-pw" "hash:second-pw" None None 1000 1001
              Demo.reset_pending) as (db' & i & t & Hrun & _).
  - exists (Demo.reset_row 120000).
    split; [apply (list_elem_of_lookup_2 _ 2%nat); reflexivity|].
    unfold usable_reset_row. simpl. repeat split; lia.
  - exists (Demo.reset_row 120000).
    split; [apply (list_elem_of_lookup_2 _ 2%nat); reflexivity|].
    unfold usable_reset_row. simpl. repeat split; lia.
  - reflexivity.
  - reflexivity.
  - exists db'. exact Hrun.
Defined.

(** ** Logout *)

(** C7, as stated, fails: a refresh token whose ledger row has expired,
    but was never revoked, still logs out. *)
Lemma logout_accepts_expired_refresh_token :
  ¬ isActive Demo.stale_session "R/u1" refresh_token 5000
  ∧ fst (logout (Demo.app true) "R/u1" None None Demo.stale_session) = Return tt.
Proof.
  split; [|reflexivity].
  intros (t & Hin & _ & Hty & _ & _ & Hexp).
  unfold Demo.stale_session, Demo.store in Hin. simpl in Hin.
  rewrite !elem_of_cons, elem_of_nil in Hin.
  destruct Hin as [->|[->|[]]]; simpl in *; [lia|discriminate].
Qed.

(** C7, amended: [logout] fails with "Invalid refresh token", writing
    nothing, exactly when the ledger has no refresh_token row for the
    token with isRevoked=false; neither the expiry nor usedAt of the row
    is looked at.  When such a row exists, logout succeeds and every token
    of the row's user, of every type, is revoked, the other fields and the
    tokens of other users being left as they were. *)
Theorem logout_revokes_every_token_of_the_user
    (app : App) (refreshToken : string) (ip ua : option string) (db : Db) :
  (¬ has_unrevoked_refresh_row db refreshToken →
   logout app refreshToken ip ua db = (Throw "Invalid refresh token", db))
  ∧ (has_unrevoked_refresh_row db refreshToken →
     ∃ rt db',
       rt ∈ tokens db ∧ unrevoked_refresh_row refreshToken rt
       ∧ logout app refreshToken ip ua db = (Return tt, db')
       ∧ (∀ j s, tokens db !! j = Some s → tok_userId s = tok_userId rt →
            tokens db' !! j = Some (revoke s))
       ∧ (∀ s', s' ∈ tokens db' → tok_userId s' = tok_userId rt → tok_isRevoked s' = true)
       ∧ (∀ j s, tokens db !! j = Some s → tok_userId s ≠ tok_userId rt →
            tokens db' !! j = Some s)
       ∧ users db' = users db).
Proof.
  split.
  - intros Hno. apply (proj2 (token_findFirst_None _ db)) in Hno.
    unfold logout, bind, token_findFirst. by rewrite Hno.
  - intros Hrow. destruct (token_findFirst_Some _ db Hrow) as (i & rt & Hfind & Hrt).
    exists rt. eexists. unfold logout, bind, token_findFirst. rewrite Hfind. simpl.
    apply list_find_Some in Hfind as (Hi & _ & _).
    split; [by eapply list_elem_of_lookup_2|]. split; [done|]. split; [reflexivity|].
    simpl. split; [|split; [|split]].
    + intros j s Hj Huid. rewrite (lookup_updateMany _ _ _ j s Hj).
      destruct (decide _) as [|Hno]; [done|].
      destruct (tok_isRevoked s) eqn:Hrev.
      * f_equal. destruct s; simpl in *. by subst.
      * destruct Hno. done.
    + intros s' Hin Huid. apply list_elem_of_fmap in Hin as (s & -> & _).
      destruct (decide _) as [|Hno]; [done|].
      destruct (tok_isRevoked s) eqn:Hrev; [done|]. destruct Hno. done.
    + intros j s Hj Huid. rewrite (lookup_updateMany _ _ _ j s Hj).
      destruct (decide _) as [[? _]|]; done.
    + done.
Qed.

Lemma logout_revokes_every_token_of_the_user_witness :
  ∃ db', logout (Demo.app true) "R/u1" None None Demo.session = (Return tt, db')
         ∧ tokens db' !! 1%nat = Some (Demo.access_row "A/u1" 900000 true).
Proof.
  destruct (logout_revokes_every_token_of_the_user (Demo.app true) "R/u1" None None
              Demo.session) as [_ Hsuccess].
  destruct Hsuccess as (rt & db' & Hin & Hrt & Hrun & Hall & _).
  { exists (Demo.refresh_row 86400000). split; [apply list_elem_of_here|done]. }
  exists db'. split; [exact Hrun|].
  apply (Hall 1%nat (Demo.access_row "A/u1" 900000 false)); [reflexivity|].
  destruct Hrt as (Htok & Hty & _).
  unfold Demo.session, Demo.store in Hin. simpl in Hin.
  rewrite !elem_of_cons, elem_of_nil in Hin.
  destruct Hin as [->|[->|[->|[->|[]]]]]; simpl in *; done.
Defined.

(** ** Forgot password *)

Lemma forgotPassword_unknown app email ip ua now dateNow uuid db :
  unknown_email db email →
  forgotPassword app email ip ua now dateNow uuid db
  = (Return (mkCooldownStatus false None),
     set_auditLogs db
       (auditLogs db
        ++ [mkAuditLog None "FORGOT_PASSWORD_ATTEMPT" "User" None
              ("Attempt for non-existent email: " +:+ email) ip ua])).
Proof.
  intros Hno. unfold forgotPassword, bind, user_findUnique.
  by rewrite (user_find_None (active_user_with_email email) db Hno).
Qed.

Lemma forgotPassword_known app email ip ua now dateNow uuid db u :
  active_user_by_email db email = Some u →
  forgotPassword app email ip ua now dateNow uuid db
  = match user_lastForgotAt u with
    | Some lastForgotAt =>
      if bool_decide (now < lastForgotAt + forgotPasswordCooldown (config app))
      then (Return
              (mkCooldownStatus true
                 (Some (dayjs_format (env app)
                          (toLocalISOString app
                             (Some (lastForgotAt + forgotPasswordCooldown (config app)))
                             "Asia/Jakarta")))),
            db)
      else issue_reset_token app u email ip ua now dateNow uuid db
    | None => issue_reset_token app u email ip ua now dateNow uuid db
    end.
Proof.
  unfold active_user_by_email, forgotPassword, bind, user_findUnique. intros Hu.
  destruct (list_find _ (users db)) as [[i u']|]; simpl in *; [|discriminate].
  injection Hu as ->.
  destruct (user_lastForgotAt u) as [lastForgotAt|]; [|done].
  by destruct (bool_decide _).
Qed.

Lemma issue_reset_token_run app u email ip ua now dateNow uuid db :
  issue_reset_token app u email ip ua now dateNow uuid db
  = (if reset_mail_dispatched app email uuid
     then Return (mkCooldownStatus false None)
     else Throw ("Failed to send email to " +:+ email),
     mkDb ((fun v => if decide (user_id v = user_id u) then set_lastForgotAt now v else v)
             <$> users db)
          (roles db) (permissions db)
          (tokens db
           ++ [mkToken uuid reset_password (user_id u)
                 (dateNow + resetTokenExpiresIn (config app)) false None ip ua])
          (auditLogs db
           ++ [mkAuditLog (Some (user_id u)) "FORGOT_PASSWORD" "Token" (Some uuid)
                 "Password reset token generated" ip ua])).
Proof.
  unfold issue_reset_token, reset_mail_dispatched, bind, lift, emailService_send,
    transaction. simpl.
  destruct (bool_decide (NODE_ENV (env app) = "development")); simpl; [done|].
  by destruct (transporter_sendMail _ _ _ _).
Qed.

(** C8, as stated, fails: for a known user outside the cooldown the row is
    written, but when the mail transport fails the call throws instead of
    returning [{ active: false }]. *)
Lemma forgotPassword_throws_when_mail_fails :
  active_user_by_email (Demo.store [] []) "alice@example.com" = Some Demo.alice
  ∧ cooldown_over (Demo.app false) Demo.alice 1000
  ∧ fst (forgotPassword (Demo.app false) "alice@example.com" None None 1000 1040 "3f2c"
           (Demo.store [] []))
    = Throw "Failed to send email to alice@example.com"
  ∧ fst (forgotPassword (Demo.app false) "alice@example.com" None None 1000 1040 "3f2c"
           (Demo.store [] []))
    ≠ Return (mkCooldownStatus false None).
Proof. split; [reflexivity|]. split; [exact I|]. split; [reflexivity|discriminate]. Qed.

(** C8, amended: for an email with no ACTIVE, non-deleted user
    [forgotPassword] returns [{ active: false }] and leaves the ledger and
    the users as they were; for a known user still inside the window
    [lastForgotAt + cooldown] it returns [{ active: true, activeDate }] with
    the formatted end of the window and writes nothing; otherwise it
    appends exactly one reset_password row, for the user, unused, not
    revoked and expiring one reset-token lifetime after the clock reading
    taken at issuance, and the user's lastForgotAt becomes now, the reading
    the cooldown was checked against, every other field and every other
    user being as they were; and then it returns [{ active: false }] if the
    reset mail is dispatched (or the process runs in development mode) and
    throws the mailer's error if sending fails. *)
Theorem forgotPassword_throttles_then_issues
    (app : App) (email : string) (ip ua : option string) (now dateNow : Z) (uuid : string)
    (db : Db) :
  (unknown_email db email →
   fst (forgotPassword app email ip ua now dateNow uuid db)
   = Return (mkCooldownStatus false None)
   ∧ tokens (snd (forgotPassword app email ip ua now dateNow uuid db)) = tokens db
   ∧ users (snd (forgotPassword app email ip ua now dateNow uuid db)) = users db)
  ∧ (∀ u lastForgotAt,
       active_user_by_email db email = Some u →
       user_lastForgotAt u = Some lastForgotAt →
       now < lastForgotAt + forgotPasswordCooldown (config app) →
       forgotPassword app email ip ua now dateNow uuid db
       = (Return
            (mkCooldownStatus true
               (Some (dayjs_format (env app)
                        (toLocalISOString app
                           (Some (lastForgotAt + forgotPasswordCooldown (config app)))
                           "Asia/Jakarta")))),
          db))
  ∧ (∀ u,
       active_user_by_email db email = Some u →
       cooldown_over app u now →
       let db' := snd (forgotPassword app email ip ua now dateNow uuid db) in
       tokens db'
       = tokens db ++ [mkToken uuid reset_password (user_id u)
                         (dateNow + resetTokenExpiresIn (config app)) false None ip ua]
       ∧ (∀ k v, users db !! k = Some v → user_id v = user_id u →
            users db' !! k
            = Some (mkUser (user_id v) (user_name v) (user_email v) (user_password v)
                      (user_status v) (user_roleId v) (user_avatar v) (user_deletedAt v)
                      (user_lastLoginAt v) (Some now)))
       ∧ (∀ k v, users db !! k = Some v → user_id v ≠ user_id u →
            users db' !! k = Some v)
       ∧ length (users db') = length (users db)
       ∧ fst (forgotPassword app email ip ua now dateNow uuid db)
         = if reset_mail_dispatched app email uuid
           then Return (mkCooldownStatus false None)
           else Throw ("Failed to send email to " +:+ email)).
Proof.
  split; [|split].
  - intros Hno. by rewrite (forgotPassword_unknown app email ip ua now dateNow uuid db Hno).
  - intros u lastForgotAt Hu Hlast Hin.
    rewrite (forgotPassword_known app email ip ua now dateNow uuid db u Hu), Hlast.
    by rewrite bool_decide_eq_true_2.
  - intros u Hu Hover db'. subst db'.
    rewrite (forgotPassword_known app email ip ua now dateNow uuid db u Hu).
    assert (match user_lastForgotAt u with
            | Some lastForgotAt =>
              if bool_decide (now < lastForgotAt + forgotPasswordCooldown (config app))
              then (Return
                      (mkCooldownStatus true
                         (Some (dayjs_format (env app)
                                  (toLocalISOString app
                                     (Some (lastForgotAt
                                            + forgotPasswordCooldown (config app)))
                                     "Asia/Jakarta")))),
                    db)
              else issue_reset_token app u email ip ua now dateNow uuid db
            | None => issue_reset_token app u email ip ua now dateNow uuid db
            end = issue_reset_token app u email ip ua now dateNow uuid db) as ->.
    { unfold cooldown_over in Hover. destruct (user_lastForgotAt u) as [l|]; [|done].
      rewrite bool_decide_eq_false_2; [done|lia]. }
    rewrite issue_reset_token_run. simpl. split; [done|]. split; [|split; [|split; [|done]]].
    + intros k v Hk Hid. rewrite list_lookup_fmap, Hk. simpl. by rewrite decide_True.
    + intros k v Hk Hid. rewrite list_lookup_fmap, Hk. simpl. by rewrite decide_False.
    + by rewrite length_fmap.
Qed.

(** Alice asks at instant 1000 and the token is issued 40 ms later: the
    row expires at 1040 + 120000 and her lastForgotAt is 1000. *)
Lemma forgotPassword_throttles_then_issues_witness :
  fst (forgotPassword (Demo.app true) "alice@example.com" None None 1000 1040 "3f2c"
         (Demo.store [] []))
  = Return (mkCooldownStatus false None)
  ∧ tokens (snd (forgotPassword (Demo.app true) "alice@example.com" None None 1000 1040
                   "3f2c" (Demo.store [] [])))
    = [Demo.reset_row 121040]
  ∧ user_lastForgotAt
      <$> users (snd (forgotPassword (Demo.app true) "alice@example.com" None None 1000 1040
                        "3f2c" (Demo.store [] []))) !! 0%nat
    = Some (Some 1000).
Proof.
  destruct (forgotPassword_throttles_then_issues (Demo.app true) "alice@example.com"
              None None 1000 1040 "3f2c" (Demo.store [] [])) as (_ & _ & Hissue).
  destruct (Hissue Demo.alice eq_refl I) as (Htokens & Huser & _ & _ & Hout).
  split; [exact Hout|]. split; [exact Htokens|].
  by rewrite (Huser 0%nat Demo.alice eq_refl eq_refl).
Defined.

(** ** The forgot-password endpoint *)

(** C10, as stated, fails: a body whose email is the empty string is
    answered with 400, not 200. *)
Lemma forgotPassword_endpoint_rejects_empty_email :
  req_body_email (Demo.request None (JsString "") None) = JsString ""
  ∧ fst (AuthController_forgotPassword
           (authService_forgotPassword (Demo.app true) 1000 1040 "3f2c")
           (Demo.request None (JsString "") None) (Demo.store [] []))
    = error_response 400 "Email is required"
  ∧ res_status (fst (AuthController_forgotPassword
                       (authService_forgotPassword (Demo.app true) 1000 1040 "3f2c")
                       (Demo.request None (JsString "") None) (Demo.store [] [])))
    ≠ 200.
Proof. split; [reflexivity|]. split; [reflexivity|]. simpl. lia. Qed.

(** C10, amended: for every request whose body contains a non-empty email
    string, the forgot-password endpoint answers with status 200 and the
    same generic message, whatever the auth service does; when the service
    throws, the body is [{ active: false, message }], never a 500. *)
Theorem forgotPassword_endpoint_always_200
    (authService : ForgotPasswordService) (req : Request) (db : Db) (email : string) :
  req_body_email req = JsString email →
  email ≠ "" →
  let called :=
    authService email (Some (getClientIp req)) (Some (or_else (req_userAgent req) "")) db in
  let response := fst (AuthController_forgotPassword authService req db) in
  res_status response = 200
  ∧ (∃ fields, res_body response
               = fields ++ [("message", JsString forgot_password_message)])
  ∧ (∀ error, fst called = Throw error →
       response = mkResponse 200 [("active", JsBool false);
                                  ("message", JsString forgot_password_message)])
  ∧ (∀ cooldownStatus, fst called = Return cooldownStatus →
       response = mkResponse 200
                    (cooldownStatus_json cooldownStatus
                     ++ [("message", JsString forgot_password_message)])).
Proof.
  intros Hbody Hne called response. subst called response.
  unfold AuthController_forgotPassword. rewrite Hbody.
  assert (str_truthy email = true) as ->.
  { unfold str_truthy. by rewrite bool_decide_eq_false_2. }
  simpl.
  destruct (authService email _ _ db) as [[cooldownStatus|error] db']; simpl.
  - split; [done|]. split; [by exists (cooldownStatus_json cooldownStatus)|].
    split; [intros ?; discriminate|].
    by intros ? [= <-].
  - split; [done|]. split; [by exists [("active", JsBool false)]|].
    split; [done|intros ?; discriminate].
Qed.

Lemma forgotPassword_endpoint_always_200_witness :
  fst (AuthController_forgotPassword
         (authService_forgotPassword (Demo.app false) 1000 1040 "3f2c")
         (Demo.request None (JsString "alice@example.com") None) (Demo.store [] []))
  = mkResponse 200 [("active", JsBool false);
                    ("message", JsString forgot_password_message)].
Proof.
  destruct (forgotPassword_endpoint_always_200
              (authService_forgotPassword (Demo.app false) 1000 1040 "3f2c")
              (Demo.request None (JsString "alice@example.com") None) (Demo.store [] [])
              "alice@example.com" eq_refl) as (_ & _ & Hthrow & _).
  - discriminate.
  - apply (Hthrow "Failed to send email to alice@example.com"). reflexivity.
Defined.

(** * Further properties *)

(** ** Looking rows up after a write *)

Lemma user_find_after_update (P : User → Prop) `{∀ u, Decision (P u)}
    (g : User → User) (l : list User) :
  (∀ u, P (g u) ↔ P u) →
  list_find P (g <$> l) = prod_map id g <$> list_find P l.
Proof.
  intros Hpres. rewrite list_find_fmap. f_equal.
  apply list_find_ext. intros u. simpl. apply Hpres.
Qed.

(** With ids a key of the table, the user found by email is also the one
    found by its id, before and after an update that keeps id, status and
    deletedAt. *)
Lemma user_by_id_after_update db email u (g : User → User) :
  user_ids_unique db →
  active_user_by_email db email = Some u →
  (∀ v, user_id (g v) = user_id v ∧ user_status (g v) = user_status v
        ∧ user_deletedAt (g v) = user_deletedAt v) →
  snd <$> list_find (active_user_with_id (user_id u)) (g <$> users db) = Some (g u).
Proof.
  unfold user_ids_unique, active_user_by_email. intros Hkey Hu Hg.
  destruct (list_find (active_user_with_email email) (users db)) as [[i u']|] eqn:Hfind;
    simpl in Hu; [|discriminate].
  injection Hu as ->. apply list_find_Some in Hfind as (Hi & (_ & Hst & Hdel) & _).
  assert (list_find (active_user_with_id (user_id u)) (g <$> users db) = Some (i, g u))
    as ->; [|done].
  apply list_find_Some. split; [by rewrite list_lookup_fmap, Hi|]. split.
  - destruct (Hg u) as (Hid & Hs & Hd). unfold active_user_with_id.
    by rewrite Hid, Hs, Hd.
  - intros j y Hj Hlt (Hid & _).
    rewrite list_lookup_fmap in Hj. destruct (users db !! j) as [v|] eqn:Hv; [|done].
    injection Hj as <-. destruct (Hg v) as (Hidv & _). rewrite Hidv in Hid.
    assert (j = i); [|lia].
    eapply (NoDup_lookup _ j i (user_id u)); [exact Hkey|..].
    + by rewrite list_lookup_fmap, Hv, <- Hid.
    + by rewrite list_lookup_fmap, Hi.
Qed.

Lemma role_of_after_update db us ts ls u (g : User → User) :
  user_roleId (g u) = user_roleId u →
  role_of (mkDb us (roles db) (permissions db) ts ls) (g u) = role_of db u.
Proof. intros Hrole. unfold role_of. simpl. by rewrite Hrole. Qed.

(** ** Validation: when it returns and when it cannot *)

Lemma validateAccessToken_returns app token now db payload id u r :
  verifyToken app token false now = inr payload →
  claim_id payload = JsString id →
  ledger_active db token now →
  active_user_by_id db id = Some u →
  role_of db u = Some r →
  fst (validateAccessToken app token now db)
  = Return (mkAuthenticatedUser (user_id u) (user_email u) (user_roleId u)
              (Some (role_name r))).
Proof.
  intros Hv Hid Hyes Hu Hr. unfold validateAccessToken. rewrite Hv, Hid.
  destruct (token_findFirst_Some (active_access_row token now) db Hyes) as (i & t & Hfind & _).
  unfold bind, token_findFirst, user_findUnique. rewrite Hfind.
  unfold active_user_by_id in Hu.
  destruct (list_find (active_user_with_id id) (users db)) as [[j u']|]; simpl in *;
    [|discriminate].
  injection Hu as ->. by rewrite Hr.
Qed.

Lemma validateAccessToken_needs_ledger app token now db identity :
  fst (validateAccessToken app token now db) = Return identity →
  ledger_active db token now.
Proof.
  unfold validateAccessToken.
  destruct (verifyToken app token false now) as [e|payload]; [discriminate|].
  destruct (claim_id payload); try discriminate.
  unfold bind, token_findFirst.
  destruct (list_find (active_access_row token now) (tokens db)) as [[i t]|] eqn:Hfind;
    [|discriminate].
  intros _. apply list_find_Some in Hfind as (Hi & Ht & _).
  exists t. split; [by eapply list_elem_of_lookup_2|done].
Qed.

(** ** Login, end to end *)

(** What a login with the right password writes and returns. *)
Lemma login_run app email password ip ua now db u :
  active_user_by_email db email = Some u →
  password_verify app password (user_password u) = true →
  let claims := mkJwtClaims (JsString (user_id u)) (JsString (user_email u))
                  (JsString (user_roleId u)) in
  let accessToken := generateAccessToken app claims now in
  let refreshToken := generateRefreshToken app claims now in
  login app email password ip ua now db
  = (match role_of db u with
     | Some r =>
       Return (mkLoginResult accessToken refreshToken
                 (mkLoginUser (user_id u) (user_name u) (user_email u)
                    (avatar_or_default (user_avatar u)) (role_id r) (role_name r)))
     | None => Throw "Cannot read properties of null (reading 'id')"
     end,
     mkDb ((fun v => if decide (user_id v = user_id u) then set_lastLoginAt now v else v)
             <$> users db)
          (roles db) (permissions db)
          (tokens db
           ++ [mkToken accessToken access_token (user_id u)
                 (now + accessTokenExpiresIn (config app)) false None None None;
               mkToken refreshToken refresh_token (user_id u)
                 (now + refreshTokenExpiresIn (config app)) false None None None])
          (auditLogs db
           ++ [mkAuditLog (Some (user_id u)) "LOGIN" "User" (Some (user_id u))
                 "User logged in successfully" ip ua])).
Proof.
  unfold active_user_by_email, login, bind, user_findUnique. intros Hu Hpw.
  destruct (list_find _ (users db)) as [[i u']|]; simpl in *; [|discriminate].
  injection Hu as ->. rewrite Hpw. simpl.
  rewrite <- app_assoc. simpl.
  by destruct (role_of db u).
Qed.

(** X1: a login of an ACTIVE, non-deleted user with the right password
    returns tokens, and the access token it returns validates right away
    and until its ledger row expires, to the identity of that user,
    provided the codec reads back what it signed. *)
Theorem login_then_validateAccessToken
    (app : App) (db : Db) (email password : string) (ip ua : option string)
    (now later : Z) (u : User) (r : Role) :
  user_ids_unique db →
  active_user_by_email db email = Some u →
  password_verify app password (user_password u) = true →
  role_of db u = Some r →
  access_round_trip app
    (mkJwtClaims (JsString (user_id u)) (JsString (user_email u)) (JsString (user_roleId u)))
    now later →
  later < now + accessTokenExpiresIn (config app) →
  ∃ result db',
    login app email password ip ua now db = (Return result, db')
    ∧ fst (validateAccessToken app (lr_accessToken result) later db')
      = Return (mkAuthenticatedUser (user_id u) (user_email u) (user_roleId u)
                  (Some (role_name r))).
Proof.
  intros Hkey Hu Hpw Hr Hcodec Hlater.
  pose proof (login_run app email password ip ua now db u Hu Hpw) as Hrun.
  cbv zeta in Hrun. rewrite Hr in Hrun.
  eexists _, _. split; [exact Hrun|]. simpl.
  set (g := fun v => if decide (user_id v = user_id u) then set_lastLoginAt now v else v).
  assert (g u = set_lastLoginAt now u) as Hgu by (unfold g; by rewrite decide_True).
  erewrite (validateAccessToken_returns _ _ _ _ _ (user_id u) (g u) r).
  - by rewrite Hgu.
  - exact Hcodec.
  - done.
  - eexists. split; [apply elem_of_app; right; apply list_elem_of_here|].
    unfold active_access_row. simpl. done.
  - unfold active_user_by_id. simpl.
    apply (user_by_id_after_update db email u g Hkey Hu).
    intros v. unfold g. by destruct (decide _).
  - rewrite role_of_after_update; [done|]. by rewrite Hgu.
Qed.

Lemma login_then_validateAccessToken_witness :
  ∃ result db',
    login (Demo.app true) "alice@example.com" "correct-horse" None None 1000
      (Demo.store [] []) = (Return result, db')
    ∧ fst (validateAccessToken (Demo.app true) (lr_accessToken result) 2000 db')
      = Return Demo.alice_identity.
Proof.
  apply (login_then_validateAccessToken (Demo.app true) (Demo.store [] [])
           "alice@example.com" "correct-horse" None None 1000 2000 Demo.alice Demo.admin).
  - apply (bool_decide_unpack _). vm_compute. exact I.
  - reflexivity.
  - reflexivity.
  - reflexivity.
  - reflexivity.
  - simpl. lia.
Defined.




(** X3: a login with the empty password fails with the generic error for
    every account and writes nothing, whatever the stored hash and
    whatever bcrypt would answer; and nobody can log in to an account
    whose stored hash is empty. *)
Theorem login_rejects_empty_password
    (app : App) (db : Db) (email : string) (ip ua : option string) (now : Z) :
  login app email "" ip ua now db = (Throw "Invalid email or password", db)
  ∧ (∀ u password,
       active_user_by_email db email = Some u → user_password u = "" →
       login app email password ip ua now db = (Throw "Invalid email or password", db)).
Proof.
  split.
  - destruct (active_user_by_email db email) as [u|] eqn:Hu.
    + by apply (login_wrong_password app email "" ip ua now db u).
    + unfold active_user_by_email in Hu. unfold login, bind, user_findUnique.
      destruct (list_find _ (users db)); simpl in *; [discriminate|done].
  - intros u password Hu Hempty.
    apply (login_wrong_password app email password ip ua now db u Hu).
    unfold password_verify. rewrite Hempty. simpl. by rewrite orb_true_r.
Qed.

(** ** Sessions after a logout *)

(** A row of the ledger after a bulk revocation is a row it had, still
    live only if it was live and outside the revoked set. *)
Lemma elem_of_updateMany_revoke (P : Token → Prop) `{∀ t, Decision (P t)}
    (l : list Token) s' :
  s' ∈ (fun s => if decide (P s) then revoke s else s) <$> l →
  ∃ s, s ∈ l
       ∧ tok_token s' = tok_token s ∧ tok_type s' = tok_type s
       ∧ tok_userId s' = tok_userId s ∧ tok_expiresAt s' = tok_expiresAt s
       ∧ tok_usedAt s' = tok_usedAt s
       ∧ (tok_isRevoked s' = false → tok_isRevoked s = false ∧ ¬ P s).
Proof.
  intros Hin. apply list_elem_of_fmap in Hin as (s & -> & Hs).
  exists s. split; [done|]. destruct (decide (P s)); simpl; repeat split; try done.
Qed.

Lemma logout_run app refreshToken ip ua db i rt :
  list_find (unrevoked_refresh_row refreshToken) (tokens db) = Some (i, rt) →
  logout app refreshToken ip ua db
  = (Return tt,
     mkDb (users db) (roles db) (permissions db)
       ((fun s => if decide (unrevoked_row_of (tok_userId rt) s) then revoke s else s)
          <$> tokens db)
       (auditLogs db
        ++ [mkAuditLog (Some (tok_userId rt)) "LOGOUT" "User" (Some (tok_userId rt))
              "User logged out" ip ua])).
Proof. intros Hfind. unfold logout, bind, token_findFirst. by rewrite Hfind. Qed.

Lemma logout_returns app refreshToken ip ua db db' :
  logout app refreshToken ip ua db = (Return tt, db') →
  ∃ i rt, list_find (unrevoked_refresh_row refreshToken) (tokens db) = Some (i, rt).
Proof.
  unfold logout, bind, token_findFirst.
  destruct (list_find _ (tokens db)) as [[i rt]|]; [eauto|discriminate].
Qed.

Lemma refreshAccessToken_needs_row app refreshToken ip ua now db newToken :
  fst (refreshAccessToken app refreshToken ip ua now db) = Return newToken →
  ∃ t, t ∈ tokens db ∧ tok_token t = refreshToken ∧ tok_type t = refresh_token
       ∧ tok_isRevoked t = false ∧ now < tok_expiresAt t.
Proof.
  destruct (refreshAccessToken app refreshToken ip ua now db) as [o db'] eqn:Hrun.
  simpl. intros ->.
  apply refreshAccessToken_success in Hrun as (payload & uid & i & rt & _ & _ & Hfind & _).
  apply list_find_Some in Hfind as (Hi & (? & _ & ? & ? & ?) & _).
  exists rt. split; [by eapply list_elem_of_lookup_2|done].
Qed.

Lemma refreshAccessToken_throws_without_row app refreshToken ip ua now db :
  (¬ ∃ t, t ∈ tokens db ∧ tok_token t = refreshToken ∧ tok_type t = refresh_token
          ∧ tok_isRevoked t = false ∧ now < tok_expiresAt t) →
  ∃ msg, fst (refreshAccessToken app refreshToken ip ua now db) = Throw msg.
Proof.
  intros Hno. destruct (fst (refreshAccessToken app refreshToken ip ua now db))
    as [newToken|msg] eqn:Hout; [|eauto].
  destruct Hno. by eapply refreshAccessToken_needs_row.
Qed.

(** X4: a logout that succeeds ends every session of the refresh token's
    user: from then on no access token of that user validates, none of the
    user's refresh tokens refreshes, and a further logout with one of them
    fails with "Invalid refresh token". *)
Theorem logout_ends_every_session
    (app : App) (refreshToken : string) (ip ua : option string) (db db' : Db) :
  logout app refreshToken ip ua db = (Return tt, db') →
  ∃ rt, rt ∈ tokens db ∧ unrevoked_refresh_row refreshToken rt
    ∧ (∀ token later identity,
         access_token_of db token (tok_userId rt) →
         fst (validateAccessToken app token later db') ≠ Return identity)
    ∧ (∀ token ip' ua' later,
         refresh_token_of db token (tok_userId rt) →
         ∃ msg, fst (refreshAccessToken app token ip' ua' later db') = Throw msg)
    ∧ (∀ token ip' ua',
         refresh_token_of db token (tok_userId rt) →
         logout app token ip' ua' db' = (Throw "Invalid refresh token", db')).
Proof.
  intros Hrun. destruct (logout_returns _ _ _ _ _ _ Hrun) as (i & rt & Hfind).
  rewrite (logout_run _ _ _ _ _ _ _ Hfind) in Hrun. injection Hrun as <-.
  apply list_find_Some in Hfind as (Hi & Hrt & _).
  exists rt. split; [by eapply list_elem_of_lookup_2|]. split; [done|].
  split; [|split].
  - intros token later identity Hown Hok.
    apply validateAccessToken_needs_ledger in Hok as (s' & Hin & Htok & Hty & Hlive & _).
    simpl in Hin. apply elem_of_updateMany_revoke in Hin
      as (s & Hs & Etok & Ety & Euid & _ & _ & Hwas).
    destruct (Hwas Hlive) as [Hlive0 Hout]. apply Hout. split; [|done].
    apply Hown; congruence.
  - intros token ip' ua' later Hown. apply refreshAccessToken_throws_without_row.
    intros (s' & Hin & Htok & Hty & Hlive & _).
    simpl in Hin. apply elem_of_updateMany_revoke in Hin
      as (s & Hs & Etok & Ety & Euid & _ & _ & Hwas).
    destruct (Hwas Hlive) as [Hlive0 Hout]. apply Hout. split; [|done].
    apply Hown; congruence.
  - intros token ip' ua' Hown. unfold logout, bind, token_findFirst. simpl.
    assert (list_find (unrevoked_refresh_row token)
              ((fun s => if decide (unrevoked_row_of (tok_userId rt) s) then revoke s else s)
                 <$> tokens db) = None) as ->; [|done].
    apply list_find_None, Forall_forall. intros s' Hin (Htok & Hty & Hlive).
    apply elem_of_updateMany_revoke in Hin as (s & Hs & Etok & Ety & Euid & _ & _ & Hwas).
    destruct (Hwas Hlive) as [Hlive0 Hout]. apply Hout. split; [|done].
    apply Hown; congruence.
Qed.

(** ** Refresh rotation, end to end *)

(** X5: after a refresh that succeeds, every other access token of the
    user stops validating for good, and the token returned validates to
    the user's identity until its ledger row expires, provided the codec
    accepts it and the user is still ACTIVE with a role.  ("Other" matters:
    the codec may sign the same string twice, and then the old string is
    the new token.) *)
Theorem refresh_rotation_end_to_end
    (app : App) (refreshToken : string) (ip ua : option string) (now : Z)
    (db db' : Db) (newToken : string) :
  refreshAccessToken app refreshToken ip ua now db = (Return newToken, db') →
  ∃ uid,
    (∃ rt, rt ∈ tokens db ∧ active_refresh_row refreshToken (Given uid) now rt)
    ∧ (∀ old later identity,
         old ≠ newToken → access_token_of db old uid →
         fst (validateAccessToken app old later db') ≠ Return identity)
    ∧ (∀ payload u r later,
         verifyToken app newToken false later = inr payload →
         claim_id payload = JsString uid →
         active_user_by_id db uid = Some u → role_of db u = Some r →
         later < now + accessTokenExpiresIn (config app) →
         fst (validateAccessToken app newToken later db')
         = Return (mkAuthenticatedUser (user_id u) (user_email u) (user_roleId u)
                     (Some (role_name r)))).
Proof.
  intros Hrun.
  apply refreshAccessToken_success in Hrun
    as (payload & uid & i & rt & Hv & Hid & Hfind & Hnew & ->).
  apply list_find_Some in Hfind as (Hi & Hrt & _).
  exists uid. split; [exists rt; split; [by eapply list_elem_of_lookup_2|done]|]. split.
  - intros old later identity Hne Hown Hok.
    apply validateAccessToken_needs_ledger in Hok as (s' & Hin & Htok & Hty & Hlive & _).
    simpl in Hin. apply elem_of_app in Hin as [Hin|Hin].
    + apply elem_of_updateMany_revoke in Hin as (s & Hs & Etok & Ety & Euid & _ & _ & Hwas).
      destruct (Hwas Hlive) as [Hlive0 Hout]. apply Hout.
      split; [|split; [congruence|done]]. simpl. apply Hown; congruence.
    + apply list_elem_of_singleton in Hin as ->. simpl in Htok. congruence.
  - intros payload' u r later Hv' Hid' Hu Hr Hlater.
    eapply validateAccessToken_returns; [exact Hv'|exact Hid'|..|exact Hr].
    + eexists. split; [simpl; apply elem_of_app; right; apply list_elem_of_here|].
      unfold active_access_row. simpl. done.
    + exact Hu.
Qed.

(** ** Password reset: failures, sessions, and the new password *)

(** X6: [resetPassword] checks the token before the password, and a call
    that throws writes nothing.  Without a usable row the error is the
    token's, whatever the password; with a usable row and a password the
    hasher rejects, the error is the hasher's and the token is not
    consumed: the ledger still has its usable row. *)
Theorem resetPassword_failure_writes_nothing
    (app : App) (token newPassword : string) (ip ua : option string) (now : Z) (db : Db) :
  (∀ msg db', resetPassword app token newPassword ip ua now db = (Throw msg, db') →
     db' = db)
  ∧ (¬ has_usable_reset_row db token now →
     fst (resetPassword app token newPassword ip ua now db)
     = Throw "Invalid or expired reset token")
  ∧ (∀ msg, has_usable_reset_row db token now →
       password_hash app newPassword = Throw msg →
       resetPassword app token newPassword ip ua now db = (Throw msg, db)
       ∧ has_usable_reset_row (snd (resetPassword app token newPassword ip ua now db))
           token now).
Proof.
  split; [|split].
  - intros msg db' Hrun.
    destruct (resetPassword_cases app token newPassword ip ua now db)
      as [[_ Hthrow]|[(i & t & msg' & _ & _ & Hthrow)|(i & t & hashed & Hfind & Hhash)]].
    + congruence.
    + congruence.
    + rewrite (resetPassword_run _ _ _ _ _ _ _ _ _ _ Hfind Hhash) in Hrun. discriminate.
  - intros Hno. apply (proj2 (token_findFirst_None _ db)) in Hno.
    unfold resetPassword, bind, token_findFirst. by rewrite Hno.
  - intros msg Hrow Hhash.
    destruct (resetPassword_cases app token newPassword ip ua now db)
      as [[Hnone _]|[(i & t & msg' & _ & Hhash' & Hthrow)|(i & t & hashed & _ & Hhash')]].
    + apply token_findFirst_None in Hnone. by destruct Hnone.
    + rewrite Hthrow. simpl. split; [congruence|done].
    + congruence.
Qed.

Lemma resetPassword_failure_writes_nothing_witness :
  resetPassword (Demo.app true) "3f2c" "short" None None 1000 Demo.reset_pending
  = (Throw "Password too weak: minimum 6 characters required", Demo.reset_pending).
Proof.
  destruct (resetPassword_failure_writes_nothing (Demo.app true) "3f2c" "short" None None
              1000 Demo.reset_pending) as (_ & _ & Hweak).
  apply (Hweak "Password too weak: minimum 6 characters required"); [|reflexivity].
  exists (Demo.reset_row 120000).
  split; [do 2 apply list_elem_of_further; apply list_elem_of_here|].
  unfold usable_reset_row. simpl. repeat split; lia.
Defined.

Lemma elem_of_alter_consume now i (l : list Token) s2 :
  s2 ∈ alter (consume now) i l →
  ∃ s, s ∈ l ∧ tok_token s2 = tok_token s ∧ tok_type s2 = tok_type s
       ∧ tok_userId s2 = tok_userId s.
Proof.
  intros Hin. apply list_elem_of_lookup in Hin as [j Hj].
  rewrite list_lookup_alter in Hj. destruct (decide (i = j)) as [->|Hne].
  - destruct (l !! j) as [s|] eqn:Hs; simpl in Hj; [|discriminate].
    injection Hj as <-. exists s. split; [by eapply list_elem_of_lookup_2|done].
  - exists s2. split; [by eapply list_elem_of_lookup_2|done].
Qed.

(** A session row that is live after a reset belongs to somebody else. *)
Lemma live_session_row_after_reset now uid i (l : list Token) s' :
  s' ∈ (fun s => if decide (session_row_of uid s) then revoke s else s)
         <$> alter (consume now) i l →
  tok_isRevoked s' = false →
  tok_type s' = access_token ∨ tok_type s' = refresh_token →
  ∃ s, s ∈ l ∧ tok_token s' = tok_token s ∧ tok_type s' = tok_type s
       ∧ tok_userId s = tok_userId s' ∧ tok_userId s ≠ uid.
Proof.
  intros Hin Hlive Hty.
  apply elem_of_updateMany_revoke in Hin as (s2 & Hs2 & Etok & Ety & Euid & _ & _ & Hwas).
  destruct (Hwas Hlive) as [_ Hout].
  apply elem_of_alter_consume in Hs2 as (s & Hs & Etok2 & Ety2 & Euid2).
  exists s. split; [done|]. split; [congruence|]. split; [congruence|].
  split; [congruence|]. intros Hown. apply Hout. split; [congruence|].
  rewrite <- Ety. destruct Hty; auto.
Qed.

Lemma resetPassword_returns app token newPassword ip ua now db db' :
  resetPassword app token newPassword ip ua now db = (Return tt, db') →
  ∃ i t hashed,
    list_find (usable_reset_row token now) (tokens db) = Some (i, t)
    ∧ password_hash app newPassword = Return hashed.
Proof.
  intros Hrun.
  destruct (resetPassword_cases app token newPassword ip ua now db)
    as [[_ Hthrow]|[(i & t & msg & _ & _ & Hthrow)|(i & t & hashed & Hfind & Hhash)]];
    [congruence..|eauto].
Qed.

(** X7: a password reset that succeeds ends every session of the token's
    user: none of the user's access tokens validates any more, none of the
    user's refresh tokens refreshes, and a logout with one of them fails
    with "Invalid refresh token". *)
Theorem resetPassword_ends_every_session
    (app : App) (token newPassword : string) (ip ua : option string) (now : Z)
    (db db' : Db) :
  resetPassword app token newPassword ip ua now db = (Return tt, db') →
  ∃ t, t ∈ tokens db ∧ usable_reset_row token now t
    ∧ (∀ access later identity,
         access_token_of db access (tok_userId t) →
         fst (validateAccessToken app access later db') ≠ Return identity)
    ∧ (∀ refresh ip' ua' later,
         refresh_token_of db refresh (tok_userId t) →
         ∃ msg, fst (refreshAccessToken app refresh ip' ua' later db') = Throw msg)
    ∧ (∀ refresh ip' ua',
         refresh_token_of db refresh (tok_userId t) →
         logout app refresh ip' ua' db' = (Throw "Invalid refresh token", db')).
Proof.
  intros Hrun. destruct (resetPassword_returns _ _ _ _ _ _ _ _ Hrun)
    as (i & t & hashed & Hfind & Hhash).
  rewrite (resetPassword_run _ _ _ _ _ _ _ _ _ _ Hfind Hhash) in Hrun. injection Hrun as <-.
  apply list_find_Some in Hfind as (Hi & Ht & _).
  exists t. split; [by eapply list_elem_of_lookup_2|]. split; [done|].
  split; [|split].
  - intros access later identity Hown Hok.
    apply validateAccessToken_needs_ledger in Hok as (s' & Hin & Htok & Hty & Hlive & _).
    simpl in Hin. apply live_session_row_after_reset in Hin
      as (s & Hs & Etok & Ety & Euid & Hother); [|done|by left].
    apply Hother. apply Hown; congruence.
  - intros refresh ip' ua' later Hown. apply refreshAccessToken_throws_without_row.
    intros (s' & Hin & Htok & Hty & Hlive & _).
    simpl in Hin. apply live_session_row_after_reset in Hin
      as (s & Hs & Etok & Ety & Euid & Hother); [|done|by right].
    apply Hother. apply Hown; congruence.
  - intros refresh ip' ua' Hown. unfold logout, bind, token_findFirst. simpl.
    assert (list_find (unrevoked_refresh_row refresh)
              ((fun s => if decide (session_row_of (tok_userId t) s) then revoke s else s)
                 <$> alter (consume now) i (tokens db)) = None) as ->; [|done].
    apply list_find_None, Forall_forall. intros s' Hin (Htok & Hty & Hlive).
    apply live_session_row_after_reset in Hin
      as (s & Hs & Etok & Ety & Euid & Hother); [|done|by right].
    apply Hother. apply Hown; congruence.
Qed.

(** X8: after a password reset that succeeds, the user logs in with the
    new password, provided the hasher verifies what it hashed and the
    account is ACTIVE, not deleted and has a role. *)
Theorem resetPassword_then_login
    (app : App) (token newPassword email : string) (ip ua ip' ua' : option string)
    (now later : Z) (db db' : Db) (u : User) (r : Role) :
  resetPassword app token newPassword ip ua now db = (Return tt, db') →
  (∀ t, t ∈ tokens db → usable_reset_row token now t → tok_userId t = user_id u) →
  active_user_by_email db email = Some u →
  role_of db u = Some r →
  (∀ hashed, password_hash app newPassword = Return hashed →
     password_verify app newPassword hashed = true) →
  ∃ result db'',
    login app email newPassword ip' ua' later db' = (Return result, db'')
    ∧ lu_id (lr_user result) = user_id u.
Proof.
  intros Hrun Hown Hu Hr Hhasher.
  destruct (resetPassword_returns _ _ _ _ _ _ _ _ Hrun) as (i & t & hashed & Hfind & Hhash).
  rewrite (resetPassword_run _ _ _ _ _ _ _ _ _ _ Hfind Hhash) in Hrun. injection Hrun as <-.
  apply list_find_Some in Hfind as (Hi & Ht & _).
  assert (tok_userId t = user_id u) as Huid.
  { apply Hown; [by eapply list_elem_of_lookup_2|done]. }
  set (g := fun v => if decide (user_id v = tok_userId t) then set_password hashed v else v).
  assert (g u = set_password hashed u) as Hgu by (unfold g; by rewrite decide_True).
  set (db1 := mkDb (g <$> users db) (roles db) (permissions db)
                ((fun s => if decide (session_row_of (tok_userId t) s) then revoke s else s)
                   <$> alter (consume now) i (tokens db))
                (auditLogs db
                 ++ [mkAuditLog (Some (tok_userId t)) "RESET_PASSWORD" "User"
                       (Some (tok_userId t)) "Password successfully reset" ip ua])).
  assert (active_user_by_email db1 email = Some (g u)) as Hu1.
  { unfold active_user_by_email in *. simpl.
    rewrite (user_find_after_update (active_user_with_email email) g).
    - destruct (list_find _ (users db)) as [[j v]|]; simpl in *; [|discriminate].
      by injection Hu as ->.
    - intros v. unfold g, active_user_with_email. by destruct (decide _). }
  assert (password_verify app newPassword (user_password (g u)) = true) as Hpw.
  { rewrite Hgu. simpl. by apply Hhasher. }
  pose proof (login_run app email newPassword ip' ua' later db1 (g u) Hu1 Hpw) as Hlogin.
  cbv zeta in Hlogin.
  assert (role_of db1 (g u) = Some r) as Hr1.
  { unfold db1. rewrite role_of_after_update; [done|]. by rewrite Hgu. }
  rewrite Hr1 in Hlogin. eexists _, _. split; [exact Hlogin|]. simpl. by rewrite Hgu.
Qed.

Lemma resetPassword_then_login_witness :
  ∃ result db'',
    login (Demo.app true) "alice@example.com" "s3cret-pw" None None 2000 Demo.reset_done
    = (Return result, db'')
    ∧ lu_id (lr_user result) = "u1".
Proof.
  apply (resetPassword_then_login (Demo.app true) "3f2c" "s3cret-pw" "alice@example.com"
           None None None None 1000 2000 Demo.reset_pending Demo.reset_done
           Demo.alice Demo.admin).
  - vm_compute. reflexivity.
  - intros t Hin Ht. unfold Demo.reset_pending, Demo.store in Hin. simpl in Hin.
    rewrite !elem_of_cons, elem_of_nil in Hin.
    destruct Hin as [->|[->|[->|[]]]]; reflexivity.
  - reflexivity.
  - reflexivity.
  - intros hashed [= <-]. reflexivity.
Defined.

(** ** Forgot password: throttle and round trip *)

Lemma forgotPassword_issues app email ip ua now dateNow uuid db u :
  active_user_by_email db email = Some u →
  cooldown_over app u now →
  forgotPassword app email ip ua now dateNow uuid db
  = issue_reset_token app u email ip ua now dateNow uuid db.
Proof.
  intros Hu Hover. rewrite (forgotPassword_known app email ip ua now dateNow uuid db u Hu).
  unfold cooldown_over in Hover. destruct (user_lastForgotAt u) as [l|]; [|done].
  rewrite bool_decide_eq_false_2; [done|lia].
Qed.

(** The store an issuing [forgotPassword] leaves. *)
Lemma forgotPassword_issues_store app email ip ua now dateNow uuid db u :
  active_user_by_email db email = Some u →
  cooldown_over app u now →
  snd (forgotPassword app email ip ua now dateNow uuid db)
  = mkDb ((fun v => if decide (user_id v = user_id u) then set_lastForgotAt now v else v)
            <$> users db)
         (roles db) (permissions db)
         (tokens db
          ++ [mkToken uuid reset_password (user_id u)
                (dateNow + resetTokenExpiresIn (config app)) false None ip ua])
         (auditLogs db
          ++ [mkAuditLog (Some (user_id u)) "FORGOT_PASSWORD" "Token" (Some uuid)
                "Password reset token generated" ip ua]).
Proof.
  intros Hu Hover. rewrite (forgotPassword_issues _ _ _ _ _ _ _ _ _ Hu Hover).
  by rewrite issue_reset_token_run.
Qed.

(** The account is found again, with its new lastForgotAt. *)
Lemma user_by_email_after_forgot db email u now ts ls :
  active_user_by_email db email = Some u →
  active_user_by_email
    (mkDb ((fun v => if decide (user_id v = user_id u) then set_lastForgotAt now v else v)
             <$> users db) (roles db) (permissions db) ts ls) email
  = Some (set_lastForgotAt now u).
Proof.
  unfold active_user_by_email. simpl. intros Hu.
  rewrite (user_find_after_update (active_user_with_email email)).
  - destruct (list_find _ (users db)) as [[j v]|]; simpl in *; [|discriminate].
    injection Hu as ->. by rewrite decide_True.
  - intros v. unfold active_user_with_email. by destruct (decide _).
Qed.

Lemma find_fresh_reset_row token later (l : list Token) row :
  (∀ t, t ∈ l → tok_token t ≠ token) →
  usable_reset_row token later row →
  list_find (usable_reset_row token later) (l ++ [row]) = Some (length l, row).
Proof.
  intros Hfresh Hrow. rewrite list_find_app_r.
  - simpl. rewrite decide_True by done. simpl. f_equal.
  - apply list_find_None, Forall_forall. intros t Hin (Htok & _). by apply (Hfresh t).
Qed.

(** X9: the token [forgotPassword] issues resets the password.  For an
    ACTIVE, non-deleted account outside its cooldown and a token string the
    ledger does not hold yet, a [resetPassword] with that token and an
    acceptable password, before the token expires, succeeds, and the
    account then has the new hash as its password, whether or not the
    reset mail went out. *)
Theorem forgotPassword_then_resetPassword
    (app : App) (email newPassword uuid hashed : string) (ip ua ip' ua' : option string)
    (now dateNow later : Z) (db : Db) (u : User) :
  active_user_by_email db email = Some u →
  cooldown_over app u now →
  fresh_token db uuid →
  password_hash app newPassword = Return hashed →
  later < dateNow + resetTokenExpiresIn (config app) →
  ∃ db'',
    resetPassword app uuid newPassword ip' ua' later
      (snd (forgotPassword app email ip ua now dateNow uuid db)) = (Return tt, db'')
    ∧ active_user_by_email db'' email
      = Some (mkUser (user_id u) (user_name u) email hashed ACTIVE (user_roleId u)
                (user_avatar u) None (user_lastLoginAt u) (Some now)).
Proof.
  intros Hu Hover Hfresh Hhash Hlater.
  rewrite (forgotPassword_issues_store _ _ _ _ _ _ _ _ _ Hu Hover).
  set (row := mkToken uuid reset_password (user_id u)
                (dateNow + resetTokenExpiresIn (config app)) false None ip ua).
  assert (usable_reset_row uuid later row) as Hrow.
  { unfold usable_reset_row. simpl. done. }
  erewrite resetPassword_run;
    [|simpl; apply (find_fresh_reset_row uuid later (tokens db) row Hfresh Hrow)|exact Hhash].
  eexists. split; [reflexivity|].
  assert (active_user_with_email email u) as (Hemail & Hstatus & Hdeleted).
  { unfold active_user_by_email in Hu.
    destruct (list_find _ (users db)) as [[j v]|] eqn:Hfind; simpl in Hu; [|discriminate].
    injection Hu as ->. by apply list_find_Some in Hfind as (_ & ? & _). }
  unfold active_user_by_email. simpl.
  rewrite (user_find_after_update (active_user_with_email email)).
  - pose proof (user_by_email_after_forgot db email u now [] [] Hu) as Hu1.
    unfold active_user_by_email in Hu1. simpl in Hu1.
    destruct (list_find _ (_ <$> users db)) as [[j v]|]; simpl in *; [|discriminate].
    injection Hu1 as ->. rewrite decide_True by done.
    unfold set_password, set_lastForgotAt. simpl. by rewrite Hemail, Hstatus, Hdeleted.
  - intros v. unfold active_user_with_email. by destruct (decide _).
Qed.

(** The mail cannot be sent, and yet the token resets Alice's password. *)
Lemma forgotPassword_then_resetPassword_witness :
  ∃ db'',
    resetPassword (Demo.app false) "3f2c" "s3cret-pw" None None 5000
      (snd (forgotPassword (Demo.app false) "alice@example.com" None None 1000 1040 "3f2c"
              Demo.session)) = (Return tt, db'')
    ∧ active_user_by_email db'' "alice@example.com"
      = Some (mkUser "u1" "Alice" "alice@example.com" "hash:s3cret-pw" ACTIVE "r1"
                None None None (Some 1000)).
Proof.
  apply (forgotPassword_then_resetPassword (Demo.app false) "alice@example.com"
           "s3cret-pw" "3f2c" "hash:s3cret-pw" None None None None 1000 1040 5000
           Demo.session Demo.alice).
  - reflexivity.
  - exact I.
  - intros t Hin. unfold Demo.session, Demo.store in Hin. simpl in Hin.
    rewrite !elem_of_cons, elem_of_nil in Hin.
    destruct Hin as [->|[->|[->|[->|[]]]]]; discriminate.
  - reflexivity.
  - simpl. lia.
Defined.

(** X10: once [forgotPassword] has issued a token for an account, every
    further request for that account before the cooldown has elapsed is
    answered [{ active: true, activeDate }], with the end of the cooldown
    counted from the issuing request, and writes nothing: no token, no
    audit entry, no new lastForgotAt. *)
Theorem forgotPassword_again_within_cooldown
    (app : App) (email uuid uuid' : string) (ip ua ip' ua' : option string)
    (now dateNow later dateLater : Z) (db : Db) (u : User) :
  active_user_by_email db email = Some u →
  cooldown_over app u now →
  later < now + forgotPasswordCooldown (config app) →
  let issued := snd (forgotPassword app email ip ua now dateNow uuid db) in
  forgotPassword app email ip' ua' later dateLater uuid' issued
  = (Return
       (mkCooldownStatus true
          (Some (dayjs_format (env app)
                   (toLocalISOString app
                      (Some (now + forgotPasswordCooldown (config app))) "Asia/Jakarta")))),
     issued).
Proof.
  intros Hu Hover Hlater issued. subst issued.
  rewrite (forgotPassword_issues_store _ _ _ _ _ _ _ _ _ Hu Hover).
  rewrite (forgotPassword_known app email ip' ua' later dateLater uuid' _
             (set_lastForgotAt now u));
    [|by apply user_by_email_after_forgot].
  simpl. by rewrite bool_decide_eq_true_2.
Qed.

Lemma forgotPassword_again_within_cooldown_witness :
  fst (forgotPassword (Demo.app true) "alice@example.com" None None 60000 60020 "77aa"
         (snd (forgotPassword (Demo.app true) "alice@example.com" None None 1000 1040 "3f2c"
                 Demo.session)))
  = Return (mkCooldownStatus true (Some "2025-12-17T10:30:00.000+07:00")).
Proof.
  rewrite (forgotPassword_again_within_cooldown (Demo.app true) "alice@example.com"
             "3f2c" "77aa" None None None None 1000 1040 60000 60020 Demo.session
             Demo.alice eq_refl I); [reflexivity|simpl; lia].
Defined.

(** X11: issuing a reset token never revokes an earlier one.  After a
    second request for the account, the token of the first is usable
    exactly until its own expiry, one lifetime after the first request read
    the clock at issuance, and the token of the second, if one was issued,
    until its own.  A second token is issued exactly when the second
    request checks the cooldown at least one cooldown after the first did.
    So with a lifetime no longer than the cooldown, the two tokens are
    usable together for at most the delay between the two clock readings
    of the first request. *)
Theorem forgotPassword_keeps_earlier_token
    (app : App) (email uuid1 uuid2 : string) (ip ua ip' ua' : option string)
    (now1 dateNow1 now2 dateNow2 : Z) (db : Db) (u : User) :
  active_user_by_email db email = Some u →
  cooldown_over app u now1 →
  fresh_token db uuid1 →
  fresh_token db uuid2 →
  uuid2 ≠ uuid1 →
  let first := snd (forgotPassword app email ip ua now1 dateNow1 uuid1 db) in
  let second := snd (forgotPassword app email ip' ua' now2 dateNow2 uuid2 first) in
  (tokens second ≠ tokens first ↔ now1 + forgotPasswordCooldown (config app) ≤ now2)
  ∧ (∀ later, has_usable_reset_row second uuid1 later
              ↔ later < dateNow1 + resetTokenExpiresIn (config app))
  ∧ (∀ later, has_usable_reset_row second uuid2 later
              ↔ now1 + forgotPasswordCooldown (config app) ≤ now2
                ∧ later < dateNow2 + resetTokenExpiresIn (config app))
  ∧ (resetTokenExpiresIn (config app) ≤ forgotPasswordCooldown (config app) →
     tokens second ≠ tokens first →
     ∀ later, now2 + (dateNow1 - now1) ≤ later → ¬ has_usable_reset_row second uuid1 later).
Proof.
  intros Hu Hover Hfresh1 Hfresh2 Hne first second.
  assert ((tokens second ≠ tokens first
           ↔ now1 + forgotPasswordCooldown (config app) ≤ now2)
          ∧ (∀ later, has_usable_reset_row second uuid1 later
                      ↔ later < dateNow1 + resetTokenExpiresIn (config app))
          ∧ (∀ later, has_usable_reset_row second uuid2 later
                      ↔ now1 + forgotPasswordCooldown (config app) ≤ now2
                        ∧ later < dateNow2 + resetTokenExpiresIn (config app)))
    as (Hissued & Hfirst & Hsecond).
  { subst first second.
    rewrite (forgotPassword_issues_store _ _ _ _ _ _ _ _ _ Hu Hover).
    set (row1 := mkToken uuid1 reset_password (user_id u)
                   (dateNow1 + resetTokenExpiresIn (config app)) false None ip ua).
    set (first := mkDb _ _ _ _ _).
    assert (active_user_by_email first email = Some (set_lastForgotAt now1 u)) as Hu1
      by (by apply user_by_email_after_forgot).
    assert (∀ later, usable_reset_row uuid1 later row1
                     ↔ later < dateNow1 + resetTokenExpiresIn (config app)) as Hrow1.
    { intros later. unfold usable_reset_row, row1. simpl.
      split; [by intros (_ & _ & _ & _ & ?)|done]. }
    destruct (decide (now2 < now1 + forgotPasswordCooldown (config app))) as [Hin|Hout].
    - assert (snd (forgotPassword app email ip' ua' now2 dateNow2 uuid2 first) = first) as ->.
      { rewrite (forgotPassword_known app email ip' ua' now2 dateNow2 uuid2 first _ Hu1).
        simpl. by rewrite bool_decide_eq_true_2. }
      split; [split; [done|lia]|]. split.
      + intros later. rewrite <- Hrow1. unfold has_usable_reset_row. simpl. split.
        * intros (t & Hin' & Ht). apply elem_of_app in Hin' as [Hin'|Hin'].
          -- destruct Ht as (Htok & _). by destruct (Hfresh1 t).
          -- by apply list_elem_of_singleton in Hin' as ->.
        * intros Ht. exists row1. split; [|done].
          apply elem_of_app. right. apply list_elem_of_here.
      + intros later. split; [|lia].
        intros (t & Hin' & Htok & _). simpl in Hin'.
        apply elem_of_app in Hin' as [Hin'|Hin'].
        * by destruct (Hfresh2 t).
        * apply list_elem_of_singleton in Hin' as ->. simpl in Htok. congruence.
    - rewrite (forgotPassword_issues_store app email ip' ua' now2 dateNow2 uuid2 first _ Hu1);
        [|unfold cooldown_over; simpl; lia].
      set (row2 := mkToken uuid2 reset_password _ _ false None ip' ua').
      simpl. split; [|split].
      + split; [lia|]. intros _ Heq. apply (f_equal length) in Heq.
        rewrite !length_app in Heq. simpl in Heq. lia.
      + intros later. rewrite <- Hrow1. unfold has_usable_reset_row. simpl. split.
        * intros (t & Hin' & Ht).
          rewrite !elem_of_app, !list_elem_of_singleton in Hin'.
          destruct Hin' as [[Hin'| ->]| ->].
          -- destruct Ht as (Htok & _). by destruct (Hfresh1 t).
          -- done.
          -- destruct Ht as (Htok & _). simpl in Htok. congruence.
        * intros Ht. exists row1. split; [|done].
          rewrite !elem_of_app, !list_elem_of_singleton. auto.
      + intros later. unfold has_usable_reset_row. simpl. split.
        * intros (t & Hin' & Htok & _ & _ & _ & Hexp).
          rewrite !elem_of_app, !list_elem_of_singleton in Hin'.
          destruct Hin' as [[Hin'| ->]| ->]; simpl in *.
          -- by destruct (Hfresh2 t).
          -- congruence.
          -- split; [lia|done].
        * intros [_ Hexp]. exists row2. split.
          -- rewrite !elem_of_app, !list_elem_of_singleton. auto.
          -- unfold usable_reset_row, row2. simpl. done. }
  split; [done|]. split; [done|]. split; [done|].
  intros Hconf Hnew later Hlater Husable.
  apply Hissued in Hnew. apply Hfirst in Husable. lia.
Qed.

(** Alice asks again exactly one cooldown after her first request, which
    had read the clock again 40 ms after its cooldown check: for a moment
    both tokens are usable. *)
Lemma forgotPassword_keeps_earlier_token_witness :
  has_usable_reset_row Scenario.second_request "3f2c" 121035
  ∧ has_usable_reset_row Scenario.second_request "77aa" 121035
  ∧ ¬ has_usable_reset_row Scenario.second_request "3f2c" 121040.
Proof.
  destruct (forgotPassword_keeps_earlier_token (Demo.app true) "alice@example.com"
              "3f2c" "77aa" None None None None 1000 1040 121000 121030 Demo.session
              Demo.alice) as (Hissued & Hfirst & Hsecond & Hbound).
  - reflexivity.
  - exact I.
  - intros t Hin. unfold Demo.session, Demo.store in Hin. simpl in Hin.
    rewrite !elem_of_cons, elem_of_nil in Hin.
    destruct Hin as [->|[->|[->|[->|[]]]]]; discriminate.
  - intros t Hin. unfold Demo.session, Demo.store in Hin. simpl in Hin.
    rewrite !elem_of_cons, elem_of_nil in Hin.
    destruct Hin as [->|[->|[->|[->|[]]]]]; discriminate.
  - discriminate.
  - split; [|split].
    + apply Hfirst. simpl. lia.
    + apply Hsecond. simpl. lia.
    + apply Hbound; [simpl; lia| |lia]. apply Hissued. simpl. lia.
Defined.

Lemma logout_ends_every_session_witness :
  fst (validateAccessToken (Demo.app true) "A/u1" 1000 Scenario.logged_out)
  ≠ Return Demo.alice_identity.
Proof.
  destruct (logout_ends_every_session (Demo.app true) "R/u1" None None Demo.session
              Scenario.logged_out) as (rt & Hin & Hrt & Hvalidate & _).
  { vm_compute. reflexivity. }
  apply Hvalidate. intros t Ht Htok Haccess.
  assert (tok_userId rt = "u1") as ->.
  { unfold Demo.session, Demo.store in Hin. simpl in Hin.
    rewrite !elem_of_cons, elem_of_nil in Hin. destruct Hrt as (_ & Hty & _).
    destruct Hin as [->|[->|[->|[->|[]]]]]; done. }
  unfold Demo.session, Demo.store in Ht. simpl in Ht.
  rewrite !elem_of_cons, elem_of_nil in Ht.
  destruct Ht as [->|[->|[->|[->|[]]]]]; simpl in *; try done.
Defined.

Lemma refresh_rotation_end_to_end_witness :
  fst (validateAccessToken (Demo.app true) "A/u1" 2000 Demo.rotated)
  = Return Demo.alice_identity.
Proof.
  destruct (refresh_rotation_end_to_end (Demo.app true) "R/u1" None None 1000
              Demo.session Demo.rotated "A/u1") as (uid & (rt & Hin & Hrt) & _ & Hnew).
  { vm_compute. reflexivity. }
  assert (uid = "u1") as ->.
  { destruct Hrt as (Htok & Huid & Hty & _). simpl in Huid.
    unfold Demo.session, Demo.store in Hin. simpl in Hin.
    rewrite !elem_of_cons, elem_of_nil in Hin.
    destruct Hin as [->|[->|[->|[->|[]]]]]; simpl in *; done. }
  apply (Hnew Demo.alice_claims Demo.alice Demo.admin 2000); reflexivity.
Defined.

(** ** Start-up *)

(** X12: the server starts unless JWT_SECRET or JWT_REFRESH_SECRET is set
    to the empty string, and that is its only start-up failure here.  When
    a secret is not set at all, the server does start and signs with the
    built-in default secret.  Once started, the reset-token lifetime and
    the forgot-password cooldown are one and the same duration, whatever
    the environment holds, and passwords are hashed with cost 12. *)
Theorem server_app_start_up
    (libraries : Env) (parseTime : option string → Z → Z) (process_env : ProcessEnv) :
  (server_app libraries parseTime process_env = Throw "JWT secrets must be provided"
   ↔ process_env "JWT_SECRET" = Some "" ∨ process_env "JWT_REFRESH_SECRET" = Some "")
  ∧ (∀ msg, server_app libraries parseTime process_env = Throw msg →
       msg = "JWT secrets must be provided")
  ∧ (∀ app, server_app libraries parseTime process_env = Return app →
       resetTokenExpiresIn (config app) = forgotPasswordCooldown (config app)
       ∧ (process_env "JWT_SECRET" = None →
          accessTokenSecret (tokenConfig app) = "enerkomp_access_secret")
       ∧ (process_env "JWT_REFRESH_SECRET" = None →
          refreshTokenSecret (tokenConfig app) = "enerkomp_refresh_secret")
       ∧ saltRounds (passwordConfig app) = 12
       ∧ env app = libraries).
Proof.
  unfold server_app, new_TokenService, JwtConfig, str_truthy. simpl.
  destruct (process_env "JWT_SECRET") as [a|] eqn:Ha;
    destruct (process_env "JWT_REFRESH_SECRET") as [b|] eqn:Hb; simpl;
    repeat case_bool_decide; simpl; subst;
    (split; [split; [intros; try discriminate; auto|
                     intros [[=]|[=]]; subst; try done]|]);
    (split; [intros msg [=]; done|]);
    intros app [= <-]; simpl; repeat split; try done.
Qed.

Lemma server_app_start_up_witness :
  server_app (Demo.world true) Scenario.fallback_only Scenario.empty_refresh_secret
  = Throw "JWT secrets must be provided".
Proof.
  apply (proj1 (server_app_start_up (Demo.world true) Scenario.fallback_only
                  Scenario.empty_refresh_secret)).
  right. reflexivity.
Defined.

(** ** The gates in front of the controllers *)

Lemma str_truthy_true s : str_truthy s = true ↔ s ≠ "".
Proof. unfold str_truthy. case_bool_decide; simpl; split; congruence. Qed.

(** The two ways the authentication gate ends. *)
Lemma authenticate_cases app req now db :
  (∃ token identity,
     extractToken req = Some token ∧ token ≠ ""
     ∧ fst (validateAccessToken app token now db) = Return identity
     ∧ authenticate app req now db = (Next, set_user req identity))
  ∨ ((¬ ∃ token identity,
        extractToken req = Some token ∧ token ≠ ""
        ∧ fst (validateAccessToken app token now db) = Return identity)
     ∧ ∃ message, authenticate app req now db = (Send (error_response 401 message), req)).
Proof.
  unfold authenticate. destruct (extractToken req) as [token|] eqn:Htoken.
  - destruct (str_truthy token) eqn:Htruthy.
    + apply str_truthy_true in Htruthy.
      destruct (fst (validateAccessToken app token now db)) as [identity|message] eqn:Hv.
      * left. by exists token, identity.
      * right. split; [|by eexists].
        intros (token' & identity & [= <-] & _ & Hok). congruence.
    + right. split; [|by eexists].
      intros (token' & identity & [= <-] & Hne & _).
      apply str_truthy_true in Hne. congruence.
  - right. split; [|by eexists]. intros (token' & identity & [=] & _).
Qed.

(** The permission gate on a cache miss, with the table as resolver. *)
Lemma require_table_miss db resource action req u :
  req_user req = Some u →
  cache_of req !! cacheKey resource action (au_roleId u) = None →
  (gate_handled (require (roleService db) resource action req) = Next
   ∧ granted db (au_roleId u) resource action
   ∧ cache_of (gate_req (require (roleService db) resource action req))
     = <[cacheKey resource action (au_roleId u) := true]> (cache_of req))
  ∨ (gate_handled (require (roleService db) resource action req)
     = Send (error_response 403 "Insufficient permissions")
     ∧ ¬ granted db (au_roleId u) resource action
     ∧ cache_of (gate_req (require (roleService db) resource action req))
       = <[cacheKey resource action (au_roleId u) := false]> (cache_of req)).
Proof.
  intros Hu Hmiss. unfold require, roleService, granted. rewrite Hu. cbv zeta. rewrite Hmiss.
  destruct (hasPermission db (au_roleId u) resource "manage") eqn:Hm; simpl.
  - left. apply hasPermission_true_iff in Hm. auto.
  - apply hasPermission_false_iff in Hm.
    destruct (hasPermission db (au_roleId u) resource action) eqn:Ha; simpl.
    + left. apply hasPermission_true_iff in Ha. auto.
    + right. apply hasPermission_false_iff in Ha. split; [done|]. split; [|done].
      by intros [?|?].
Qed.

(** X13: a request passes the two gates of the role router exactly when
    it carries a token that validates to a user whose role is named
    "Super Admin"; any other request is answered 401 or 403. *)
Theorem role_route_admits_super_admin_only
    (app : App) (req : Request) (now : Z) (db : Db) :
  (fst (role_route app req now db) = Next
   ↔ ∃ token identity,
       extractToken req = Some token ∧ token ≠ ""
       ∧ fst (validateAccessToken app token now db) = Return identity
       ∧ au_role identity = Some "Super Admin")
  ∧ (∀ r, fst (role_route app req now db) = Send r →
       res_status r = 401 ∨ r = error_response 403 "Insufficient permissions").
Proof.
  unfold role_route.
  destruct (authenticate_cases app req now db)
    as [(token & identity & Htoken & Hne & Hok & ->)|[Hno (message & ->)]]; simpl.
  - unfold requireRole. simpl.
    destruct (au_role identity) as [name|] eqn:Hrole.
    + destruct (str_truthy name) eqn:Htruthy.
      * case_bool_decide as Hin; simpl.
        -- apply list_elem_of_singleton in Hin as ->.
           split; [|discriminate]. split; [|done]. intros _. by exists token, identity.
        -- split; [|intros r [= <-]; by right].
           split; [discriminate|]. intros (token' & identity' & Htoken' & _ & Hok' & Hrole').
           assert (token' = token) as -> by congruence.
           assert (identity' = identity) as -> by congruence.
           destruct Hin. rewrite Hrole in Hrole'. injection Hrole' as ->.
           apply list_elem_of_here.
      * split; [|intros r [= <-]; by right].
        split; [discriminate|]. intros (token' & identity' & Htoken' & _ & Hok' & Hrole').
        assert (token' = token) as -> by congruence.
        assert (identity' = identity) as -> by congruence.
        rewrite Hrole in Hrole'. injection Hrole' as ->. discriminate.
    + split; [|intros r [= <-]; by right].
      split; [discriminate|]. intros (token' & identity' & Htoken' & _ & Hok' & Hrole').
      assert (token' = token) as -> by congruence.
      assert (identity' = identity) as -> by congruence. congruence.
  - split; [|intros r [= <-]; by left]. split; [discriminate|].
    intros (token & identity & Htoken & Hne & Hok & _). destruct Hno. eauto.
Qed.

Lemma role_route_admits_super_admin_only_witness :
  fst (role_route (Demo.app true) (Demo.request (Some "A/u1") JsUndefined None) 0
         Demo.live_ledger)
  = Send (error_response 403 "Insufficient permissions").
Proof.
  destruct (role_route_admits_super_admin_only (Demo.app true)
              (Demo.request (Some "A/u1") JsUndefined None) 0 Demo.live_ledger)
    as [_ Hsend].
  destruct (fst (role_route (Demo.app true) (Demo.request (Some "A/u1") JsUndefined None) 0
                   Demo.live_ledger)) as [|r] eqn:Hout; [discriminate|].
  destruct (Hsend r eq_refl) as [H401| ->]; [|reflexivity].
  vm_compute in Hout. injection Hout as <-. discriminate.
Defined.

(** X14: a request without a permission cache passes the two gates
    [authenticate()] and [require(resource, action)] exactly when it carries
    a token that validates to a user whose role the table grants the
    action, by a row for the action or for "manage"; any other request is
    answered 401 or 403 "Insufficient permissions", never anything else. *)
Theorem permission_route_admits_granted_only
    (app : App) (resource action : string) (req : Request) (now : Z) (db : Db) :
  _permissionCache req = None →
  (fst (permission_route app resource action req now db) = Next
   ↔ ∃ token identity,
       extractToken req = Some token ∧ token ≠ ""
       ∧ fst (validateAccessToken app token now db) = Return identity
       ∧ granted db (au_roleId identity) resource action)
  ∧ (∀ r, fst (permission_route app resource action req now db) = Send r →
       res_status r = 401 ∨ r = error_response 403 "Insufficient permissions").
Proof.
  intros Hfresh. unfold permission_route.
  destruct (authenticate_cases app req now db)
    as [(token & identity & Htoken & Hne & Hok & ->)|[Hno (message & ->)]]; simpl.
  - destruct (require_table_miss db resource action (set_user req identity) identity)
      as [(-> & Hyes & _)|(-> & Hnot & _)]; [done|..].
    + unfold cache_of. simpl. rewrite Hfresh. apply lookup_empty.
    + split; [|discriminate]. split; [|done]. intros _. by exists token, identity.
    + split; [|intros r [= <-]; by right].
      split; [discriminate|]. intros (token' & identity' & Htoken' & _ & Hok' & Hyes).
      assert (token' = token) as -> by congruence.
      assert (identity' = identity) as -> by congruence. done.
  - split; [|intros r [= <-]; by left]. split; [discriminate|].
    intros (token & identity & Htoken & Hne & Hok & _). destruct Hno. eauto.
Qed.

Lemma permission_route_admits_granted_only_witness :
  fst (permission_route (Demo.app true) "user" "read"
         (Demo.request (Some "A/u1") JsUndefined None) 0 Scenario.admin_store) = Next.
Proof.
  apply (proj1 (permission_route_admits_granted_only (Demo.app true) "user" "read"
                  (Demo.request (Some "A/u1") JsUndefined None) 0 Scenario.admin_store
                  eq_refl)).
  exists "A/u1", Demo.alice_identity.
  split; [reflexivity|]. split; [discriminate|]. split; [reflexivity|].
  left. exists (mkPermission "r1" "user" "read"). split; [apply list_elem_of_here|done].
Defined.

(** ** The cache never answers for another permission *)

Lemma colon_split resource resource' rest rest' :
  colon_free resource = true → colon_free resource' = true →
  resource +:+ ":" +:+ rest = resource' +:+ ":" +:+ rest' →
  resource = resource' ∧ rest = rest'.
Proof.
  revert resource'. induction resource as [|c s IH]; intros [|c' s'] H1 H2 Heq;
    cbn in *.
  - injection Heq as Heq. done.
  - injection Heq as Hc _. apply andb_true_iff in H2 as [H2 _].
    rewrite bool_decide_eq_true_2 in H2; done.
  - injection Heq as Hc _. apply andb_true_iff in H1 as [H1 _].
    rewrite bool_decide_eq_true_2 in H1; done.
  - injection Heq as -> Heq. apply andb_true_iff in H1 as [_ H1].
    apply andb_true_iff in H2 as [_ H2].
    destruct (IH s' H1 H2 Heq) as [-> ->]. done.
Qed.

(** For resources without a colon and one role, the key names the
    (resource, action) pair. *)
Lemma cacheKey_inj resource action resource' action' roleId :
  colon_free resource = true → colon_free resource' = true →
  cacheKey resource action roleId = cacheKey resource' action' roleId →
  resource = resource' ∧ action = action'.
Proof.
  unfold cacheKey. intros H1 H2 Heq.
  apply colon_split in Heq as [-> Heq]; [|done..].
  split; [done|]. by apply append_inv_tail in Heq.
Qed.

Lemma cache_agrees_insert db req u resource action (b : bool) c :
  colon_free resource = true →
  cache_agrees db (au_roleId u) req →
  (b = true ↔ granted db (au_roleId u) resource action) →
  cache_of c = <[cacheKey resource action (au_roleId u) := b]> (cache_of req) →
  cache_agrees db (au_roleId u) c.
Proof.
  intros Hfree Hagrees Hb Hc resource' action' b' Hfree' Hcached. rewrite Hc in Hcached.
  destruct (decide (cacheKey resource action (au_roleId u)
                    = cacheKey resource' action' (au_roleId u))) as [Heq|Hne].
  - rewrite Heq, lookup_insert_eq in Hcached. injection Hcached as <-.
    apply cacheKey_inj in Heq as [<- <-]; done.
  - rewrite lookup_insert_ne in Hcached by done. by apply Hagrees.
Qed.

(** One gate on a request whose cache agrees with the table: its decision
    is the table's, and the cache it leaves agrees too. *)
Lemma require_agrees db req u resource action :
  req_user req = Some u →
  colon_free resource = true →
  cache_agrees db (au_roleId u) req →
  let checked := require (roleService db) resource action req in
  (gate_handled checked = Next ∧ granted db (au_roleId u) resource action
   ∨ gate_handled checked = Send (error_response 403 "Insufficient permissions")
     ∧ ¬ granted db (au_roleId u) resource action)
  ∧ cache_agrees db (au_roleId u) (gate_req checked).
Proof.
  intros Hu Hfree Hagrees checked. subst checked.
  destruct (cache_of req !! cacheKey resource action (au_roleId u)) as [b|] eqn:Hcached.
  - destruct (require_hit (roleService db) resource action req u b Hu Hcached)
      as (_ & -> & Hsame).
    pose proof (Hagrees resource action b Hfree Hcached) as Hb. split.
    + destruct b; [left|right]; (split; [done|]).
      * by apply Hb.
      * intros Hyes. apply Hb in Hyes. discriminate.
    + intros resource' action' b' Hfree'. rewrite Hsame. by apply Hagrees.
  - destruct (require_table_miss db resource action req u Hu Hcached)
      as [(-> & Hyes & Hc)|(-> & Hnot & Hc)].
    + split; [by left|]. by eapply (cache_agrees_insert db req u resource action true).
    + split; [by right|]. eapply (cache_agrees_insert db req u resource action false);
        [done|done| |done]. split; [discriminate|done].
Qed.

Lemma permission_chain_agrees db checks : ∀ req u,
  req_user req = Some u →
  Forall (fun check => colon_free (fst check) = true) checks →
  cache_agrees db (au_roleId u) req →
  (gate_handled (permission_chain (roleService db) checks req) = Next
   ↔ Forall (fun check => granted db (au_roleId u) (fst check) (snd check)) checks).
Proof.
  induction checks as [|[resource action] rest IH]; intros req u Hu Hfree Hagrees; simpl.
  - split; [by constructor|done].
  - apply Forall_cons in Hfree as [Hfree Hrest]. simpl in Hfree.
    destruct (require_agrees db req u resource action Hu Hfree Hagrees)
      as [[[Hnext Hyes]|[Hdeny Hnot]] Hagrees'].
    + rewrite Hnext. simpl.
      rewrite (IH _ u); [|by rewrite require_keeps_user|done|done].
      rewrite Forall_cons. simpl. tauto.
    + rewrite Hdeny. rewrite Hdeny. rewrite Forall_cons. simpl.
      split; [discriminate|]. tauto.
Qed.

(** X15: however many permission gates run on one request, the cache
    never lets a request through that the table would not: with resource
    names free of colons and an unchanging permission table, a chain of
    gates on a request that starts without a cache reaches the controller
    exactly when the table grants every one of the checks. *)
Theorem permission_chain_sound
    (db : Db) (checks : list (string * string)) (req : Request) (u : AuthenticatedUser) :
  req_user req = Some u →
  _permissionCache req = None →
  Forall (fun check => colon_free (fst check) = true) checks →
  (gate_handled (permission_chain (roleService db) checks req) = Next
   ↔ Forall (fun check => granted db (au_roleId u) (fst check) (snd check)) checks).
Proof.
  intros Hu Hfresh Hfree. apply permission_chain_agrees; [done..|].
  intros resource action b _. unfold cache_of. rewrite Hfresh. simpl.
  by rewrite lookup_empty.
Qed.

Lemma permission_chain_sound_witness :
  gate_handled
    (permission_chain (roleService Demo.manage_only)
       [("client", "read"); ("client", "delete"); ("client", "read")]
       (Demo.request None JsUndefined (Some Demo.alice_identity))) = Next.
Proof.
  apply (proj2 (permission_chain_sound Demo.manage_only
                  [("client", "read"); ("client", "delete"); ("client", "read")]
                  (Demo.request None JsUndefined (Some Demo.alice_identity))
                  Demo.alice_identity eq_refl eq_refl
                  ltac:(repeat constructor))).
  assert (∀ action, granted Demo.manage_only "r1" "client" action) as Hmanage.
  { intros action. right. exists (mkPermission "r1" "client" "manage").
    split; [apply list_elem_of_here|done]. }
  repeat (apply Forall_cons; split; [apply Hmanage|]). apply Forall_nil. done.
Defined.

(** X16: a lookup that fails is never cached.  When the gate answers 500
    the cache of the request holds exactly what it held before, so a retry
    within the same request asks the resolver again. *)
Theorem require_error_is_not_cached
    (rs rs' : Resolver) (resource action : string) (req : Request) (message : string) :
  gate_handled (require rs resource action req) = permission_check_failed message →
  ∃ u, req_user req = Some u
    ∧ cache_of (gate_req (require rs resource action req)) = cache_of req
    ∧ cache_of req !! cacheKey resource action (au_roleId u) = None
    ∧ ∃ rest, gate_calls (require rs' resource action
                            (gate_req (require rs resource action req)))
              = (au_roleId u, resource, "manage") :: rest.
Proof.
  intros Hfailed.
  destruct (req_user req) as [u|] eqn:Hu; [|unfold require in Hfailed; by rewrite Hu in Hfailed].
  exists u. split; [done|].
  assert (cache_of req !! cacheKey resource action (au_roleId u) = None
          ∧ cache_of (gate_req (require rs resource action req)) = cache_of req)
    as [Hmiss Hsame].
  { unfold require in *. rewrite Hu in *. cbv zeta in *.
    destruct (cache_of req !! cacheKey resource action (au_roleId u)) as [[|]|];
      simpl in *; try discriminate.
    destruct (rs (au_roleId u) resource "manage") as [[|]|]; simpl in *;
      try discriminate; [|done].
    destruct (rs (au_roleId u) resource action) as [[|]|]; simpl in *;
      try discriminate; done. }
  split; [done|]. split; [done|].
  apply require_miss; [by rewrite require_keeps_user|by rewrite Hsame].
Qed.

Lemma require_error_is_not_cached_witness :
  cache_of (gate_req (require Scenario.unavailable "client" "read"
                        (Demo.request None JsUndefined (Some Demo.alice_identity))))
  = cache_of (Demo.request None JsUndefined (Some Demo.alice_identity)).
Proof.
  destruct (require_error_is_not_cached Scenario.unavailable Scenario.unavailable
              "client" "read" (Demo.request None JsUndefined (Some Demo.alice_identity))
              "Can't reach database server" eq_refl) as (u & _ & Hsame & _).
  exact Hsame.
Defined.

(** [trim] at work: white space of one, two and three bytes goes from
    both ends, white space inside stays, and so do bytes that merely occur
    in the encoding of a white-space character. *)
Example trim_examples :
  trim (characters [" "; utf8 [194; 160]; "A/u1"; utf8 [227; 128; 128]; utf8 [9]]) = "A/u1"
  ∧ trim " a b " = "a b"
  ∧ trim (utf8 [194; 161]) = utf8 [194; 161]
  ∧ trim (utf8 [195; 160]) = utf8 [195; 160]
  ∧ trim (utf8 [226; 128; 139]) = utf8 [226; 128; 139].
Proof. repeat split. Qed.

Lemma trimStart_skips (w s : string) :
  w ∈ js_white_space → trimStart (w +:+ s) = trimStart s.
Proof.
  intros Hw. unfold js_white_space in Hw.
  apply list_elem_of_fmap in Hw as (bytes & -> & Hw).
  rewrite !elem_of_cons, elem_of_nil in Hw.
  repeat (destruct Hw as [->|Hw]; [reflexivity|]). done.
Qed.

Lemma trim_white_space (ws : list string) :
  Forall (fun w => w ∈ js_white_space) ws → trim (characters ws) = "".
Proof.
  intros Hws. unfold trim.
  assert (trimStart (characters ws) = "") as ->; [|reflexivity].
  induction Hws as [|w ws Hw _ IH]; [reflexivity|].
  simpl. by rewrite trimStart_skips.
Qed.

(** X17: a request with no access-token cookie (or an empty one) and an
    [Authorization] header made of "Bearer " and white space only, of
    whatever kind [trim] strips, is answered 401 "Access token required";
    the validator is not asked and the request is left as it was. *)
Theorem authenticate_blank_bearer
    (app : App) (req : Request) (now : Z) (db : Db) (spaces : list string) :
  req_cookie_access_token req = None ∨ req_cookie_access_token req = Some "" →
  Forall (fun w => w ∈ js_white_space) spaces →
  req_header_authorization req = Some ("Bearer " +:+ characters spaces) →
  extractToken req = Some ""
  ∧ authenticate app req now db
    = (Send (error_response 401 "Access token required"), req).
Proof.
  intros Hcookie Hspaces Hheader.
  assert (extractToken req = Some "") as Htoken.
  { assert (String.prefix "Bearer " ("Bearer " +:+ characters spaces) = true) as Hprefix
      by (cbv -[String.prefix characters]; simpl; by destruct (characters spaces)).
    assert (substring_from 7 ("Bearer " +:+ characters spaces) = characters spaces)
      as Hrest by reflexivity.
    unfold extractToken.
    rewrite Hheader, Hprefix, Hrest, (trim_white_space spaces Hspaces).
    by destruct Hcookie as [-> | ->]. }
  split; [done|]. unfold authenticate. by rewrite Htoken.
Qed.

(** A space, a no-break space and an ideographic space after "Bearer ". *)
Lemma authenticate_blank_bearer_witness :
  authenticate (Demo.app true)
    (mkRequest (Some "")
       (Some ("Bearer " +:+ characters [" "; utf8 [194; 160]; utf8 [227; 128; 128]]))
       JsUndefined None None None None None None)
    0 Demo.live_ledger
  = (Send (error_response 401 "Access token required"),
     mkRequest (Some "")
       (Some ("Bearer " +:+ characters [" "; utf8 [194; 160]; utf8 [227; 128; 128]]))
       JsUndefined None None None None None None).
Proof.
  apply (authenticate_blank_bearer (Demo.app true) _ 0 Demo.live_ledger
           [" "; utf8 [194; 160]; utf8 [227; 128; 128]]).
  - right. reflexivity.
  - apply (bool_decide_unpack _). vm_compute. exact I.
  - reflexivity.
Defined.

(** ** The token clean-up job *)

Lemma filter_count {A} (P : A → Prop) `{∀ x, Decision (P x)} (l : list A) :
  (length (filter P l) + length (filter (fun x => ¬ P x) l) = length l)%nat.
Proof.
  induction l as [|x l IH]; [done|]. rewrite !filter_cons.
  destruct (decide (P x)).
  - rewrite decide_False by tauto. simpl. lia.
  - rewrite decide_True by done. simpl. lia.
Qed.

Lemma filter_keeps_all {A} (P : A → Prop) `{∀ x, Decision (P x)} (l : list A) :
  (∀ x, x ∈ l → P x) → filter P l = l.
Proof.
  induction l as [|x l IH]; intros Hall; [done|].
  rewrite filter_cons_True by (apply Hall; left). f_equal. apply IH.
  intros y Hy. apply Hall. by right.
Qed.

Lemma filter_drops_all {A} (P : A → Prop) `{∀ x, Decision (P x)} (l : list A) :
  (∀ x, x ∈ l → ¬ P x) → filter P l = [].
Proof.
  induction l as [|x l IH]; intros Hall; [done|].
  rewrite filter_cons_False by (apply Hall; left). apply IH.
  intros y Hy. apply Hall. by right.
Qed.

(** What the job leaves in the table. *)
Lemma cleanup_rows_eq now rows :
  cleanup_rows (cleanupExpiredTokens now rows)
  = filter (fun r => ¬ stale_revoked_token (now - 30 * 24 * 60 * 60 * 1000) r)
      (filter (fun r => ¬ expired_session_token now r) rows).
Proof. reflexivity. Qed.

Lemma elem_of_cleanup_rows now rows r :
  r ∈ cleanup_rows (cleanupExpiredTokens now rows)
  ↔ r ∈ rows ∧ ¬ expired_session_token now r
    ∧ ¬ stale_revoked_token (now - 30 * 24 * 60 * 60 * 1000) r.
Proof. rewrite cleanup_rows_eq, !list_elem_of_filter. tauto. Qed.

(** A lookup that asks for a live row, not revoked and not expired, finds
    one after the job exactly when it found one before. *)
Lemma find_after_cleanup (P : Token → Prop) `{∀ t, Decision (P t)} now later rows :
  now ≤ later →
  (∀ t, P t → tok_isRevoked t = false ∧ later < tok_expiresAt t) →
  (list_find P (st_token <$> cleanup_rows (cleanupExpiredTokens now rows)) = None
   ↔ list_find P (st_token <$> rows) = None).
Proof.
  intros Hlater Hlive. rewrite !list_find_None, !Forall_forall. split.
  - intros Hnone t Hin HP. apply list_elem_of_fmap in Hin as (r & -> & Hr).
    apply (Hnone (st_token r)); [|done]. apply list_elem_of_fmap. exists r. split; [done|].
    apply elem_of_cleanup_rows. destruct (Hlive _ HP) as [Hrev Hexp].
    split; [done|]. split.
    + intros [[_ ?]|[_ ?]]; lia.
    + intros [_ ?]. congruence.
  - intros Hnone t Hin HP. apply list_elem_of_fmap in Hin as (r & -> & Hr).
    apply elem_of_cleanup_rows in Hr as (Hr & _).
    apply (Hnone (st_token r)); [|done]. apply list_elem_of_fmap. by exists r.
Qed.

Lemma find_after_cleanup_cases (P : Token → Prop) `{∀ t, Decision (P t)} now later rows :
  now ≤ later →
  (∀ t, P t → tok_isRevoked t = false ∧ later < tok_expiresAt t) →
  (list_find P (st_token <$> cleanup_rows (cleanupExpiredTokens now rows)) = None
   ∧ list_find P (st_token <$> rows) = None)
  ∨ (∃ i t j s,
       list_find P (st_token <$> cleanup_rows (cleanupExpiredTokens now rows)) = Some (i, t)
       ∧ list_find P (st_token <$> rows) = Some (j, s)).
Proof.
  intros Hlater Hlive.
  pose proof (find_after_cleanup P now later rows Hlater Hlive) as Hiff.
  destruct (list_find P (st_token <$> cleanup_rows (cleanupExpiredTokens now rows)))
    as [[i t]|] eqn:H1;
    destruct (list_find P (st_token <$> rows)) as [[j s]|] eqn:H2.
  - right. by exists i, t, j, s.
  - destruct Hiff as [_ Hiff]. by specialize (Hiff eq_refl).
  - destruct Hiff as [Hiff _]. by specialize (Hiff eq_refl).
  - by left.
Qed.

Lemma tokens_with_ledger db rows : tokens (with_ledger db rows) = st_token <$> rows.
Proof. reflexivity. Qed.

Lemma users_with_ledger db rows : users (with_ledger db rows) = users db.
Proof. reflexivity. Qed.

Lemma role_of_with_ledger db rows u : role_of (with_ledger db rows) u = role_of db u.
Proof. reflexivity. Qed.

(** X18: the clean-up job never changes what a token is good for.  At the
    instant of the job and ever after, [validateAccessToken],
    [refreshAccessToken] and [resetPassword] give the same outcome on the
    ledger the job leaves as on the ledger it found: the rows it deletes
    are expired or revoked, and these three accept neither. *)
Theorem cleanup_preserves_token_outcomes
    (app : App) (db : Db) (rows : list StoredToken) (now later : Z) :
  now ≤ later →
  let before := with_ledger db rows in
  let after := with_ledger db (cleanup_rows (cleanupExpiredTokens now rows)) in
  (∀ token,
     fst (validateAccessToken app token later after)
     = fst (validateAccessToken app token later before))
  ∧ (∀ token ip ua,
       fst (refreshAccessToken app token ip ua later after)
       = fst (refreshAccessToken app token ip ua later before))
  ∧ (∀ token password ip ua,
       fst (resetPassword app token password ip ua later after)
       = fst (resetPassword app token password ip ua later before)).
Proof.
  intros Hlater before after. subst before after. split; [|split].
  - intros token. unfold validateAccessToken.
    destruct (verifyToken app token false later) as [e|payload]; [done|].
    destruct (claim_id payload); try done.
    unfold bind, token_findFirst, user_findUnique.
    rewrite !tokens_with_ledger.
    destruct (find_after_cleanup_cases (active_access_row token later) now later rows Hlater)
      as [[-> ->]|(i & t & j & s' & -> & ->)]; [|done|].
    + intros t (_ & _ & ? & ?). done.
    + cbv beta. rewrite !users_with_ledger.
      destruct (list_find _ (users db)) as [[k u]|]; [|done].
      cbn [fmap option_fmap option_map fst snd].
      rewrite !role_of_with_ledger. by destruct (role_of db u).
  - intros token ip ua. unfold refreshAccessToken.
    destruct (verifyToken app token true later) as [e|payload]; [done|].
    destruct (string_arg (claim_id payload)) as [|uid|] eqn:Harg; [| |done].
    + unfold bind, token_findFirst. rewrite !tokens_with_ledger.
      destruct (find_after_cleanup_cases (active_refresh_row token Unset later)
                  now later rows Hlater)
        as [[-> ->]|(i & t & j & s' & -> & ->)]; [|done|done].
      intros t (_ & _ & _ & ? & ?). done.
    + unfold bind, token_findFirst. rewrite !tokens_with_ledger.
      destruct (find_after_cleanup_cases (active_refresh_row token (Given uid) later)
                  now later rows Hlater)
        as [[-> ->]|(i & t & j & s' & -> & ->)]; [|done|done].
      intros t (_ & _ & _ & ? & ?). done.
  - intros token password ip ua. unfold resetPassword, bind, token_findFirst.
    rewrite !tokens_with_ledger.
    destruct (find_after_cleanup_cases (usable_reset_row token later) now later rows Hlater)
      as [[-> ->]|(i & t & j & s' & -> & ->)]; [|done|].
    + intros t (_ & _ & ? & _ & ?). done.
    + unfold lift. by destruct (password_hash app password).
Qed.

Lemma cleanup_preserves_token_outcomes_witness :
  fst (validateAccessToken (Demo.app true) "A/u1" 3000000000
         (with_ledger (Demo.store [] [])
            (cleanup_rows (cleanupExpiredTokens 3000000000 Scenario.stored))))
  = fst (validateAccessToken (Demo.app true) "A/u1" 3000000000
           (with_ledger (Demo.store [] []) Scenario.stored)).
Proof.
  apply (cleanup_preserves_token_outcomes (Demo.app true) (Demo.store [] [])
           Scenario.stored 3000000000 3000000000).
  lia.
Defined.

Example cleanup_of_the_stored_ledger :
  cleanupExpiredTokens 3000000000 Scenario.stored
  = mkCleanupResult [mkStoredToken (Demo.reset_row 120000) 0] 2 1.
Proof. reflexivity. Qed.

(** X19: the clean-up job accounts for every row: the two counts it
    reports and the rows it leaves add up to the rows it found, and every
    row it deleted was revoked or expired.  A second run at the same
    instant deletes nothing.  A reset_password row that was never revoked
    is never deleted, however long ago it expired. *)
Theorem cleanup_accounts_for_every_row (now : Z) (rows : list StoredToken) :
  (cleanup_expired (cleanupExpiredTokens now rows)
   + cleanup_unused (cleanupExpiredTokens now rows)
   + length (cleanup_rows (cleanupExpiredTokens now rows)) = length rows)%nat
  ∧ (∀ r, r ∈ rows → r ∉ cleanup_rows (cleanupExpiredTokens now rows) →
       tok_isRevoked (st_token r) = true ∨ tok_expiresAt (st_token r) < now)
  ∧ cleanupExpiredTokens now (cleanup_rows (cleanupExpiredTokens now rows))
    = mkCleanupResult (cleanup_rows (cleanupExpiredTokens now rows)) 0 0
  ∧ (∀ r, r ∈ rows →
       tok_type (st_token r) = reset_password → tok_isRevoked (st_token r) = false →
       r ∈ cleanup_rows (cleanupExpiredTokens now rows)).
Proof.
  split; [|split; [|split]].
  - unfold cleanupExpiredTokens, token_deleteMany. simpl.
    pose proof (filter_count (expired_session_token now) rows) as H1.
    pose proof (filter_count (stale_revoked_token (now - 30 * 24 * 60 * 60 * 1000))
                  (filter (fun r => ¬ expired_session_token now r) rows)) as H2.
    lia.
  - intros r Hin Hgone. rewrite elem_of_cleanup_rows in Hgone.
    destruct (decide (expired_session_token now r)) as [[[_ ?]|[_ ?]]|Hlive]; [by right..|].
    destruct (decide (stale_revoked_token (now - 30 * 24 * 60 * 60 * 1000) r))
      as [[_ ?]|Hfresh]; [by left|].
    destruct Hgone. done.
  - set (kept := cleanup_rows (cleanupExpiredTokens now rows)).
    assert (∀ r, r ∈ kept → ¬ expired_session_token now r) as Hlive.
    { intros r Hr. by apply elem_of_cleanup_rows in Hr as (_ & ? & _). }
    assert (∀ r, r ∈ kept →
              ¬ stale_revoked_token (now - 30 * 24 * 60 * 60 * 1000) r) as Hfresh.
    { intros r Hr. by apply elem_of_cleanup_rows in Hr as (_ & _ & ?). }
    unfold cleanupExpiredTokens, token_deleteMany.
    rewrite (filter_keeps_all (fun r => ¬ expired_session_token now r) kept Hlive).
    rewrite (filter_drops_all (expired_session_token now) kept Hlive).
    rewrite (filter_keeps_all _ kept Hfresh).
    rewrite (filter_drops_all _ kept Hfresh). done.
  - intros r Hin Hty Hlive. apply elem_of_cleanup_rows. split; [done|]. split.
    + intros [[? _]|[? _]]; congruence.
    + intros [_ ?]. congruence.
Qed.

(** ** The forgot-password endpoint and the cooldown *)

(** X20: for a non-empty email string, what the forgot-password endpoint
    answers depends on the account only through its cooldown.  Inside the
    cooldown of an ACTIVE, non-deleted account it answers
    [{ active: true, activeDate, message }]; in every other case, unknown
    email or known account, mail delivered or not, it answers the very
    same [{ active: false, message }] with status 200. *)
Theorem forgotPassword_endpoint_depends_on_cooldown_only
    (app : App) (now dateNow : Z) (uuid : string) (req : Request) (db : Db)
    (email : string) :
  req_body_email req = JsString email →
  email ≠ "" →
  let response :=
    fst (AuthController_forgotPassword (authService_forgotPassword app now dateNow uuid)
           req db) in
  (¬ in_cooldown app db email now →
   response = mkResponse 200 [("active", JsBool false);
                              ("message", JsString forgot_password_message)])
  ∧ (∀ u lastForgotAt,
       active_user_by_email db email = Some u →
       user_lastForgotAt u = Some lastForgotAt →
       now < lastForgotAt + forgotPasswordCooldown (config app) →
       response
       = mkResponse 200
           [("active", JsBool true);
            ("activeDate",
             JsString (dayjs_format (env app)
                         (toLocalISOString app
                            (Some (lastForgotAt + forgotPasswordCooldown (config app)))
                            "Asia/Jakarta")));
            ("message", JsString forgot_password_message)]).
Proof.
  intros Hbody Hne response. subst response.
  unfold AuthController_forgotPassword, authService_forgotPassword. rewrite Hbody.
  assert (str_truthy email = true) as -> by (by apply str_truthy_true).
  simpl. split.
  - intros Hout.
    destruct (active_user_by_email db email) as [u|] eqn:Hu.
    + assert (cooldown_over app u now) as Hover.
      { unfold cooldown_over. destruct (user_lastForgotAt u) as [l|] eqn:Hl; [|done].
        destruct (decide (now < l + forgotPasswordCooldown (config app))); [|lia].
        destruct Hout. by exists u, l. }
      rewrite (forgotPassword_issues _ _ _ _ _ _ _ _ _ Hu Hover), issue_reset_token_run.
      by destruct (reset_mail_dispatched app email uuid).
    + rewrite forgotPassword_unknown; [done|].
      intros u Hin Hact. unfold active_user_by_email in Hu.
      destruct (list_find _ (users db)) as [[i v]|] eqn:Hfind; [discriminate|].
      apply list_find_None in Hfind. rewrite Forall_forall in Hfind. by apply (Hfind u).
  - intros u lastForgotAt Hu Hlast Hin.
    rewrite (forgotPassword_known _ _ _ _ _ _ _ _ _ Hu), Hlast.
    by rewrite bool_decide_eq_true_2.
Qed.

Lemma forgotPassword_endpoint_depends_on_cooldown_only_witness :
  fst (AuthController_forgotPassword
         (authService_forgotPassword (Demo.app true) 60000 60020 "77aa")
         (Demo.request None (JsString "alice@example.com") None) Scenario.first_request)
  = mkResponse 200
      [("active", JsBool true);
       ("activeDate", JsString "2025-12-17T10:30:00.000+07:00");
       ("message", JsString forgot_password_message)].
Proof.
  destruct (forgotPassword_endpoint_depends_on_cooldown_only (Demo.app true) 60000 60020
              "77aa"
              (Demo.request None (JsString "alice@example.com") None)
              Scenario.first_request "alice@example.com" eq_refl) as [_ Hinside].
  - discriminate.
  - apply (Hinside (set_lastForgotAt 1000 Demo.alice) 1000); [reflexivity..|simpl; lia].
Defined.

(** ** What a rotation and a reset leave alone *)

(** X21: a refresh and a password reset touch one account only.  A
    successful [refreshAccessToken] leaves the user table and every ledger
    row of the other users as they were; a successful [resetPassword]
    leaves every other user's row and every other user's ledger rows as
    they were, and changes nothing of the account but its password hash. *)
Theorem rotation_and_reset_touch_one_account
    (app : App) (token : string) (ip ua : option string) (now : Z) (db db' : Db) :
  (∀ newToken,
     refreshAccessToken app token ip ua now db = (Return newToken, db') →
     ∃ uid,
       (∃ rt, rt ∈ tokens db ∧ active_refresh_row token (Given uid) now rt)
       ∧ users db' = users db
       ∧ (∀ j s, tokens db !! j = Some s → tok_userId s ≠ uid →
            tokens db' !! j = Some s)
       ∧ length (tokens db') = S (length (tokens db)))
  ∧ (∀ newPassword,
       resetPassword app token newPassword ip ua now db = (Return tt, db') →
       ∃ uid hashed,
         (∃ t, t ∈ tokens db ∧ usable_reset_row token now t ∧ tok_userId t = uid)
         ∧ (∀ k v, users db !! k = Some v → user_id v ≠ uid → users db' !! k = Some v)
         ∧ (∀ k v, users db !! k = Some v → user_id v = uid →
              users db' !! k = Some (set_password hashed v))
         ∧ (∀ j s, tokens db !! j = Some s → tok_userId s ≠ uid →
              tokens db' !! j = Some s)
         ∧ length (tokens db') = length (tokens db)
         ∧ length (users db') = length (users db)).
Proof.
  split.
  - intros newToken Hrun.
    apply refreshAccessToken_success in Hrun
      as (payload & uid & i & rt & _ & _ & Hfind & _ & ->).
    apply list_find_Some in Hfind as (Hi & Hrt & _).
    exists uid. simpl.
    split; [exists rt; split; [by eapply list_elem_of_lookup_2|done]|].
    split; [done|]. split.
    + intros j s Hj Hother. apply lookup_app_l_Some.
      rewrite (lookup_updateMany _ _ _ j s Hj).
      destruct (decide _) as [(Huid & _)|]; [|done]. simpl in Huid. congruence.
    + rewrite length_app, length_fmap. simpl. lia.
  - intros newPassword Hrun.
    destruct (resetPassword_returns _ _ _ _ _ _ _ _ Hrun) as (i & t & hashed & Hfind & Hhash).
    rewrite (resetPassword_run _ _ _ _ _ _ _ _ _ _ Hfind Hhash) in Hrun.
    injection Hrun as <-. apply list_find_Some in Hfind as (Hi & Ht & _).
    exists (tok_userId t), hashed. simpl.
    split; [exists t; split; [by eapply list_elem_of_lookup_2|done]|].
    split; [|split; [|split; [|split]]].
    + intros k v Hk Hother. rewrite list_lookup_fmap, Hk. simpl. by rewrite decide_False.
    + intros k v Hk Hown. rewrite list_lookup_fmap, Hk. simpl. by rewrite decide_True.
    + intros j s Hj Hother.
      assert (i ≠ j) as Hne by (intros ->; congruence).
      rewrite list_lookup_fmap, list_lookup_alter_ne, Hj by done. simpl.
      rewrite decide_False; [done|]. by intros [? _].
    + by rewrite length_fmap, length_alter.
    + by rewrite length_fmap.
Qed.

Lemma rotation_and_reset_touch_one_account_witness :
  tokens Demo.rotated !! 3%nat
  = Some (mkToken "A/u2" access_token "u2" 900000 false None None None).
Proof.
  destruct (rotation_and_reset_touch_one_account (Demo.app true) "R/u1" None None 1000
              Demo.session Demo.rotated) as [Hrefresh _].
  destruct (Hrefresh "A/u1") as (uid & (rt & Hin & Hrt) & _ & Hothers & _).
  { vm_compute. reflexivity. }
  apply Hothers; [reflexivity|].
  destruct Hrt as (Htok & Huid & Hty & _). simpl in Huid.
  unfold Demo.session, Demo.store in Hin. simpl in Hin.
  rewrite !elem_of_cons, elem_of_nil in Hin.
  destruct Hin as [->|[->|[->|[->|[]]]]]; simpl in *; subst; done.
Defined.

Lemma resetPassword_ends_every_session_witness :
  fst (validateAccessToken (Demo.app true) "A/u1" 2000 Demo.reset_done)
  ≠ Return Demo.alice_identity.
Proof.
  destruct (resetPassword_ends_every_session (Demo.app true) "3f2c" "s3cret-pw" None None
              1000 Demo.reset_pending Demo.reset_done) as (t & Hin & Ht & Hvalidate & _).
  { vm_compute. reflexivity. }
  apply Hvalidate. intros s Hs Htok Haccess.
  assert (tok_userId t = "u1") as ->.
  { unfold Demo.reset_pending, Demo.store in Hin. simpl in Hin.
    rewrite !elem_of_cons, elem_of_nil in Hin.
    destruct Hin as [->|[->|[->|[]]]]; done. }
  unfold Demo.reset_pending, Demo.store in Hs. simpl in Hs.
  rewrite !elem_of_cons, elem_of_nil in Hs.
  destruct Hs as [->|[->|[->|[]]]]; done.
Defined.

Lemma login_rejects_empty_password_witness :
  login (Demo.app true) "alice@example.com" "" None None 1000 Demo.session
  = (Throw "Invalid email or password", Demo.session).
Proof.
  apply (proj1 (login_rejects_empty_password (Demo.app true) Demo.session
                  "alice@example.com" None None 1000)).
Defined.

Lemma cleanup_accounts_for_every_row_witness :
  mkStoredToken (Demo.reset_row 120000) 0
  ∈ cleanup_rows (cleanupExpiredTokens 3000000000 Scenario.stored).
Proof.
  destruct (cleanup_accounts_for_every_row 3000000000 Scenario.stored)
    as (_ & _ & _ & Hreset).
  apply Hreset; [|reflexivity|reflexivity].
  unfold Scenario.stored. do 3 apply list_elem_of_further. apply list_elem_of_here.
Defined.
